(** * B-tree index with online FD/OD validation (hyrise, storage/index/b_tree)

    A shallow embedding of [b_tree_nodes.hpp], [b_tree_nodes.cpp] and
    [b_tree_index.cpp], and the properties of the validation metadata
    (global violation counter, boundary flags, local violation counts).

    Representation choices, all of them local to this file:

    - [AllTypeVariant] (all_type_variant.hpp is not among the sources) is the
      type of column values; the index only compares them with [<], [>] and
      [==] and hashes them into [rhs_values]. They are modelled as integers,
      the column type every test of the index uses. A NULL position of a
      segment is [None]; NULLs never enter a key.
    - [ChunkOffset] (types.hpp is not among the sources) is modelled as an
      unbounded integer; [int] fields are integers as well.
    - A [std::shared_ptr<BTreeNode>] child is an owned subtree. Every
      [std::shared_ptr<BTreeValue>] of an entry is created by
      [std::make_shared] and owned by exactly one entry, so a value is stored
      inline in its entry and the null checks of the source never fire.
    - The weak [left_neighbor]/[right_neighbor] links of the leaves are
      represented by the leaf sequence itself: [_link_leaf_neighbors]
      collects the leaves from left to right and links [leaves[i]] with
      [leaves[i-1]] and [leaves[i+1]]; [split_child] keeps the same doubly
      linked list, and no leaf is ever destroyed. A leaf pointer is therefore
      an index into that sequence, its neighbours are the indices next to
      it. *)

From stdpp Require Import gmap list sorting.
From Stdlib Require Import ZArith Lia.

#[local] Set Warnings "-register-all".
#[local] Open Scope Z_scope.

(** ** Keys *)

Abbreviation AllTypeVariant := Z (only parsing).
Abbreviation Key := (list Z) (only parsing).

(** [operator<] of [std::vector]: lexicographic comparison. *)
Fixpoint key_lt (a b : Key) : bool :=
  match a, b with
  | _, [] => false
  | [], _ :: _ => true
  | x :: a', y :: b' =>
      if x <? y then true else if y <? x then false else key_lt a' b'
  end.

(** [operator==] of [std::vector]. *)
Definition key_eq (a b : Key) : bool := bool_decide (a = b).

(** ** b_tree_nodes.hpp *)

Inductive DependencyType := FD | OD.

#[global] Instance DependencyType_eq_dec : EqDecision DependencyType.
Proof. solve_decision. Defined.

Record MetadataDeltas := mkDeltas {
  flag_delta : Z;
  local_violation_count_delta : Z
}.

Definition zero_deltas : MetadataDeltas := mkDeltas 0 0.

Definition total_delta (d : MetadataDeltas) : Z :=
  flag_delta d + local_violation_count_delta d.

(** [ChunkOffset] is a 32-bit unsigned integer: [count++] on a field of
    that type wraps to 0 after 4294967295. *)
Definition ChunkOffset_incr (c : Z) : Z := (c + 1) mod 4294967296.

Record BTreeValue := mkValue {
  start_index : Z;
  count : Z;
  rhs_values : gset AllTypeVariant;
  min_rhs : option AllTypeVariant;
  max_rhs : option AllTypeVariant;
  right_neighbor_flag : Z;
  right_neighbor_flag_contribution : Z;
  local_violation_count_contribution : Z
}.

(** [BTreeValue::local_violation_count(DependencyType)]: the same formula
    for both dependency types. *)
Definition local_violation_count (v : BTreeValue) (dep_type : DependencyType) : Z :=
  if decide (rhs_values v = ∅) then 0 else Z.of_nat (size (rhs_values v)) - 1.

Record BTreeEntry := mkEntry {
  key : Key;
  value : BTreeValue
}.

Inductive BTreeNode :=
  mkNode (t : nat) (leaf : bool) (entries : list BTreeEntry) (children : list BTreeNode).

Definition node_t (n : BTreeNode) : nat := match n with mkNode t _ _ _ => t end.
Definition leaf (n : BTreeNode) : bool := match n with mkNode _ l _ _ => l end.
Definition entries (n : BTreeNode) : list BTreeEntry := match n with mkNode _ _ es _ => es end.
Definition children (n : BTreeNode) : list BTreeNode := match n with mkNode _ _ _ cs => cs end.

(** Field updates of a value, as the source assigns them. *)
Definition set_count (c : Z) (v : BTreeValue) : BTreeValue :=
  mkValue (start_index v) c (rhs_values v) (min_rhs v) (max_rhs v)
          (right_neighbor_flag v) (right_neighbor_flag_contribution v)
          (local_violation_count_contribution v).

Definition set_rhs_values (s : gset AllTypeVariant) (v : BTreeValue) : BTreeValue :=
  mkValue (start_index v) (count v) s (min_rhs v) (max_rhs v)
          (right_neighbor_flag v) (right_neighbor_flag_contribution v)
          (local_violation_count_contribution v).

Definition set_min_max (mn mx : option AllTypeVariant) (v : BTreeValue) : BTreeValue :=
  mkValue (start_index v) (count v) (rhs_values v) mn mx
          (right_neighbor_flag v) (right_neighbor_flag_contribution v)
          (local_violation_count_contribution v).

(** [v->right_neighbor_flag = f; v->right_neighbor_flag_contribution = f]. *)
Definition set_flag (f : Z) (v : BTreeValue) : BTreeValue :=
  mkValue (start_index v) (count v) (rhs_values v) (min_rhs v) (max_rhs v)
          f f (local_violation_count_contribution v).

Definition set_local (l : Z) (v : BTreeValue) : BTreeValue :=
  mkValue (start_index v) (count v) (rhs_values v) (min_rhs v) (max_rhs v)
          (right_neighbor_flag v) (right_neighbor_flag_contribution v) l.

(** ** b_tree_nodes.cpp *)

(** [size_t i = 0; while (i < entries.size() && key > entries[i].key) i++;] *)
Fixpoint scan_up (k : Key) (es : list BTreeEntry) : nat :=
  match es with
  | [] => 0%nat
  | e :: r => if key_lt (key e) k then S (scan_up k r) else 0%nat
  end.

(** [i = entries.size() - 1; while (i >= 0 && key < entries[i].key) i--;]
    The result is [i + 1], the insertion position; the argument [n] is the
    number of entries not yet passed. *)
Fixpoint scan_down (k : Key) (es : list BTreeEntry) (n : nat) : nat :=
  match n with
  | O => 0%nat
  | S j =>
      match es !! j with
      | Some e => if key_lt k (key e) then scan_down k es j else S j
      | None => S j
      end
  end.

(** [children[i]->f(...)]: the call on the [i]-th child; [d] stands for the
    out-of-range access, which no reachable tree performs (an internal node
    owns more children than entries). *)
Fixpoint apply_nth {A B} (f : A → B) (d : B) (l : list A) (i : nat) : B :=
  match l with
  | [] => d
  | x :: r => match i with O => f x | S j => apply_nth f d r j end
  end.

(** The in-place update of the [i]-th child is [alter f i children]; out of
    range it leaves the children as they are. *)

(** [BTreeNode::split_child(i, y)] with [y = children[i]]. The slices use the
    minimum degree [t] of the node the method is called on; the new sibling
    [z] is built with [y->t] and [y->leaf]. *)
Definition split_child (n : BTreeNode) (i : nat) : BTreeNode :=
  match n with
  | mkNode t lf es cs =>
      match cs !! i with
      | Some (mkNode yt yleaf yes ycs) =>
          match yes !! (t - 1)%nat with
          | Some mid_entry =>
              let z := mkNode yt yleaf (drop t yes) (if yleaf then [] else drop t ycs) in
              let y := mkNode yt yleaf (take (t - 1) yes) (if yleaf then ycs else take t ycs) in
              mkNode t lf (take i es ++ mid_entry :: drop i es)
                          (take i cs ++ y :: z :: drop (S i) cs)
          | None => n
          end
      | None => n
      end
  end.

(** Number of edges from a node down to its deepest descendant. *)
Fixpoint height (n : BTreeNode) : nat :=
  match n with
  | mkNode _ _ _ cs => foldr (λ c h, Nat.max (S (height c)) h) 0%nat cs
  end.

(** [BTreeNode::insert_non_full]. After a split the method descends into a
    node that [split_child] has just rebuilt, so the recursion is not
    structural; [fuel] bounds the depth of the descent and [_insert] passes
    the height of the tree. *)
Fixpoint insert_non_full (fuel : nat) (n : BTreeNode) (k : Key) (v : BTreeValue) : BTreeNode :=
  match n with
  | mkNode t lf es cs =>
      let i := scan_down k es (length es) in
      if lf then mkNode t lf (take i es ++ mkEntry k v :: drop i es) cs
      else
        match fuel with
        | O => n
        | S fuel' =>
            let full := apply_nth (λ c, bool_decide (length (entries c) = (2 * t - 1)%nat)) false cs i in
            let n1 := if full then split_child n i else n in
            let i1 :=
              if full then
                match entries n1 !! i with
                | Some e => if key_lt (key e) k then S i else i
                | None => i
                end
              else i in
            mkNode t lf (entries n1)
                   (alter (λ c, insert_non_full fuel' c k v) i1 (children n1))
        end
  end.

(** [BTreeNode::search]. *)
Fixpoint search (n : BTreeNode) (k : Key) : option BTreeValue :=
  match n with
  | mkNode _ lf es cs =>
      let i := scan_up k es in
      match es !! i with
      | Some e =>
          if key_eq k (key e) then Some (value e)
          else if lf then None else apply_nth (λ c, search c k) None cs i
      | None => if lf then None else apply_nth (λ c, search c k) None cs i
      end
  end.

(** A write through the pointer that [search] returns: the source takes
    [auto v = _root->search(key)] and, when [v] is not null, assigns fields
    of the value it points to; [f] is that assignment. *)
Fixpoint alter_search (f : BTreeValue → BTreeValue) (n : BTreeNode) (k : Key) : BTreeNode :=
  match n with
  | mkNode t lf es cs =>
      let i := scan_up k es in
      let descend :=
        if lf then n else mkNode t lf es (alter (λ c, alter_search f c k) i cs) in
      match es !! i with
      | Some e =>
          if key_eq k (key e)
          then mkNode t lf (<[i := mkEntry (key e) (f (value e))]> es) cs
          else descend
      | None => descend
      end
  end.

(** The leaves from left to right: the vector [leaves] that
    [BTreeIndex::_link_leaf_neighbors] fills and links. Only the entries of a
    leaf are kept. *)
Fixpoint collect_leaves (n : BTreeNode) : list (list BTreeEntry) :=
  match n with
  | mkNode _ lf es cs => if lf then [es] else concat (collect_leaves <$> cs)
  end.

Definition leaf_count (n : BTreeNode) : nat := length (collect_leaves n).

(** [BTreeNode::find_leaf(key, &position)]. The result is [Some (li, pos)]
    when the key is found at position [pos] of the leaf reached, [li] being
    the index of that leaf in the leaf sequence; [None] stands for
    [position == -1], the only other outcome the callers distinguish. *)
Fixpoint find_leaf (n : BTreeNode) (k : Key) : option (nat * nat) :=
  match n with
  | mkNode _ lf es cs =>
      let i := scan_up k es in
      if lf then
        match es !! i with
        | Some e => if key_eq k (key e) then Some (0%nat, i) else None
        | None => None
        end
      else
        match apply_nth (λ c, find_leaf c k) None cs i with
        | Some (li, pos) => Some ((length (concat (collect_leaves <$> take i cs)) + li)%nat, pos)
        | None => None
        end
  end.

(** A write to the entries of the leaf with index [li]. *)
Fixpoint alter_leaf_children (g : nat → BTreeNode → BTreeNode)
    (cs : list BTreeNode) (li : nat) : list BTreeNode :=
  match cs with
  | [] => []
  | c :: r =>
      if (li <? leaf_count c)%nat then g li c :: r
      else c :: alter_leaf_children g r (li - leaf_count c)
  end.

Fixpoint alter_leaf (f : list BTreeEntry → list BTreeEntry) (li : nat) (n : BTreeNode) : BTreeNode :=
  match n with
  | mkNode t lf es cs =>
      if lf then match li with O => mkNode t lf (f es) cs | S _ => n end
      else mkNode t lf es (alter_leaf_children (λ l c, alter_leaf f l c) cs li)
  end.

(** [is_smallest_in_leaf] and [is_largest_in_leaf], on the entries of a leaf. *)
Definition is_smallest_in_leaf (es : list BTreeEntry) (k : Key) : bool :=
  match head es with Some e => key_eq (key e) k | None => false end.

Definition is_largest_in_leaf (es : list BTreeEntry) (k : Key) : bool :=
  match last es with Some e => key_eq (key e) k | None => false end.

(** ** b_tree_index.cpp *)

Record BTreeIndex := mkIndex {
  _root : BTreeNode;
  global_violation_count : Z;
  _chunk_offsets : list nat;
  _null_positions : list nat
}.

Definition with_root (r : BTreeNode) (idx : BTreeIndex) : BTreeIndex :=
  mkIndex r (global_violation_count idx) (_chunk_offsets idx) (_null_positions idx).

(** [BTreeIndex::_insert]. *)
Definition _insert (root : BTreeNode) (k : Key) (v : BTreeValue) : BTreeNode :=
  if bool_decide (length (entries root) = (2 * node_t root - 1)%nat) then
    let s := split_child (mkNode (node_t root) false [] [root]) 0 in
    let i :=
      match entries s !! 0%nat with
      | Some e => if key_lt (key e) k then 1%nat else 0%nat
      | None => 0%nat
      end in
    mkNode (node_t s) (leaf s) (entries s)
           (alter (λ c, insert_non_full (height root) c k v) i (children s))
  else insert_non_full (height root) root k v.

(** The first position [i] with [entries[i].key == key]. *)
Fixpoint key_index (k : Key) (es : list BTreeEntry) : option nat :=
  match es with
  | [] => None
  | e :: r => if key_eq (key e) k then Some 0%nat else S <$> key_index k r
  end.

(** The lambda [remove_from_node] of [BTreeIndex::_remove_entry]; its
    boolean result is dropped by the caller and is not modelled. *)
Fixpoint remove_from_node (n : BTreeNode) (k : Key) : BTreeNode :=
  match n with
  | mkNode t lf es cs =>
      match key_index k es with
      | Some i => mkNode t lf (delete i es) cs
      | None =>
          if lf then n
          else mkNode t lf es (alter (λ c, remove_from_node c k) (scan_up k es) cs)
      end
  end.

Definition _remove_entry (root : BTreeNode) (k : Key) : BTreeNode :=
  remove_from_node root k.

(** [BTreeIndex::_link_leaf_neighbors]: the leaf sequence in which
    [leaves[i]] is linked to [leaves[i - 1]] and [leaves[i + 1]]. *)
Definition _link_leaf_neighbors (root : BTreeNode) : list (list BTreeEntry) :=
  collect_leaves root.

(** A fresh value as [insert_key] and [insert_entry_for_validation] build
    it, with the given [count]. *)
Definition new_value (c : Z) : BTreeValue := mkValue 0 c ∅ None None 0 0 0.

(** *** The bulk loader (constructor) *)

Definition Segment := list (option AllTypeVariant).

Definition segment_at (seg : Segment) (offset : nat) : option AllTypeVariant :=
  match seg !! offset with Some v => v | None => None end.

(** The comparator passed to [std::sort]: NULLs last, otherwise the first
    segment on which the two rows differ decides. *)
Fixpoint offset_lt (segments : list Segment) (a b : nat) : bool :=
  match segments with
  | [] => false
  | seg :: rest =>
      match segment_at seg a, segment_at seg b with
      | None, None => offset_lt rest a b
      | None, Some _ => false
      | Some _, None => true
      | Some va, Some vb =>
          if va <? vb then true else if vb <? va then false else offset_lt rest a b
      end
  end.

(** The key of a row, or [None] when one of its columns is NULL. *)
Fixpoint row_key (segments : list Segment) (offset : nat) : option Key :=
  match segments with
  | [] => Some []
  | seg :: rest =>
      match segment_at seg offset with
      | None => None
      | Some v => match row_key rest offset with Some k => Some (v :: k) | None => None end
      end
  end.

Record LoaderState := mkLoader {
  ld_root : BTreeNode;
  ld_chunk_offsets : list nat;
  ld_null_positions : list nat;
  ld_current : option (Key * Z * Z)   (* current_key, start_index, count; None while [first] *)
}.

Definition loader_step (segments : list Segment) (st : LoaderState) (offset : nat) : LoaderState :=
  match row_key segments offset with
  | None =>
      mkLoader (ld_root st) (ld_chunk_offsets st) (ld_null_positions st ++ [offset]) (ld_current st)
  | Some k =>
      let here := Z.of_nat (length (ld_chunk_offsets st)) in
      match ld_current st with
      | None =>
          mkLoader (ld_root st) (ld_chunk_offsets st ++ [offset]) (ld_null_positions st)
                   (Some (k, here, 1))
      | Some (cur, start, cnt) =>
          if key_eq k cur then
            mkLoader (ld_root st) (ld_chunk_offsets st ++ [offset]) (ld_null_positions st)
                     (Some (cur, start, cnt + 1))
          else
            mkLoader (_insert (ld_root st) cur (set_count cnt (mkValue start 0 ∅ None None 0 0 0)))
                     (ld_chunk_offsets st ++ [offset]) (ld_null_positions st)
                     (Some (k, here, 1))
      end
  end.

(** The order [std::sort] produces for the comparator above. *)
Definition offset_le (segments : list Segment) (a b : nat) : Prop :=
  offset_lt segments b a = false.

#[global] Instance offset_le_dec segments a b : Decision (offset_le segments a b).
Proof. unfold offset_le. apply _. Defined.

(** [BTreeIndex::BTreeIndex(segments_to_index)], with [t = 3]. *)
Definition BTreeIndex_new (segments : list Segment) : BTreeIndex :=
  let chunk_size := match segments with seg :: _ => length seg | [] => 0%nat end in
  let offsets := merge_sort (offset_le segments) (seq 0 chunk_size) in
  let st := foldl (loader_step segments)
                  (mkLoader (mkNode 3 true [] []) [] [] None) offsets in
  let root :=
    match ld_current st with
    | None => ld_root st
    | Some (cur, start, cnt) =>
        _insert (ld_root st) cur (set_count cnt (mkValue start 0 ∅ None None 0 0 0))
    end in
  mkIndex root 0 (ld_chunk_offsets st) (ld_null_positions st).

(** *** Key operations *)

Definition insert_key (idx : BTreeIndex) (k : Key) : bool * BTreeIndex :=
  match search (_root idx) k with
  | Some _ =>
      (false, with_root (alter_search (λ v, set_count (ChunkOffset_incr (count v)) v) (_root idx) k) idx)
  | None => (true, with_root (_insert (_root idx) k (new_value 1)) idx)
  end.

Definition remove_key (idx : BTreeIndex) (k : Key) : bool * BTreeIndex :=
  match search (_root idx) k with
  | None => (false, idx)
  | Some existing_value =>
      if 1 <? count existing_value then
        (false, with_root (alter_search (λ v, set_count (count v - 1) v) (_root idx) k) idx)
      else (true, with_root (_remove_entry (_root idx) k) idx)
  end.

Definition contains_key (idx : BTreeIndex) (k : Key) : bool :=
  bool_decide (is_Some (search (_root idx) k)).

(** All entries of the tree, in key order for a well-formed tree: the
    children of an internal node interleaved with its entries. *)
Fixpoint interleave (cs : list (list BTreeEntry)) (es : list BTreeEntry) : list BTreeEntry :=
  match cs with
  | [] => es
  | c :: cs' =>
      c ++ match es with
           | [] => concat cs'
           | e :: es' => e :: interleave cs' es'
           end
  end.

Fixpoint tree_entries (n : BTreeNode) : list BTreeEntry :=
  match n with
  | mkNode _ lf es cs => if lf then es else interleave (tree_entries <$> cs) es
  end.

(** [BTreeIndex::key_count]: the lambda [count_keys]. *)
Fixpoint count_keys (n : BTreeNode) : nat :=
  match n with
  | mkNode _ lf es cs =>
      (length es + if lf then 0 else foldr (λ c acc, count_keys c + acc) 0 cs)%nat
  end.

Definition key_count (idx : BTreeIndex) : nat := count_keys (_root idx).

Definition get_value (idx : BTreeIndex) (k : Key) : option BTreeValue :=
  search (_root idx) k.

(** *** Low-level flag operations *)

Definition set_right_neighbor_flag (idx : BTreeIndex) (k : Key) (flag : Z) : BTreeIndex :=
  match search (_root idx) k with
  | Some v =>
      mkIndex (alter_search (set_flag flag) (_root idx) k)
              (global_violation_count idx - right_neighbor_flag_contribution v + flag)
              (_chunk_offsets idx) (_null_positions idx)
  | None => idx
  end.

Definition get_right_neighbor_flag (idx : BTreeIndex) (k : Key) : Z :=
  match search (_root idx) k with
  | Some v => right_neighbor_flag v
  | None => 0
  end.

Definition recompute_local_violation_delta (idx : BTreeIndex) (k : Key)
    (dep_type : DependencyType) : BTreeIndex :=
  match search (_root idx) k with
  | Some v =>
      let current_local := local_violation_count v dep_type in
      mkIndex (alter_search (λ v, set_local (local_violation_count v dep_type) v) (_root idx) k)
              (global_violation_count idx - local_violation_count_contribution v + current_local)
              (_chunk_offsets idx) (_null_positions idx)
  | None => idx
  end.

(** *** The validator *)

(** [compute_od_boundary_flag]: [max_rhs] of the current value against
    [min_rhs] of its right neighbour. *)
Definition compute_od_boundary_flag (current_value right_value : BTreeValue) : Z :=
  match max_rhs current_value, min_rhs right_value with
  | Some mx, Some mn => if mn <? mx then 1 else 0
  | _, _ => 0
  end.

(** [leaf->entries[position]] for the leaf with index [li]. *)
Definition entry_at (leaves : list (list BTreeEntry)) (li pos : nat) : option BTreeEntry :=
  match leaves !! li with
  | Some es => es !! pos
  | None => None
  end.

(** The assignment of a new value to the entry at [pos] of leaf [li]. *)
Definition set_value_at (li pos : nat) (v : BTreeValue) (root : BTreeNode) : BTreeNode :=
  alter_leaf (alter (λ e, mkEntry (key e) v) pos) li root.

(** The entry the validator reads as right neighbour of [(li, pos)]:
    [entries[position + 1]] of the same leaf, otherwise the first entry of
    the leaf behind [right_neighbor]. *)
Definition right_neighbor_entry (leaves : list (list BTreeEntry)) (li pos : nat)
    : option BTreeEntry :=
  match leaves !! li with
  | Some es =>
      if bool_decide (pos + 1 < length es)%nat then es !! (pos + 1)%nat
      else match leaves !! (li + 1)%nat with
           | Some right_leaf => head right_leaf
           | None => None
           end
  | None => None
  end.

(** The last entry of the leaf behind [left_neighbor], with its location. *)
Definition left_leaf_last (leaves : list (list BTreeEntry)) (li : nat)
    : option (nat * nat * BTreeEntry) :=
  match li with
  | O => None
  | S lj =>
      match leaves !! lj with
      | Some left_leaf =>
          match last left_leaf with
          | Some e => Some (lj, (length left_leaf - 1)%nat, e)
          | None => None
          end
      | None => None
      end
  end.

(** The entry the insert path updates as predecessor of [(li, pos)]:
    [entries[position - 1]], or for [position == 0] the last entry of the
    left neighbour leaf. *)
Definition predecessor_entry (leaves : list (list BTreeEntry)) (li pos : nat)
    : option (nat * nat * BTreeEntry) :=
  match pos with
  | S p =>
      match entry_at leaves li p with
      | Some e => Some (li, p, e)
      | None => None
      end
  | O => left_leaf_last leaves li
  end.

(** [min_rhs]/[max_rhs] after one more value, as both paths update them. *)
Definition update_min (mn : option AllTypeVariant) (rhs : AllTypeVariant) : option AllTypeVariant :=
  match mn with
  | Some m => if rhs <? m then Some rhs else Some m
  | None => Some rhs
  end.

Definition update_max (mx : option AllTypeVariant) (rhs : AllTypeVariant) : option AllTypeVariant :=
  match mx with
  | Some m => if m <? rhs then Some rhs else Some m
  | None => Some rhs
  end.

(** The loop of the delete path that recomputes the extrema from the
    remaining values. *)
Definition recompute_min (s : gset AllTypeVariant) : option AllTypeVariant :=
  foldl update_min None (elements s).

Definition recompute_max (s : gset AllTypeVariant) : option AllTypeVariant :=
  foldl update_max None (elements s).

(** The flag of [v] against the right neighbour of [(li, pos)]; 0 without
    one. *)
Definition boundary_flag_at (leaves : list (list BTreeEntry)) (li pos : nat)
    (v : BTreeValue) : Z :=
  match right_neighbor_entry leaves li pos with
  | Some r => compute_od_boundary_flag v (value r)
  | None => 0
  end.

Definition insert_entry_for_validation (idx : BTreeIndex) (left_key right_key : Key)
    (dep_type : DependencyType) : MetadataDeltas * BTreeIndex :=
  let root :=
    match search (_root idx) left_key with
    | None =>
        _insert (_root idx) left_key
                (new_value (if decide (dep_type = OD) then 1 else 0))
    | Some _ =>
        if decide (dep_type = OD)
        then alter_search (λ v, set_count (ChunkOffset_incr (count v)) v) (_root idx) left_key
        else _root idx
    end in
  let leaves := _link_leaf_neighbors root in
  match find_leaf root left_key with
  | None => (zero_deltas, with_root root idx)
  | Some (li, position) =>
      match entry_at leaves li position with
      | None => (zero_deltas, with_root root idx)
      | Some e =>
          let value0 := value e in
          let old_flag_contribution := right_neighbor_flag_contribution value0 in
          let old_local_contribution := local_violation_count_contribution value0 in
          match dep_type with
          | FD =>
              let value1 :=
                match right_key with
                | rhs :: _ => set_rhs_values ({[rhs]} ∪ rhs_values value0) value0
                | [] => value0
                end in
              let new_local := local_violation_count value1 FD in
              let value2 := set_local new_local value1 in
              let local_delta := new_local - old_local_contribution in
              let '(flag_d, value3) :=
                if decide (right_neighbor_flag_contribution value2 = 0)
                then (0, value2)
                else (- right_neighbor_flag_contribution value2, set_flag 0 value2) in
              let deltas := mkDeltas flag_d local_delta in
              (deltas,
               mkIndex (set_value_at li position value3 root)
                       (global_violation_count idx + flag_d + local_delta)
                       (_chunk_offsets idx) (_null_positions idx))
          | OD =>
              let value1 :=
                match right_key with
                | rhs :: _ =>
                    set_min_max (update_min (min_rhs value0) rhs) (update_max (max_rhs value0) rhs)
                      (set_rhs_values ({[rhs]} ∪ rhs_values value0) value0)
                | [] => value0
                end in
              let new_local := local_violation_count value1 OD in
              let value2 := set_local new_local value1 in
              let local_delta := new_local - old_local_contribution in
              let new_flag := boundary_flag_at leaves li position value2 in
              let value3 := set_flag new_flag value2 in
              let flag_d := new_flag - old_flag_contribution in
              let root1 := set_value_at li position value3 root in
              let '(flag_d1, root2) :=
                match predecessor_entry leaves li position with
                | Some (pli, ppos, pred_entry) =>
                    let old_pred_flag := right_neighbor_flag_contribution (value pred_entry) in
                    let new_pred_flag := compute_od_boundary_flag (value pred_entry) value3 in
                    (flag_d + (new_pred_flag - old_pred_flag),
                     set_value_at pli ppos (set_flag new_pred_flag (value pred_entry)) root1)
                | None => (flag_d, root1)
                end in
              let deltas := mkDeltas flag_d1 local_delta in
              (deltas,
               mkIndex root2 (global_violation_count idx + flag_d1 + local_delta)
                       (_chunk_offsets idx) (_null_positions idx))
          end
      end
  end.

Definition delete_entry_for_validation (idx : BTreeIndex) (left_key right_key : Key)
    (dep_type : DependencyType) : MetadataDeltas * BTreeIndex :=
  let root := _root idx in
  let leaves := _link_leaf_neighbors root in
  match find_leaf root left_key with
  | None => (zero_deltas, idx)
  | Some (li, position) =>
      match leaves !! li, entry_at leaves li position with
      | Some leaf_entries, Some e =>
          let value0 := value e in
          let old_flag_contribution := right_neighbor_flag_contribution value0 in
          let old_local_contribution := local_violation_count_contribution value0 in
          let is_smallest := is_smallest_in_leaf leaf_entries left_key in
          let is_largest := is_largest_in_leaf leaf_entries left_key in
          let value1 :=
            match right_key with
            | rhs :: _ => set_rhs_values (rhs_values value0 ∖ {[rhs]}) value0
            | [] => value0
            end in
          let root1 := set_value_at li position value1 root in
          match dep_type with
          | FD =>
              if decide (rhs_values value1 = ∅) then
                let deltas := mkDeltas (- old_flag_contribution) (- old_local_contribution) in
                (deltas,
                 mkIndex (_remove_entry root1 left_key)
                         (global_violation_count idx + flag_delta deltas
                          + local_violation_count_delta deltas)
                         (_chunk_offsets idx) (_null_positions idx))
              else
                let new_local := local_violation_count value1 FD in
                let deltas := mkDeltas 0 (new_local - old_local_contribution) in
                (deltas,
                 mkIndex (set_value_at li position (set_local new_local value1) root)
                         (global_violation_count idx + flag_delta deltas
                          + local_violation_count_delta deltas)
                         (_chunk_offsets idx) (_null_positions idx))
          | OD =>
              if decide (rhs_values value1 = ∅) then
                (* left neighbour leaf: its last entry now borders our successor *)
                let '(fd1, root2) :=
                  if is_smallest && bool_decide (position = 0%nat) then
                    match left_leaf_last leaves li with
                    | Some (lli, lpos, left_entry) =>
                        let old_left_flag := right_neighbor_flag_contribution (value left_entry) in
                        let new_flag :=
                          if bool_decide (1 < length leaf_entries)%nat then
                            match leaf_entries !! 1%nat with
                            | Some s => compute_od_boundary_flag (value left_entry) (value s)
                            | None => 0
                            end
                          else
                            match leaves !! (li + 1)%nat with
                            | Some right_leaf =>
                                match head right_leaf with
                                | Some s => compute_od_boundary_flag (value left_entry) (value s)
                                | None => 0
                                end
                            | None => 0
                            end in
                        (new_flag - old_left_flag,
                         set_value_at lli lpos (set_flag new_flag (value left_entry)) root1)
                    | None => (0, root1)
                    end
                  else (0, root1) in
                (* largest entry of the leaf: the predecessor now borders the right leaf *)
                let '(fd2, root3) :=
                  if is_largest && bool_decide (0 < position)%nat then
                    match leaf_entries !! (position - 1)%nat with
                    | Some prev_entry =>
                        let old_prev_flag := right_neighbor_flag_contribution (value prev_entry) in
                        let new_flag :=
                          match leaves !! (li + 1)%nat with
                          | Some right_leaf =>
                              match head right_leaf with
                              | Some s => compute_od_boundary_flag (value prev_entry) (value s)
                              | None => 0
                              end
                          | None => 0
                          end in
                        (fd1 + (new_flag - old_prev_flag),
                         set_value_at li (position - 1) (set_flag new_flag (value prev_entry)) root2)
                    | None => (fd1, root2)
                    end
                  else (fd1, root2) in
                let deltas := mkDeltas (fd2 - old_flag_contribution) (- old_local_contribution) in
                (deltas,
                 mkIndex (_remove_entry root3 left_key)
                         (global_violation_count idx + flag_delta deltas
                          + local_violation_count_delta deltas)
                         (_chunk_offsets idx) (_null_positions idx))
              else
                let value2 :=
                  set_min_max (recompute_min (rhs_values value1))
                              (recompute_max (rhs_values value1)) value1 in
                let new_flag := boundary_flag_at leaves li position value2 in
                let value3 := set_flag new_flag value2 in
                let new_local := local_violation_count value3 OD in
                let value4 := set_local new_local value3 in
                let deltas :=
                  mkDeltas (new_flag - old_flag_contribution) (new_local - old_local_contribution) in
                (deltas,
                 mkIndex (set_value_at li position value4 root)
                         (global_violation_count idx + flag_delta deltas
                          + local_violation_count_delta deltas)
                         (_chunk_offsets idx) (_null_positions idx))
          end
      | _, _ => (zero_deltas, idx)
      end
  end.

Definition update_entry_for_validation (idx : BTreeIndex)
    (left_key old_right_key new_right_key : Key) (dep_type : DependencyType)
    : MetadataDeltas * BTreeIndex :=
  let '(delete_deltas, idx1) := delete_entry_for_validation idx left_key old_right_key dep_type in
  let '(insert_deltas, idx2) := insert_entry_for_validation idx1 left_key new_right_key dep_type in
  (mkDeltas (flag_delta delete_deltas + flag_delta insert_deltas)
            (local_violation_count_delta delete_deltas
             + local_violation_count_delta insert_deltas),
   idx2).

(** ** Running a sequence of public mutations *)

Inductive Mutation :=
| InsertEntry (left_key right_key : Key) (dep_type : DependencyType)
| DeleteEntry (left_key right_key : Key) (dep_type : DependencyType)
| UpdateEntry (left_key old_right_key new_right_key : Key) (dep_type : DependencyType)
| SetRightNeighborFlag (k : Key) (flag : Z)
| RecomputeLocalViolationDelta (k : Key) (dep_type : DependencyType)
| InsertKey (k : Key)
| RemoveKey (k : Key).

Definition apply_mutation (idx : BTreeIndex) (m : Mutation) : BTreeIndex :=
  match m with
  | InsertEntry l r d => (insert_entry_for_validation idx l r d).2
  | DeleteEntry l r d => (delete_entry_for_validation idx l r d).2
  | UpdateEntry l o n d => (update_entry_for_validation idx l o n d).2
  | SetRightNeighborFlag k f => set_right_neighbor_flag idx k f
  | RecomputeLocalViolationDelta k d => recompute_local_violation_delta idx k d
  | InsertKey k => (insert_key idx k).2
  | RemoveKey k => (remove_key idx k).2
  end.

Definition run (idx : BTreeIndex) (ms : list Mutation) : BTreeIndex :=
  foldl apply_mutation idx ms.

(** The index over an empty segment: no key, no tracked pair. *)
Definition empty_index : BTreeIndex := BTreeIndex_new [[]].

(** ** Predicates of the specification *)

(** A property of every record stored in a tree, in leaves and in internal
    nodes alike. *)
Definition all_entries (P : BTreeEntry → Prop) (n : BTreeNode) : Prop :=
  Forall P (tree_entries n).

(** I1/P4, the local law of one record. *)
Definition local_law (v : BTreeValue) : Prop :=
  local_violation_count_contribution v = Z.max 0 (Z.of_nat (size (rhs_values v)) - 1).

Definition law_entry (e : BTreeEntry) : Prop := local_law (value e).

Definition local_law_holds (idx : BTreeIndex) : Prop :=
  Forall (λ e, local_law (value e)) (tree_entries (_root idx)).

(** I4/P1: what the records of a tree contribute to the counter, and the
    counter agreeing with it. *)
Definition contribution (e : BTreeEntry) : Z :=
  right_neighbor_flag_contribution (value e) + local_violation_count_contribution (value e).

Definition contribution_sum (n : BTreeNode) : Z :=
  foldr (λ e acc, contribution e + acc) 0 (tree_entries n).

Definition counter_consistent (idx : BTreeIndex) : Prop :=
  global_violation_count idx = contribution_sum (_root idx).

(** The keys a walk over the leaves visits, from the leftmost leaf along the
    [right_neighbor] links. *)
Definition leaf_walk_keys (idx : BTreeIndex) : list Key :=
  key <$> concat (_link_leaf_neighbors (_root idx)).

(** All keys of the index, those counted by [key_count]. *)
Definition all_keys (idx : BTreeIndex) : list Key :=
  key <$> tree_entries (_root idx).

(** The structure every tree of the index has: a minimum degree of at least
    one and, in an internal node, more children than entries (a node is
    built with one child more than entries, and [_remove_entry] only ever
    erases entries). *)
Fixpoint shape_okb (n : BTreeNode) : bool :=
  match n with
  | mkNode t lf es cs =>
      (1 <=? t)%nat && (lf || ((length es <? length cs)%nat && forallb shape_okb cs))
  end.

Definition shape_ok (n : BTreeNode) : Prop := shape_okb n = true.

(** The B-tree proper: every internal node has exactly one child more than
    entries, and the records are in strictly ascending key order. Every
    tree built by the bulk loader and the inserts has this form; erasing an
    entry of a leaf keeps it, erasing an entry of an internal node (which
    [remove_key] can do) does not. *)
Fixpoint btree_okb (n : BTreeNode) : bool :=
  match n with
  | mkNode t lf es cs =>
      (1 <=? t)%nat && (lf || ((length cs =? S (length es))%nat && forallb btree_okb cs))
  end.

Fixpoint keys_ascending (l : list Key) : bool :=
  match l with
  | a :: r => match r with b :: _ => key_lt a b | [] => true end && keys_ascending r
  | [] => true
  end.

Definition well_formedb (n : BTreeNode) : bool :=
  btree_okb n && keys_ascending (key <$> tree_entries n).

Definition well_formed (idx : BTreeIndex) : Prop := well_formedb (_root idx) = true.

Definition entry_lt (e1 e2 : BTreeEntry) : Prop := key_lt (key e1) (key e2) = true.

(** The keys of a tree with its shape: every value replaced by a fresh one.
    Two trees with the same [key_shape] differ in the payload of their
    records only. *)
Definition strip_value (e : BTreeEntry) : BTreeEntry := mkEntry (key e) (new_value 0).

Fixpoint key_shape (n : BTreeNode) : BTreeNode :=
  match n with
  | mkNode t lf es cs => mkNode t lf (strip_value <$> es) (key_shape <$> cs)
  end.





(** A [remove_key] call that erases a record of an internal node leaves a
    node with as many children as before and one entry less; every other
    mutation keeps the B-tree. [leaf_removals idx ms] says that no call of
    the run [ms] from [idx] does that: each [remove_key] either finds no
    record, or only decrements [count], or erases a record of a leaf. *)
Definition erases_internal_entry (idx : BTreeIndex) (m : Mutation) : Prop :=
  match m with
  | RemoveKey k =>
      match search (_root idx) k with
      | Some v => count v ≤ 1 ∧ find_leaf (_root idx) k = None
      | None => False
      end
  | _ => False
  end.

Fixpoint leaf_removals (idx : BTreeIndex) (ms : list Mutation) : Prop :=
  match ms with
  | [] => True
  | m :: r => ¬ erases_internal_entry idx m ∧ leaf_removals (apply_mutation idx m) r
  end.

(** ** Auxiliary definitions of the proofs *)

(** [interleave] cut in front of child [i]. *)
Fixpoint interleave_before (cs : list (list BTreeEntry)) (es : list BTreeEntry) (i : nat)
    {struct i} : list BTreeEntry :=
  match i with
  | O => []
  | S j =>
      match cs, es with
      | c :: cs', e :: es' => c ++ e :: interleave_before cs' es' j
      | _, _ => []
      end
  end.

(** [interleave] behind child [i]. *)
Definition interleave_after (cs : list (list BTreeEntry)) (es : list BTreeEntry) (i : nat)
    : list BTreeEntry :=
  match drop i es with
  | [] => concat (drop (S i) cs)
  | e :: es' => e :: interleave (drop (S i) cs) es'
  end.

(** Bounds of a record against a key. *)
Definition le_key (k : Key) (e : BTreeEntry) : Prop := key_lt k (key e) = false.
Definition ge_key (k : Key) (e : BTreeEntry) : Prop := key_lt (key e) k = false.

Definition lt_key (k : Key) (e : BTreeEntry) : Prop := key_lt (key e) k = true.
Definition gt_key (k : Key) (e : BTreeEntry) : Prop := key_lt k (key e) = true.

Definition strip_list (l : list BTreeEntry) : list BTreeEntry := strip_value <$> l.


(** ** Concrete indexes and runs used by the scenarios *)

Definition broken_boundary_ops : list Mutation :=
  [InsertEntry [1] [30] OD; InsertEntry [2] [20] OD; InsertEntry [3] [10] OD].

(** The index of the test [ODValidationViolationDetection]: LHS keys 1, 2, 3
    bulk-loaded, no pair tracked. *)
Definition index_123 : BTreeIndex := BTreeIndex_new [[Some 1; Some 2; Some 3]].

Definition entry_flags (idx : BTreeIndex) : list (Key * Z * Z) :=
  (λ e, (key e, right_neighbor_flag_contribution (value e),
         local_violation_count_contribution (value e))) <$> tree_entries (_root idx).

Definition entry_extrema (idx : BTreeIndex)
    : list (Key * option AllTypeVariant * option AllTypeVariant * Z) :=
  (λ e, (key e, min_rhs (value e), max_rhs (value e),
         right_neighbor_flag_contribution (value e))) <$> tree_entries (_root idx).

(** LHS 1 with the two RHS values 10 and 11, tracked as FD. *)
Definition fd_violated_index : BTreeIndex :=
  run empty_index [InsertEntry [1] [10] FD; InsertEntry [1] [11] FD].

(** OD inserts (1,30), (2,40), (3,10), then the OD delete of (2,40). *)
Definition od_middle_deleted_index : BTreeIndex :=
  run empty_index
    [InsertEntry [1] [30] OD; InsertEntry [2] [40] OD; InsertEntry [3] [10] OD;
     DeleteEntry [2] [40] OD].



(** LHS 1 with RHS 10, tracked as FD, and its boundary flag set by hand. *)
Definition fd_flagged_index : BTreeIndex :=
  run empty_index [InsertEntry [1] [10] FD; SetRightNeighborFlag [1] 1].


(** Six keys: the sixth insert splits the root. *)
Definition six_keys_ops : list Mutation :=
  [InsertKey [1]; InsertKey [2]; InsertKey [3]; InsertKey [4]; InsertKey [5]; InsertKey [6]].

Definition six_keys_index : BTreeIndex := run empty_index six_keys_ops.


(** * The query side of the index *)

(** ** b_tree_nodes.cpp: range lookups and extreme keys *)

(** [BTreeNode::lower_bound]: the value of the first entry whose key is not
    below [k]. *)
Fixpoint lower_bound (n : BTreeNode) (k : Key) : option BTreeValue :=
  match n with
  | mkNode _ lf es cs =>
      let i := scan_up k es in
      match es !! i with
      | Some e =>
          if key_eq k (key e) then Some (value e)
          else if lf then Some (value e)
          else
            match apply_nth (λ c, lower_bound c k) None cs i with
            | Some r => Some r
            | None => Some (value e)
            end
      | None => if lf then None else apply_nth (λ c, lower_bound c k) None cs i
      end
  end.

(** [i = 0; while (i < entries.size() && key >= entries[i].key) i++;] *)
Fixpoint scan_past (k : Key) (es : list BTreeEntry) : nat :=
  match es with
  | [] => 0%nat
  | e :: r => if key_lt k (key e) then 0%nat else S (scan_past k r)
  end.

(** [BTreeNode::upper_bound]: the value of the first entry whose key is
    above [k]. *)
Fixpoint upper_bound (n : BTreeNode) (k : Key) : option BTreeValue :=
  match n with
  | mkNode _ lf es cs =>
      let i := scan_past k es in
      if lf then value <$> es !! i
      else
        match apply_nth (λ c, upper_bound c k) None cs i with
        | Some r => Some r
        | None => value <$> es !! i
        end
  end.

(** [BTreeNode::get_min_key] and [get_max_key]; the empty key stands for a
    leaf without entries. [children.front()] and [children.back()] of a node
    without children are not defined by the source; no tree of the index has
    such an internal node, and the model answers with the empty key. *)
Fixpoint get_min_key (n : BTreeNode) : Key :=
  match n with
  | mkNode _ lf es cs =>
      if lf then match head es with Some e => key e | None => [] end
      else match cs with c :: _ => get_min_key c | [] => [] end
  end.

Fixpoint get_max_key (n : BTreeNode) : Key :=
  match n with
  | mkNode _ lf es cs =>
      if lf then match last es with Some e => key e | None => [] end
      else apply_nth get_max_key [] cs (length cs - 1)
  end.

(** [BTreeNode::get_leftmost_leaf] and [get_rightmost_leaf], as the index of
    the leaf in the sequence of the leaves. *)
Fixpoint get_leftmost_leaf (n : BTreeNode) : nat :=
  match n with
  | mkNode _ lf es cs =>
      if lf then 0%nat else match cs with c :: _ => get_leftmost_leaf c | [] => 0%nat end
  end.

Fixpoint get_rightmost_leaf (n : BTreeNode) : nat :=
  match n with
  | mkNode _ lf es cs =>
      if lf then 0%nat
      else (length (concat (collect_leaves <$> take (length cs - 1) cs))
            + apply_nth get_rightmost_leaf 0 cs (length cs - 1))%nat
  end.

(** The leaf that [BTreeNode::find_leaf] returns, found or not, as an index
    into the leaf sequence; [find_leaf] of the first part gives the position
    when the key is found. *)
Fixpoint reached_leaf (n : BTreeNode) (k : Key) : nat :=
  match n with
  | mkNode _ lf es cs =>
      if lf then 0%nat
      else (length (concat (collect_leaves <$> take (scan_up k es) cs))
            + apply_nth (λ c, reached_leaf c k) 0 cs (scan_up k es))%nat
  end.

(** ** b_tree_index.cpp: iterators and neighbour keys *)

(** An iterator into [_chunk_offsets] is its distance from [cbegin()]. *)
Definition _cbegin (idx : BTreeIndex) : Z := 0.

Definition _cend (idx : BTreeIndex) : Z := Z.of_nat (length (_chunk_offsets idx)).

Definition _lower_bound (idx : BTreeIndex) (values : Key) : Z :=
  match lower_bound (_root idx) values with
  | None => _cend idx
  | Some result => _cbegin idx + start_index result
  end.

Definition _upper_bound (idx : BTreeIndex) (values : Key) : Z :=
  match upper_bound (_root idx) values with
  | None => _cend idx
  | Some result => _cbegin idx + start_index result
  end.

(** [BTreeIndex::get_left_neighbor_max_key]. The position is [-1] when the
    key is not in the leaf reached. *)
Definition get_left_neighbor_max_key (idx : BTreeIndex) (k : Key) : Key :=
  let leaves := _link_leaf_neighbors (_root idx) in
  let li := reached_leaf (_root idx) k in
  let from_left_leaf :=
    match li with
    | O => []
    | S lj =>
        match leaves !! lj with
        | Some left_entries =>
            match last left_entries with Some e => key e | None => [] end
        | None => []
        end
    end in
  match find_leaf (_root idx) k with
  | None => from_left_leaf
  | Some (_, O) => from_left_leaf
  | Some (_, S p) =>
      match leaves !! li with
      | Some es => match es !! p with Some e => key e | None => [] end
      | None => []
      end
  end.

(** ** Specifications of the lookups *)

(** The records of a sequence whose key is not below, or is above, [k]. *)
Definition not_below (k : Key) (l : list BTreeEntry) : list BTreeEntry :=
  filter (λ e, key_lt (key e) k = false) l.

Definition above (k : Key) (l : list BTreeEntry) : list BTreeEntry :=
  filter (λ e, key_lt k (key e) = true) l.


(** * The bulk-loaded index *)

(** [auto chunk_size = _indexed_segments[0]->size();] *)
Definition chunk_size (segments : list Segment) : nat :=
  match segments with seg :: _ => length seg | [] => 0%nat end.

(** The value the constructor builds for a run of [cnt] rows that starts at
    position [start] of [_chunk_offsets]. *)
Definition run_value (start cnt : Z) : BTreeValue :=
  mkValue start cnt ∅ None None 0 0 0.

(** The records [es] describe the key sequence [ks] run by run, from
    position [s] on: each record stands for a non-empty run of equal keys,
    [start_index] being where the run begins and [count] its length, and
    the runs follow each other without a gap. *)
Fixpoint run_records (s : Z) (es : list BTreeEntry) (ks : list Key) : Prop :=
  match es with
  | [] => ks = []
  | e :: es' =>
      value e = run_value s (count (value e))
      ∧ 1 <= count (value e)
      ∧ ∃ ks', ks = replicate (Z.to_nat (count (value e))) (key e) ++ ks'
               ∧ run_records (s + count (value e)) es' ks'
  end.

(** The keys of the rows at the given offsets, rows with a NULL left out. *)
Definition row_keys (segments : list Segment) (offsets : list nat) : list Key :=
  omap (row_key segments) offsets.

(** The order of keys, not strict. *)
Definition key_le (a b : Key) : Prop := key_lt b a = false.

(** The state of the loop of the constructor after some rows: the tree
    holds the records of the finished runs, next to it is the run that the
    loop is in. *)
Definition loader_ok (segments : list Segment) (st : LoaderState) : Prop :=
  well_formedb (ld_root st) = true
  ∧ Forall (λ o, is_Some (row_key segments o)) (ld_chunk_offsets st)
  ∧ match ld_current st with
    | None => tree_entries (ld_root st) = [] ∧ ld_chunk_offsets st = []
    | Some (cur, start, cnt) =>
        let all := tree_entries (ld_root st) ++ [mkEntry cur (run_value start cnt)] in
        run_records 0 all (row_keys segments (ld_chunk_offsets st))
        ∧ StronglySorted entry_lt all
    end.

(** The position that a range lookup reports for the first record of a
    filtered record sequence, [stop] when there is none. *)
Definition first_start (l : list BTreeEntry) (stop : Z) : Z :=
  match head l with Some e => start_index (value e) | None => stop end.

(** * The B-tree proper *)

(** A tree of minimum degree [t0] whose leaves are all [h] edges below the
    root: every node is built with [t0] and holds at most [2 * t0 - 1]
    entries, and an internal node has more children than entries. *)
Fixpoint bounded_balanced (t0 h : nat) (n : BTreeNode) {struct n} : bool :=
  match n with
  | mkNode t lf es cs =>
      (t =? t0)%nat && (length es <=? 2 * t0 - 1)%nat
      && (if lf then (h =? 0)%nat
          else match h with
               | O => false
               | S h' => (length es <? length cs)%nat && forallb (bounded_balanced t0 h') cs
               end)
  end.


(** * The node with hints *)

(** The second version of b_tree_nodes.cpp searches a node by binary search
    over a range that a hint array may narrow.  The size of the array,
    [BTREE_HINT_COUNT], and [BTreeEntry::compute_head] are declared outside
    the files at hand; the functions below take both as arguments, and the
    hint array of a node as a list read with 0 beyond its end. *)

Definition hint_at (hints : list Z) (pos : nat) : Z := default 0 (hints !! pos).

(** [for (; pos < BTREE_HINT_COUNT; ++pos) if (hints[pos] >= key_head) break;]
    with [n] hints left to look at. *)
Fixpoint first_hint_not_below (hints : list Z) (key_head : Z) (pos n : nat) : nat :=
  match n with
  | O => pos
  | S n' =>
      if key_head <=? hint_at hints pos then pos
      else first_hint_not_below hints key_head (S pos) n'
  end.

(** [for (; pos2 < BTREE_HINT_COUNT; ++pos2) if (hints[pos2] != key_head) break;] *)
Fixpoint first_hint_differing (hints : list Z) (key_head : Z) (pos2 n : nat) : nat :=
  match n with
  | O => pos2
  | S n' =>
      if hint_at hints pos2 =? key_head
      then first_hint_differing hints key_head (S pos2) n'
      else pos2
  end.

(** [BTreeNode::search_hint(key_head, lower_out, upper_out)]: the pair of
    the two out-parameters after the call. *)
Definition search_hint (BTREE_HINT_COUNT : nat) (hints : list Z) (es : list BTreeEntry)
    (key_head : Z) (lower_out upper_out : nat) : nat * nat :=
  if ((BTREE_HINT_COUNT =? 0) || (length es <=? BTREE_HINT_COUNT * 2))%nat
  then (lower_out, upper_out)
  else
    let dist := (upper_out / (BTREE_HINT_COUNT + 1))%nat in
    if (dist =? 0)%nat then (lower_out, upper_out)
    else
      let pos := first_hint_not_below hints key_head 0 BTREE_HINT_COUNT in
      let pos2 := first_hint_differing hints key_head pos (BTREE_HINT_COUNT - pos) in
      ((pos * dist)%nat,
       if (pos2 <? BTREE_HINT_COUNT)%nat then ((pos2 + 1) * dist)%nat else upper_out).

(** The loop [while (lower < upper)] of [lower_bound_optimized]; every turn
    shrinks [upper - lower], which bounds the number of turns. *)
Fixpoint binary_search (turns : nat) (es : list BTreeEntry) (k : Key) (lower upper : nat)
    : nat * bool :=
  match turns with
  | O => (lower, false)
  | S turns' =>
      if (lower <? upper)%nat then
        let mid := (lower + (upper - lower) / 2)%nat in
        match es !! mid with
        | Some e =>
            if key_lt k (key e) then binary_search turns' es k lower mid
            else if key_lt (key e) k then binary_search turns' es k (mid + 1) upper
            else (mid, true)
        | None => (lower, false)
        end
      else (lower, false)
  end.

(** [BTreeNode::lower_bound_optimized(key, found_out)]: the position
    returned and [found_out]. *)
Definition lower_bound_optimized (BTREE_HINT_COUNT : nat) (compute_head : Key → Z)
    (hints : list Z) (es : list BTreeEntry) (k : Key) : nat * bool :=
  match es with
  | [] => (0%nat, false)
  | _ :: _ =>
      let '(lower, upper) :=
        search_hint BTREE_HINT_COUNT hints es (compute_head k) 0 (length es) in
      binary_search (upper - lower) es k lower upper
  end.

(** [BTreeNode::search] of that version; [hints_of] gives the hint array
    that a node carries. *)
Fixpoint search_optimized (BTREE_HINT_COUNT : nat) (compute_head : Key → Z)
    (hints_of : BTreeNode → list Z) (n : BTreeNode) (k : Key) : option BTreeValue :=
  match n with
  | mkNode _ lf es cs =>
      let '(pos, found) :=
        lower_bound_optimized BTREE_HINT_COUNT compute_head (hints_of n) es k in
      if found && (pos <? length es)%nat then value <$> es !! pos
      else if lf then None
      else if (pos <? length cs)%nat
           then apply_nth (λ c, search_optimized BTREE_HINT_COUNT compute_head hints_of c k)
                          None cs pos
           else None
  end.


(** * Further indexes of the examples *)



(** The index over a column with the values 1 to 6: the sixth insert of the
    bulk loader splits the root, and the record of 3 is in the new root. *)
Definition one_to_six_index : BTreeIndex :=
  BTreeIndex_new [[Some 1; Some 2; Some 3; Some 4; Some 5; Some 6]].



(** * Structural lemmas *)

(** Induction on a node with the hypothesis for all its children. *)
Lemma BTreeNode_children_ind (P : BTreeNode → Prop) :
  (∀ t lf es cs, Forall P cs → P (mkNode t lf es cs)) → ∀ n, P n.
Proof.
  intros H. fix IH 1. intros [t lf es cs]. apply H.
  induction cs as [|c cs IHcs]; constructor; [apply IH | exact IHcs].
Qed.

Lemma apply_nth_lookup {A B} (f : A → B) (d : B) (l : list A) (i : nat) :
  apply_nth f d l i = match l !! i with Some x => f x | None => d end.
Proof.
  revert i. induction l as [|x l IH]; intros [|i]; simpl; auto.
Qed.

Lemma Forall_interleave (P : BTreeEntry → Prop) cs es :
  Forall P (interleave cs es) ↔ Forall (Forall P) cs ∧ Forall P es.
Proof.
  revert es. induction cs as [|c cs IH]; intros es; simpl.
  - split; [intros H; split; [constructor | exact H] | intros [_ H]; exact H].
  - rewrite Forall_app. destruct es as [|e es].
    + rewrite Forall_cons, Forall_concat. split.
      * intros (Hc & Hcs). repeat split; auto.
      * intros ((Hc & Hcs) & _). split; auto.
    + rewrite !Forall_cons, IH. tauto.
Qed.

Lemma Forall_tree_entries (P : BTreeEntry → Prop) t lf es cs :
  Forall P (tree_entries (mkNode t lf es cs)) ↔
  Forall P es ∧ (lf = false → Forall (λ c, Forall P (tree_entries c)) cs).
Proof.
  simpl. destruct lf.
  - split; [intros H; split; [exact H | discriminate] | tauto].
  - rewrite Forall_interleave, Forall_fmap. unfold compose. split.
    + intros (H1 & H2). split; auto.
    + intros (H1 & H2). split; auto.
Qed.

(** Unfolding equations of [insert_non_full]. *)
Lemma insert_non_full_leaf fuel t es cs k v :
  insert_non_full fuel (mkNode t true es cs) k v =
  mkNode t true (take (scan_down k es (length es)) es
                 ++ mkEntry k v :: drop (scan_down k es (length es)) es) cs.
Proof. destruct fuel; reflexivity. Qed.

Lemma insert_non_full_internal fuel t es cs k v :
  insert_non_full (S fuel) (mkNode t false es cs) k v =
  let i := scan_down k es (length es) in
  let full := apply_nth (λ c, bool_decide (length (entries c) = (2 * t - 1)%nat)) false cs i in
  let n1 := if full then split_child (mkNode t false es cs) i else mkNode t false es cs in
  let i1 :=
    if full then
      match entries n1 !! i with
      | Some e => if key_lt (key e) k then S i else i
      | None => i
      end
    else i in
  mkNode t false (entries n1) (alter (λ c, insert_non_full fuel c k v) i1 (children n1)).
Proof. reflexivity. Qed.

Lemma split_child_shape t es cs i :
  ∃ es1 cs1, split_child (mkNode t false es cs) i = mkNode t false es1 cs1.
Proof.
  unfold split_child. destruct (cs !! i) as [[yt yleaf yes ycs]|]; [|eauto].
  destruct (yes !! (t - 1)%nat); eauto.
Qed.


(** * Properties of all records: preservation by the tree operations *)

Section all_entries.
Variable P : BTreeEntry → Prop.

Lemma all_entries_node t lf es cs :
  all_entries P (mkNode t lf es cs) ↔
  Forall P es ∧ (lf = false → Forall (all_entries P) cs).
Proof. apply Forall_tree_entries. Qed.

Lemma all_entries_split_child t es cs i :
  all_entries P (mkNode t false es cs) → all_entries P (split_child (mkNode t false es cs) i).
Proof.
  intros H. unfold split_child.
  destruct (cs !! i) as [[yt yleaf yes ycs]|] eqn:Hy; [|exact H].
  destruct (yes !! (t - 1)%nat) as [mid|] eqn:Hmid; [|exact H].
  apply all_entries_node in H as [Hes Hcs]. specialize (Hcs eq_refl).
  assert (Hyall : all_entries P (mkNode yt yleaf yes ycs)).
  { eapply Forall_lookup_1; eauto. }
  apply all_entries_node in Hyall as [Hyes Hycs].
  apply all_entries_node. split.
  - apply Forall_app. split; [apply Forall_take; exact Hes|].
    constructor; [eapply Forall_lookup_1; eauto | apply Forall_drop; exact Hes].
  - intros _. apply Forall_app. split; [apply Forall_take; exact Hcs|].
    constructor; [|constructor; [|apply Forall_drop; exact Hcs]].
    + apply all_entries_node. split; [apply Forall_take; exact Hyes|].
      intros E. rewrite E. apply Forall_take. auto.
    + apply all_entries_node. split; [apply Forall_drop; exact Hyes|].
      intros E. rewrite E. apply Forall_drop. auto.
Qed.

Lemma Forall_alter_child (f : BTreeNode → BTreeNode) i cs :
  Forall (all_entries P) cs →
  (∀ c, cs !! i = Some c → all_entries P c → all_entries P (f c)) →
  Forall (all_entries P) (alter f i cs).
Proof.
  intros Hcs Hf. apply Forall_lookup_2. intros j c Hj.
  destruct (decide (i = j)) as [->|Hne].
  - rewrite list_lookup_alter_eq in Hj.
    destruct (cs !! j) as [c0|] eqn:Hc0; simplify_eq/=.
    apply Hf; [reflexivity|]. eapply Forall_lookup_1; eauto.
  - rewrite list_lookup_alter_ne in Hj by done. eapply Forall_lookup_1; eauto.
Qed.

Lemma all_entries_insert_leaf t es cs i e :
  all_entries P (mkNode t true es cs) → P e →
  all_entries P (mkNode t true (take i es ++ e :: drop i es) cs).
Proof.
  intros Hn He. apply all_entries_node in Hn as [Hes _]. apply all_entries_node.
  split; [|discriminate]. apply Forall_app. split; [apply Forall_take; exact Hes|].
  constructor; [exact He | apply Forall_drop; exact Hes].
Qed.

Lemma all_entries_insert_non_full fuel n k v :
  all_entries P n → P (mkEntry k v) → all_entries P (insert_non_full fuel n k v).
Proof.
  revert n. induction fuel as [|fuel IH]; intros [t lf es cs] Hn Hkv.
  - destruct lf; [|exact Hn]. rewrite insert_non_full_leaf.
    apply all_entries_insert_leaf; assumption.
  - destruct lf; [rewrite insert_non_full_leaf; apply all_entries_insert_leaf; assumption|].
    rewrite insert_non_full_internal. cbv zeta.
    set (i := scan_down k es (length es)).
    set (full := apply_nth _ false cs i).
    set (n1 := if full then split_child (mkNode t false es cs) i else mkNode t false es cs).
    assert (Hn1 : all_entries P n1).
    { unfold n1. destruct full; [apply all_entries_split_child|]; exact Hn. }
    assert (∃ es1 cs1, n1 = mkNode t false es1 cs1) as (es1 & cs1 & E1).
    { unfold n1. destruct full; [|eauto]. apply split_child_shape. }
    rewrite E1 in *. simpl entries. simpl children.
    apply all_entries_node in Hn1 as [Hes1 Hcs1]. apply all_entries_node.
    split; [exact Hes1|]. intros _. apply Forall_alter_child; [auto|].
    intros c _ Hc. apply IH; assumption.
Qed.

Lemma all_entries__insert root k v :
  all_entries P root → P (mkEntry k v) → all_entries P (_insert root k v).
Proof.
  intros Hroot Hkv. unfold _insert. case_bool_decide as Hfull.
  - set (s := split_child _ 0).
    assert (Hs : all_entries P s).
    { apply all_entries_split_child. apply all_entries_node. split; [constructor|].
      intros _. constructor; [exact Hroot | constructor]. }
    destruct (split_child_shape (node_t root) [] [root] 0%nat) as (ess & css & Es).
    fold s in Es. rewrite Es in *. simpl.
    apply all_entries_node in Hs as [Hes Hcs]. apply all_entries_node.
    split; [exact Hes|]. intros _. apply Forall_alter_child; [auto|].
    intros c _ Hc. apply all_entries_insert_non_full; assumption.
  - apply all_entries_insert_non_full; assumption.
Qed.

Lemma all_entries_remove_from_node n k :
  all_entries P n → all_entries P (remove_from_node n k).
Proof.
  induction n as [t lf es cs IH] using BTreeNode_children_ind. intros Hn. simpl.
  apply all_entries_node in Hn as [Hes Hcs].
  destruct (key_index k es) as [i|].
  - apply all_entries_node. split; [apply Forall_delete; exact Hes | exact Hcs].
  - destruct lf; [apply all_entries_node; split; [exact Hes | discriminate]|].
    apply all_entries_node. split; [exact Hes|]. intros _.
    apply Forall_alter_child; [auto|].
    intros c Hc Hall. eapply Forall_lookup_1 in IH; [|exact Hc]. auto.
Qed.

Lemma all_entries_alter_search (f : BTreeValue → BTreeValue) n k :
  (∀ e, P e → P (mkEntry (key e) (f (value e)))) →
  all_entries P n → all_entries P (alter_search f n k).
Proof.
  intros Hf. induction n as [t lf es cs IH] using BTreeNode_children_ind. intros Hn. simpl.
  pose proof Hn as Hn'. apply all_entries_node in Hn' as [Hes Hcs].
  assert (Hdesc : all_entries P
    (if lf then mkNode t lf es cs
     else mkNode t lf es (alter (λ c, alter_search f c k) (scan_up k es) cs))).
  { destruct lf; [exact Hn|]. apply all_entries_node. split; [exact Hes|]. intros _.
    apply Forall_alter_child; [auto|].
    intros c Hc Hall. eapply Forall_lookup_1 in IH; [|exact Hc]. auto. }
  destruct (es !! scan_up k es) as [e|] eqn:He; [|exact Hdesc].
  destruct (key_eq k (key e)); [|exact Hdesc].
  apply all_entries_node. split; [|exact Hcs].
  apply Forall_insert; [exact Hes|]. apply Hf.
  exact (Forall_lookup_1 _ _ _ _ Hes He).
Qed.

Lemma Forall_alter_leaf_children (g : nat → BTreeNode → BTreeNode) cs li :
  Forall (all_entries P) cs →
  Forall (λ c, ∀ l, all_entries P c → all_entries P (g l c)) cs →
  Forall (all_entries P) (alter_leaf_children g cs li).
Proof.
  revert li. induction cs as [|c cs IH]; intros li Hcs Hg; simpl; [constructor|].
  inversion Hcs; inversion Hg; subst.
  destruct (li <? leaf_count c)%nat; constructor; auto.
Qed.

Lemma all_entries_alter_leaf (f : list BTreeEntry → list BTreeEntry) li n :
  (∀ es, Forall P es → Forall P (f es)) →
  all_entries P n → all_entries P (alter_leaf f li n).
Proof.
  intros Hf. revert li.
  induction n as [t lf es cs IH] using BTreeNode_children_ind. intros li Hn. simpl.
  pose proof Hn as Hn'. apply all_entries_node in Hn' as [Hes Hcs].
  destruct lf.
  - destruct li; [|exact Hn]. apply all_entries_node. split; [auto | discriminate].
  - apply all_entries_node. split; [exact Hes|]. intros _.
    apply Forall_alter_leaf_children; [auto|].
    eapply Forall_impl; [exact IH|]. intros c Hc l Hall. apply Hc. exact Hall.
Qed.

Lemma all_entries_set_value_at li pos v root :
  (∀ e, P e → P (mkEntry (key e) v)) →
  all_entries P root → all_entries P (set_value_at li pos v root).
Proof.
  intros Hv. apply all_entries_alter_leaf. intros es Hes.
  apply Forall_lookup_2. intros j e Hj.
  destruct (decide (pos = j)) as [->|Hne].
  - rewrite list_lookup_alter_eq in Hj.
    destruct (es !! j) as [e0|] eqn:He0; simplify_eq/=.
    apply Hv. eapply Forall_lookup_1; eauto.
  - rewrite list_lookup_alter_ne in Hj by done. eapply Forall_lookup_1; eauto.
Qed.
End all_entries.


(** * The local law (I1, P4) *)

Lemma local_violation_count_max v d :
  local_violation_count v d = Z.max 0 (Z.of_nat (size (rhs_values v)) - 1).
Proof.
  unfold local_violation_count. destruct (decide (rhs_values v = ∅)) as [E|E].
  - rewrite E, size_empty. reflexivity.
  - assert (size (rhs_values v) ≠ 0%nat) by (apply size_non_empty_iff; intros E'; apply E; apply leibniz_equiv; exact E'). lia.
Qed.

Lemma all_entries_collect_leaves (P : BTreeEntry → Prop) n :
  all_entries P n → Forall (Forall P) (collect_leaves n).
Proof.
  induction n as [t lf es cs IH] using BTreeNode_children_ind. intros Hn.
  apply all_entries_node in Hn as [Hes Hcs]. simpl. destruct lf.
  - constructor; [exact Hes | constructor].
  - specialize (Hcs eq_refl). apply Forall_concat, Forall_fmap.
    clear Hes. induction cs as [|c cs IHcs]; [constructor|].
    inversion IH; inversion Hcs; subst. constructor; auto.
Qed.

Lemma entry_at_Forall (P : BTreeEntry → Prop) leaves li pos e :
  Forall (Forall P) leaves → entry_at leaves li pos = Some e → P e.
Proof.
  unfold entry_at. intros H He. destruct (leaves !! li) as [es|] eqn:Hes; [|discriminate].
  eapply Forall_lookup_1 in H; [|exact Hes]. eapply Forall_lookup_1; eauto.
Qed.

Lemma left_leaf_last_Forall (P : BTreeEntry → Prop) leaves li r :
  Forall (Forall P) leaves → left_leaf_last leaves li = Some r → P r.2.
Proof.
  unfold left_leaf_last. intros H Hr. destruct li as [|lj]; [discriminate|].
  destruct (leaves !! lj) as [es|] eqn:Hes; [|discriminate].
  destruct (last es) as [e|] eqn:He; [|discriminate]. simplify_eq/=.
  eapply Forall_lookup_1 in H; [|exact Hes].
  eapply Forall_forall in H; [exact H|]. apply last_Some_elem_of. exact He.
Qed.

Lemma predecessor_entry_Forall (P : BTreeEntry → Prop) leaves li pos r :
  Forall (Forall P) leaves → predecessor_entry leaves li pos = Some r → P r.2.
Proof.
  unfold predecessor_entry. intros H Hr. destruct pos as [|p].
  - eapply left_leaf_last_Forall; eauto.
  - destruct (entry_at leaves li p) as [e|] eqn:He; [|discriminate]. simplify_eq/=.
    eapply entry_at_Forall; eauto.
Qed.


Lemma local_law_new_value c : local_law (new_value c).
Proof. reflexivity. Qed.

Lemma local_law_set_count c v : local_law v → local_law (set_count c v).
Proof. exact id. Qed.

Lemma local_law_set_flag f v : local_law v → local_law (set_flag f v).
Proof. exact id. Qed.

Lemma local_law_set_local_count v d :
  local_law (set_local (local_violation_count v d) v).
Proof. unfold local_law. simpl. apply local_violation_count_max. Qed.

Lemma local_law_set_min_max mn mx v d :
  local_law (set_local (local_violation_count (set_min_max mn mx v) d) (set_min_max mn mx v)).
Proof. apply local_law_set_local_count. Qed.

Lemma local_law_insert_entry idx l r d :
  local_law_holds idx → local_law_holds (insert_entry_for_validation idx l r d).2.
Proof.
  unfold local_law_holds, insert_entry_for_validation. intros H.
  set (root := match search (_root idx) l with Some _ => _ | None => _ end).
  assert (Hroot : all_entries law_entry root).
  { unfold root. destruct (search (_root idx) l).
    - destruct (decide (d = OD)); [|exact H].
      apply all_entries_alter_search; [|exact H]. intros e0 He0. exact He0.
    - apply all_entries__insert; [exact H|]. apply local_law_new_value. }
  clearbody root. unfold _link_leaf_neighbors.
  pose proof (all_entries_collect_leaves _ _ Hroot) as Hleaves.
  destruct (find_leaf root l) as [[li pos]|]; [|exact Hroot].
  destruct (entry_at (collect_leaves root) li pos) as [e|] eqn:He; [|exact Hroot].
  destruct d.
  - destruct (decide _); simpl; apply all_entries_set_value_at; try exact Hroot;
      intros e' _; simpl; apply local_law_set_local_count.
  - destruct (predecessor_entry (collect_leaves root) li pos) as [[[pli ppos] pe]|] eqn:Hp; simpl.
    + apply all_entries_set_value_at.
      * intros e' _. simpl. apply local_law_set_flag.
        exact (predecessor_entry_Forall law_entry _ _ _ _ Hleaves Hp).
      * apply all_entries_set_value_at; [|exact Hroot].
        intros e' _. simpl. apply local_law_set_local_count.
    + apply all_entries_set_value_at; [|exact Hroot].
      intros e' _. simpl. apply local_law_set_local_count.
Qed.

Lemma size_difference_singleton_empty (s : gset AllTypeVariant) x :
  s ∖ {[x]} = ∅ → (size s ≤ 1)%nat.
Proof.
  intros E. assert (Hsub : s ⊆ {[x]}).
  { intros y Hy. apply elem_of_singleton. destruct (decide (y = x)) as [|Hne]; [assumption|].
    assert (Hin : y ∈ s ∖ {[x]}).
    { apply elem_of_difference. split; [exact Hy|]. rewrite elem_of_singleton. exact Hne. }
    rewrite E in Hin. apply elem_of_empty in Hin. destruct Hin. }
  apply subseteq_size in Hsub. rewrite size_singleton in Hsub. exact Hsub.
Qed.

Lemma local_law_erase_empty r v :
  local_law v →
  rhs_values (match r with
              | [] => v
              | rhs :: _ => set_rhs_values (rhs_values v ∖ {[rhs]}) v
              end) = ∅ →
  local_law (match r with
             | [] => v
             | rhs :: _ => set_rhs_values (rhs_values v ∖ {[rhs]}) v
             end).
Proof.
  intros Hlaw. destruct r as [|rhs r]; [intros _; exact Hlaw|]. simpl. intros E.
  unfold local_law in *. simpl. rewrite E, size_empty.
  apply size_difference_singleton_empty in E. lia.
Qed.

Lemma local_law_delete_entry idx l r d :
  local_law_holds idx → local_law_holds (delete_entry_for_validation idx l r d).2.
Proof.
  unfold local_law_holds, delete_entry_for_validation, _link_leaf_neighbors, _remove_entry.
  intros H. pose proof (all_entries_collect_leaves _ _ H) as Hleaves.
  destruct (find_leaf (_root idx) l) as [[li pos]|]; [|exact H].
  destruct (collect_leaves (_root idx) !! li) as [les|] eqn:Hles; [|exact H].
  destruct (entry_at (collect_leaves (_root idx)) li pos) as [e|] eqn:He; [|exact H].
  pose proof (entry_at_Forall law_entry _ _ _ _ Hleaves He) as Hlaw.
  unfold law_entry in Hlaw.
  set (value1 := match r with [] => value e | rhs :: _ => _ end).
  assert (Hroot1 : rhs_values value1 = ∅ →
    all_entries law_entry (set_value_at li pos value1 (_root idx))).
  { intros E. apply all_entries_set_value_at; [|exact H].
    intros e' _. apply local_law_erase_empty; assumption. }
  assert (Hles' : Forall law_entry les) by exact (Forall_lookup_1 _ _ _ _ Hleaves Hles).
  destruct d.
  - destruct (decide (rhs_values value1 = ∅)) as [Hempty|Hne]; simpl.
    + apply all_entries_remove_from_node. auto.
    + apply all_entries_set_value_at; [|exact H].
      intros e' _. apply local_law_set_local_count.
  - destruct (decide (rhs_values value1 = ∅)) as [Hempty|Hne]; simpl.
    + set (p1 := if is_smallest_in_leaf les l && bool_decide (pos = 0%nat) then _ else _).
      assert (Hp1 : all_entries law_entry p1.2).
      { unfold p1. destruct (_ && _); [|simpl; auto].
        destruct (left_leaf_last (collect_leaves (_root idx)) li) as [[[lli lpos] le]|] eqn:Hl;
          [|simpl; auto].
        simpl. apply all_entries_set_value_at; [|auto].
        intros e' _. apply local_law_set_flag.
        exact (left_leaf_last_Forall law_entry _ _ _ Hleaves Hl). }
      destruct p1 as [fd1 root2]. simpl in Hp1.
      set (p2 := if is_largest_in_leaf les l && bool_decide (0 < pos)%nat then _ else _).
      assert (Hp2 : all_entries law_entry p2.2).
      { unfold p2. destruct (_ && _); [|simpl; auto].
        destruct (les !! (pos - 1)%nat) as [pe|] eqn:Hpe; [|simpl; auto].
        simpl. apply all_entries_set_value_at; [|auto].
        intros e' _. apply local_law_set_flag.
        exact (Forall_lookup_1 _ _ _ _ Hles' Hpe). }
      destruct p2 as [fd2 root3]. simpl in Hp2. simpl.
      apply all_entries_remove_from_node. exact Hp2.
    + apply all_entries_set_value_at; [|exact H].
      intros e' _. apply local_law_set_local_count.
Qed.

Lemma local_law_apply_mutation idx m :
  local_law_holds idx → local_law_holds (apply_mutation idx m).
Proof.
  intros H. destruct m as [l r d|l r d|l o n d|k f|k d|k|k]; simpl.
  - apply local_law_insert_entry, H.
  - apply local_law_delete_entry, H.
  - unfold update_entry_for_validation.
    pose proof (local_law_delete_entry idx l o d H) as H1.
    destruct (delete_entry_for_validation idx l o d) as [dd idx1]. simpl in H1.
    pose proof (local_law_insert_entry idx1 l n d H1) as H2.
    destruct (insert_entry_for_validation idx1 l n d) as [di idx2]. exact H2.
  - unfold set_right_neighbor_flag. destruct (search (_root idx) k); [|exact H].
    unfold local_law_holds. simpl. apply all_entries_alter_search; [|exact H].
    intros e0 He0. exact He0.
  - unfold recompute_local_violation_delta. destruct (search (_root idx) k); [|exact H].
    unfold local_law_holds. simpl. apply all_entries_alter_search; [|exact H].
    intros e0 _. apply local_law_set_local_count.
  - unfold insert_key. destruct (search (_root idx) k); unfold local_law_holds; simpl.
    + apply all_entries_alter_search; [|exact H]. intros e0 He0. exact He0.
    + apply all_entries__insert; [exact H|]. apply local_law_new_value.
  - unfold remove_key. destruct (search (_root idx) k) as [v|]; [|exact H].
    destruct (1 <? count v); unfold local_law_holds; simpl.
    + apply all_entries_alter_search; [|exact H]. intros e0 He0. exact He0.
    + apply all_entries_remove_from_node. exact H.
Qed.

Lemma local_law_BTreeIndex_new segments : local_law_holds (BTreeIndex_new segments).
Proof.
  unfold local_law_holds, BTreeIndex_new. simpl.
  set (offsets := merge_sort _ _). clearbody offsets.
  set (st0 := mkLoader (mkNode 3 true [] []) [] [] None).
  assert (Hst0 : all_entries law_entry (ld_root st0)) by constructor.
  clearbody st0. revert st0 Hst0.
  induction offsets as [|o offsets IH]; intros st Hst; simpl.
  - destruct (ld_current st) as [[[cur start] cnt]|]; [|exact Hst].
    apply all_entries__insert; [exact Hst | reflexivity].
  - apply IH. unfold loader_step.
    destruct (row_key segments o) as [rk|]; [|exact Hst].
    destruct (ld_current st) as [[[cur start] cnt]|]; [|exact Hst].
    destruct (key_eq rk cur); [exact Hst|]. simpl.
    apply all_entries__insert; [exact Hst | reflexivity].
Qed.

(** C3. After every public mutation every record's local contribution is
    [max(0, |rhs_values| - 1)]: the law holds for the index the bulk loader
    builds and is preserved by each of the seven mutators, whatever the
    dependency type. *)
Theorem local_law_invariant segments (ms : list Mutation) :
  Forall (λ e, local_violation_count_contribution (value e)
               = Z.max 0 (Z.of_nat (size (rhs_values (value e))) - 1))
         (tree_entries (_root (run (BTreeIndex_new segments) ms))).
Proof.
  change (local_law_holds (run (BTreeIndex_new segments) ms)).
  unfold run. generalize (local_law_BTreeIndex_new segments).
  generalize (BTreeIndex_new segments). induction ms as [|m ms IH]; intros idx H; simpl.
  - exact H.
  - apply IH, local_law_apply_mutation, H.
Qed.


(** * Where a leaf sits in the sequence of all records *)

Lemma interleave_child (ls : list (list BTreeEntry)) es i x :
  ls !! i = Some x →
  ∃ l1 l2, interleave ls es = l1 ++ x ++ l2
           ∧ ∀ y, interleave (<[i := y]> ls) es = l1 ++ y ++ l2.
Proof.
  revert es i. induction ls as [|c ls IH]; intros es i Hi; [discriminate|].
  destruct i as [|i]; simpl in *.
  - simplify_eq. exists [], (match es with [] => concat ls | e :: es' => e :: interleave ls es' end).
    split; [reflexivity|]. intros y. reflexivity.
  - destruct es as [|e es].
    + apply list_elem_of_split_length in Hi as (k1 & k2 & -> & Hlen).
      exists (c ++ concat k1), (concat k2). split.
      * rewrite concat_app. simpl. rewrite <- !app_assoc. reflexivity.
      * intros y. rewrite Hlen, insert_app_r_alt by lia.
        replace (length k1 - length k1)%nat with 0%nat by lia. simpl.
        rewrite concat_app. simpl. rewrite <- !app_assoc. reflexivity.
    + destruct (IH es i Hi) as (l1 & l2 & E1 & E2).
      exists (c ++ e :: l1), l2. split.
      * rewrite E1. rewrite <- !app_assoc. reflexivity.
      * intros y. rewrite E2. rewrite <- !app_assoc. reflexivity.
Qed.

Lemma alter_leaf_out_of_range f li n :
  (leaf_count n ≤ li)%nat → alter_leaf f li n = n.
Proof.
  revert li. induction n as [t lf es cs IH] using BTreeNode_children_ind. intros li Hli.
  unfold leaf_count in Hli. simpl in *. destruct lf.
  - simpl in Hli. destruct li; [lia | reflexivity].
  - f_equal. revert li Hli. induction cs as [|c cs IHcs]; intros li Hli; simpl; [reflexivity|].
    inversion IH as [|? ? Hc Hcs]; subst. rewrite fmap_cons in Hli. simpl in Hli.
    rewrite length_app in Hli. fold (leaf_count c) in Hli.
    destruct (li <? leaf_count c)%nat eqn:E; [apply Nat.ltb_lt in E; lia|].
    f_equal. apply IHcs; [exact Hcs | lia].
Qed.

(** The leaf with index [li] and the records before and after it. *)
Lemma tree_entries_alter_leaf n li es :
  collect_leaves n !! li = Some es →
  ∃ l1 l2, tree_entries n = l1 ++ es ++ l2
           ∧ ∀ f, tree_entries (alter_leaf f li n) = l1 ++ f es ++ l2.
Proof.
  revert li. induction n as [t lf ens cs IH] using BTreeNode_children_ind. intros li Hli.
  simpl in *. destruct lf.
  - destruct li as [|li]; [|discriminate]. simplify_eq/=. exists [], [].
    split; [rewrite app_nil_r; reflexivity|]. intros f. rewrite app_nil_r. reflexivity.
  - assert (∃ j c li', cs !! j = Some c ∧ collect_leaves c !! li' = Some es
             ∧ ∀ f, alter_leaf_children (λ l c, alter_leaf f l c) cs li
                    = <[j := alter_leaf f li' c]> cs) as (j & c & li' & Hj & Hc & Halt).
    { clear IH. revert li Hli. induction cs as [|c cs IHcs]; intros li Hli; [discriminate|].
      simpl in Hli. destruct (decide (li < leaf_count c)%nat) as [Hlt|Hge].
      - exists 0%nat, c, li. rewrite lookup_app_l in Hli by exact Hlt.
        split; [reflexivity|]. split; [exact Hli|]. intros f. simpl.
        apply Nat.ltb_lt in Hlt. rewrite Hlt. reflexivity.
      - rewrite lookup_app_r in Hli by (unfold leaf_count in Hge; lia).
        destruct (IHcs _ Hli) as (j & c' & li' & Hj & Hc & Halt).
        exists (S j), c', li'. split; [exact Hj|]. split; [exact Hc|]. intros f. simpl.
        destruct (li <? leaf_count c)%nat eqn:E; [apply Nat.ltb_lt in E; lia|].
        f_equal. apply Halt. }
    eapply Forall_lookup_1 in IH; [|exact Hj]. destruct (IH _ Hc) as (k1 & k2 & E1 & E2).
    destruct (interleave_child (tree_entries <$> cs) ens j (tree_entries c)) as (l1 & l2 & F1 & F2).
    { rewrite list_lookup_fmap, Hj. reflexivity. }
    exists (l1 ++ k1), (k2 ++ l2). split.
    + rewrite F1, E1. rewrite <- !app_assoc. reflexivity.
    + intros f. simpl. rewrite Halt, list_fmap_insert, F2, E2. rewrite <- !app_assoc. reflexivity.
Qed.

Lemma collect_leaves_alter_leaf f li n :
  collect_leaves (alter_leaf f li n) = alter f li (collect_leaves n).
Proof.
  revert li. induction n as [t lf es cs IH] using BTreeNode_children_ind. intros li.
  simpl. destruct lf.
  - destruct li; reflexivity.
  - change (concat (collect_leaves <$> alter_leaf_children (λ l c, alter_leaf f l c) cs li)
            = alter f li (concat (collect_leaves <$> cs))).
    revert li. induction cs as [|c cs IHcs]; intros li; [reflexivity|].
    inversion IH as [|? ? Hc Hcs]; subst. rewrite fmap_cons. simpl.
    destruct (li <? leaf_count c)%nat eqn:E.
    + apply Nat.ltb_lt in E. rewrite fmap_cons. simpl. rewrite Hc.
      unfold leaf_count in E. rewrite alter_app_l by exact E. reflexivity.
    + apply Nat.ltb_ge in E. rewrite fmap_cons. simpl. rewrite IHcs by exact Hcs.
      unfold leaf_count in *. rewrite alter_app_r_alt by exact E. reflexivity.
Qed.

(** The record at a position of a leaf and the records around it. *)
Lemma tree_entries_set_value_at n li pos e :
  entry_at (collect_leaves n) li pos = Some e →
  ∃ l1 l2, tree_entries n = l1 ++ e :: l2
           ∧ ∀ v, tree_entries (set_value_at li pos v n) = l1 ++ mkEntry (key e) v :: l2.
Proof.
  unfold entry_at, set_value_at. intros He.
  destruct (collect_leaves n !! li) as [es|] eqn:Hes; [|discriminate].
  destruct (tree_entries_alter_leaf n li es Hes) as (l1 & l2 & E1 & E2).
  apply list_elem_of_split_length in He as (k1 & k2 & -> & Hlen).
  exists (l1 ++ k1), (k2 ++ l2). split.
  - rewrite E1. rewrite <- !app_assoc. reflexivity.
  - intros v. rewrite E2. rewrite Hlen, alter_app_r_alt by lia.
    replace (length k1 - length k1)%nat with 0%nat by lia. simpl.
    rewrite <- !app_assoc. reflexivity.
Qed.




(** * The shape of the tree and the sequence of records under an insert *)

Lemma shape_okb_node t lf es cs :
  shape_okb (mkNode t lf es cs)
  = (1 <=? t)%nat && (lf || ((length es <? length cs)%nat && forallb shape_okb cs)).
Proof. reflexivity. Qed.

Lemma shape_ok_node t lf es cs :
  shape_ok (mkNode t lf es cs) ↔
  (1 ≤ t)%nat ∧ (lf = false → (length es < length cs)%nat ∧ Forall shape_ok cs).
Proof.
  unfold shape_ok. rewrite shape_okb_node. split.
  - intros H. apply andb_prop in H as [H1 H2]. apply Nat.leb_le in H1.
    split; [exact H1|]. intros ->. simpl in H2. apply andb_prop in H2 as [H2 H3].
    apply Nat.ltb_lt in H2. split; [exact H2|]. apply Forall_forall. intros c Hc.
    rewrite forallb_forall in H3. apply H3. apply list_elem_of_In. exact Hc.
  - intros (H1 & H2). apply andb_true_intro. split; [apply Nat.leb_le; exact H1|].
    destruct lf; [reflexivity|]. destruct (H2 eq_refl) as [H3 H4]. simpl.
    apply andb_true_intro. split; [apply Nat.ltb_lt; exact H3|].
    apply forallb_forall. intros c Hc. eapply Forall_forall in H4; [exact H4|].
    apply list_elem_of_In. exact Hc.
Qed.

Lemma height_child c t lf es cs : c ∈ cs → (height c < height (mkNode t lf es cs))%nat.
Proof.
  simpl. induction cs as [|c' cs IH]; intros Hc; [inversion Hc|]. simpl.
  apply elem_of_cons in Hc as [->|Hc]; [lia|]. specialize (IH Hc). lia.
Qed.

Lemma height_node_le t lf es cs h :
  Forall (λ c, (height c < h)%nat) cs → (height (mkNode t lf es cs) ≤ h)%nat.
Proof.
  simpl. induction 1 as [|c cs Hc Hcs IH]; simpl; lia.
Qed.

Lemma interleave_split cs es i :
  (i ≤ length es)%nat → (i < length cs)%nat →
  interleave cs es = interleave_before cs es i ++ interleave (drop i cs) (drop i es).
Proof.
  revert cs es. induction i as [|i IH]; intros cs es Hes Hcs; [reflexivity|].
  destruct cs as [|c cs]; [simpl in Hcs; lia|]. destruct es as [|e es]; [simpl in Hes; lia|].
  simpl in *. rewrite (IH cs es) by lia. rewrite <- app_assoc. reflexivity.
Qed.

Lemma interleave_before_app cs1 cs2 es1 es2 i :
  length cs1 = i → length es1 = i →
  interleave_before (cs1 ++ cs2) (es1 ++ es2) i = interleave_before cs1 es1 i.
Proof.
  revert cs1 es1. induction i as [|i IH]; intros cs1 es1 Hc He; [reflexivity|].
  destruct cs1 as [|c cs1]; [discriminate|]. destruct es1 as [|e es1]; [discriminate|].
  simpl in *. rewrite IH by lia. reflexivity.
Qed.

Lemma interleave_before_take cs es i :
  interleave_before (take i cs) (take i es) i = interleave_before cs es i.
Proof.
  revert cs es. induction i as [|i IH]; intros cs es; [reflexivity|].
  destruct cs as [|c cs]; [reflexivity|]. destruct es as [|e es]; [reflexivity|].
  simpl. rewrite IH. reflexivity.
Qed.

(** The records of a full child, cut at the median. *)
Lemma interleave_median_S (cs : list (list BTreeEntry)) es j mid :
  (S j ≤ length cs)%nat → es !! j = Some mid →
  interleave cs es
  = interleave (take (S j) cs) (take j es) ++ mid :: interleave (drop (S j) cs) (drop (S j) es).
Proof.
  revert cs es. induction j as [|j IH]; intros cs es Hcs Hmid.
  - destruct cs as [|c cs]; [simpl in Hcs; lia|]. destruct es as [|e es]; [discriminate|].
    simpl in Hmid. simplify_eq. simpl. rewrite ?take_0. simpl. rewrite ?app_nil_r. reflexivity.
  - destruct cs as [|c cs]; [simpl in Hcs; lia|]. destruct es as [|e es]; [discriminate|].
    simpl in Hmid, Hcs. simpl. rewrite (IH cs es) by (lia || assumption).
    rewrite <- app_assoc. reflexivity.
Qed.

Lemma interleave_median (cs : list (list BTreeEntry)) es t mid :
  (t ≤ length cs)%nat → (1 ≤ t)%nat → es !! (t - 1)%nat = Some mid →
  interleave cs es
  = interleave (take t cs) (take (t - 1) es) ++ mid :: interleave (drop t cs) (drop t es).
Proof.
  intros Hcs Ht Hmid. destruct t as [|j]; [lia|].
  replace (S j - 1)%nat with j in * by lia. apply interleave_median_S; assumption.
Qed.


Lemma height_node_iff t lf es cs h :
  (height (mkNode t lf es cs) ≤ h)%nat ↔ Forall (λ c, (height c < h)%nat) cs.
Proof.
  split; [|apply height_node_le].
  intros H. apply Forall_forall. intros c Hc.
  pose proof (height_child c t lf es cs Hc). lia.
Qed.

(** [split_child] keeps the shape, the height and the sequence of records. *)
Lemma split_child_cases t es cs i :
  split_child (mkNode t false es cs) i = mkNode t false es cs
  ∨ ∃ yt yleaf yes ycs mid,
      cs !! i = Some (mkNode yt yleaf yes ycs) ∧ yes !! (t - 1)%nat = Some mid
      ∧ split_child (mkNode t false es cs) i
        = mkNode t false (take i es ++ mid :: drop i es)
            (take i cs
             ++ mkNode yt yleaf (take (t - 1) yes) (if yleaf then ycs else take t ycs)
             :: mkNode yt yleaf (drop t yes) (if yleaf then [] else drop t ycs)
             :: drop (S i) cs).
Proof.
  unfold split_child. destruct (cs !! i) as [[yt yleaf yes ycs]|] eqn:Hy; [|left; reflexivity].
  destruct (yes !! (t - 1)%nat) as [mid|] eqn:Hmid; [|left; reflexivity].
  right. exists yt, yleaf, yes, ycs, mid. auto.
Qed.

Lemma shape_ok_split_child t es cs i :
  shape_ok (mkNode t false es cs) → shape_ok (split_child (mkNode t false es cs) i).
Proof.
  intros H. destruct (split_child_cases t es cs i)
    as [->|(yt & yleaf & yes & ycs & mid & Hy & Hmid & ->)]; [exact H|].
  apply shape_ok_node in H as (Ht & H). destruct (H eq_refl) as [Hlen Hcs]. clear H.
  pose proof (Forall_lookup_1 _ _ _ _ Hcs Hy) as Hyok.
  apply shape_ok_node in Hyok as (Hyt & Hyok).
  apply lookup_lt_Some in Hy as Hi. apply lookup_lt_Some in Hmid as Hm.
  apply shape_ok_node. split; [exact Ht|]. intros _. split.
  - rewrite !length_app. simpl. rewrite !length_take, !length_drop. lia.
  - apply Forall_app. split; [apply Forall_take; exact Hcs|].
    constructor; [|constructor; [|apply Forall_drop; exact Hcs]].
    + apply shape_ok_node. split; [exact Hyt|]. intros ->.
      destruct (Hyok eq_refl) as [Hl Hf]. split; [|apply Forall_take; exact Hf].
      rewrite !length_take. lia.
    + apply shape_ok_node. split; [exact Hyt|]. intros ->.
      destruct (Hyok eq_refl) as [Hl Hf]. split; [|apply Forall_drop; exact Hf].
      rewrite !length_drop. lia.
Qed.

Lemma height_split_child t es cs i :
  (height (split_child (mkNode t false es cs) i) ≤ height (mkNode t false es cs))%nat.
Proof.
  destruct (split_child_cases t es cs i)
    as [->|(yt & yleaf & yes & ycs & mid & Hy & Hmid & ->)]; [lia|].
  apply height_node_iff.
  assert (Hcs : Forall (λ c, (height c < height (mkNode t false es cs))%nat) cs).
  { apply Forall_forall. intros c Hc. apply height_child. exact Hc. }
  pose proof (Forall_lookup_1 _ _ _ _ Hcs Hy) as Hyh.
  assert (Hycs : Forall (λ c, (height c < height (mkNode yt yleaf yes ycs))%nat) ycs).
  { apply Forall_forall. intros c Hc. apply height_child. exact Hc. }
  apply Forall_app. split; [apply Forall_take; exact Hcs|].
  constructor; [|constructor; [|apply Forall_drop; exact Hcs]].
  - eapply Nat.le_lt_trans; [|exact Hyh]. apply height_node_iff.
    destruct yleaf; [exact Hycs | apply Forall_take; exact Hycs].
  - eapply Nat.le_lt_trans; [|exact Hyh]. apply height_node_iff.
    destruct yleaf; [constructor | apply Forall_drop; exact Hycs].
Qed.

Lemma tree_entries_split_child t es cs i :
  shape_ok (mkNode t false es cs) → (i ≤ length es)%nat →
  tree_entries (split_child (mkNode t false es cs) i) = tree_entries (mkNode t false es cs).
Proof.
  intros H Hi. destruct (split_child_cases t es cs i)
    as [->|(yt & yleaf & yes & ycs & mid & Hy & Hmid & ->)]; [reflexivity|].
  apply shape_ok_node in H as (Ht & H). destruct (H eq_refl) as [Hlen Hcs]. clear H.
  pose proof (Forall_lookup_1 _ _ _ _ Hcs Hy) as Hyok.
  apply shape_ok_node in Hyok as (Hyt & Hyok).
  apply lookup_lt_Some in Hmid as Hm.
  set (y1 := mkNode yt yleaf (take (t - 1) yes) (if yleaf then ycs else take t ycs)).
  set (z := mkNode yt yleaf (drop t yes) (if yleaf then [] else drop t ycs)).
  assert (Hyz : tree_entries (mkNode yt yleaf yes ycs)
                = tree_entries y1 ++ mid :: tree_entries z).
  { unfold y1, z. simpl. destruct yleaf.
    - rewrite <- (take_drop_middle yes (t - 1) mid Hmid) at 1.
      replace (S (t - 1)) with t by lia. reflexivity.
    - destruct (Hyok eq_refl) as [Hl Hf].
      rewrite (interleave_median (tree_entries <$> ycs) yes t mid);
        [|rewrite length_fmap; lia|exact Ht|exact Hmid].
      rewrite fmap_take, fmap_drop. reflexivity. }
  set (y0 := mkNode yt yleaf yes ycs) in *. clearbody y0 y1 z.
  simpl. rewrite (interleave_split (tree_entries <$> cs) es i) by (rewrite ?length_fmap; lia).
  rewrite (interleave_split (tree_entries <$> _) (take i es ++ _) i).
  2: { rewrite length_app, length_take. simpl. lia. }
  2: { rewrite length_fmap, length_app, length_take. simpl. lia. }
  rewrite fmap_app, interleave_before_app
    by (rewrite ?length_fmap, length_take; lia).
  rewrite fmap_take, interleave_before_take. f_equal.
  rewrite drop_app_length' by (rewrite ?length_take, ?length_fmap, ?length_take; lia).
  rewrite drop_app_length' by (rewrite length_take; lia).
  rewrite <- fmap_drop, (drop_S cs _ i Hy). rewrite !fmap_cons. simpl interleave.
  rewrite Hyz. rewrite <- !app_assoc. simpl. reflexivity.
Qed.


(** * The order of the keys *)

Lemma key_lt_irrefl a : key_lt a a = false.
Proof.
  induction a as [|x a IH]; simpl; [reflexivity|].
  rewrite Z.ltb_irrefl. exact IH.
Qed.

Lemma key_lt_trans a b c : key_lt a b = true → key_lt b c = true → key_lt a c = true.
Proof.
  revert b c. induction a as [|x a IH]; intros [|y b] [|z c]; simpl; try discriminate; auto.
  destruct (x <? y) eqn:Exy, (y <? z) eqn:Eyz, (y <? x) eqn:Eyx, (z <? y) eqn:Ezy,
    (x <? z) eqn:Exz, (z <? x) eqn:Ezx; try discriminate; try reflexivity;
    try (intros; exfalso; lia); intros H1 H2.
  - eapply IH; eauto.
Qed.

Lemma key_lt_asym a b : key_lt a b = true → key_lt b a = false.
Proof.
  intros H. destruct (key_lt b a) eqn:E; [|reflexivity].
  pose proof (key_lt_trans _ _ _ H E) as H'. rewrite key_lt_irrefl in H'. discriminate.
Qed.

Lemma key_lt_trichotomy a b : key_lt a b = false → key_lt b a = false → a = b.
Proof.
  revert b. induction a as [|x a IH]; intros [|y b]; simpl; try discriminate; auto.
  destruct (x <? y) eqn:Exy, (y <? x) eqn:Eyx; try discriminate.
  intros H1 H2. assert (x = y) by lia. subst. f_equal. apply IH; assumption.
Qed.

Lemma key_eq_true a b : key_eq a b = true ↔ a = b.
Proof. unfold key_eq. apply bool_decide_eq_true. Qed.

Lemma key_eq_false a b : key_eq a b = false ↔ a ≠ b.
Proof. unfold key_eq. apply bool_decide_eq_false. Qed.

Lemma key_lt_le_trans a b c : key_lt a b = true → key_lt c b = false → key_lt a c = true.
Proof.
  intros H1 H2. destruct (key_lt a c) eqn:E; [reflexivity|].
  destruct (key_lt c a) eqn:E'.
  - rewrite (key_lt_trans _ _ _ E' H1) in H2. discriminate.
  - rewrite (key_lt_trichotomy _ _ E E') in H1. congruence.
Qed.

Lemma key_le_lt_trans a b c : key_lt b a = false → key_lt b c = true → key_lt a c = true.
Proof.
  intros H1 H2. destruct (key_lt a c) eqn:E; [reflexivity|].
  destruct (key_lt c a) eqn:E'.
  - rewrite (key_lt_trans _ _ _ H2 E') in H1. discriminate.
  - rewrite <- (key_lt_trichotomy _ _ E E') in H2. congruence.
Qed.

#[global] Instance entry_lt_trans : Transitive entry_lt.
Proof. intros a b c. unfold entry_lt. apply key_lt_trans. Qed.

Lemma keys_ascending_sorted (l : list BTreeEntry) :
  keys_ascending (key <$> l) = true ↔ StronglySorted entry_lt l.
Proof.
  split.
  - intros H. apply Sorted_StronglySorted; [apply _|].
    induction l as [|a l IH]; [constructor|]. rewrite fmap_cons in H. simpl in H.
    apply andb_prop in H as [H1 H2]. constructor; [apply IH; exact H2|].
    destruct l as [|b l]; constructor. exact H1.
  - induction 1 as [|a l Hl IH Ha]; [reflexivity|]. rewrite fmap_cons. simpl.
    rewrite IH, andb_true_r. destruct l as [|b l]; [reflexivity|].
    inversion Ha; subst. assumption.
Qed.

Lemma btree_okb_node t lf es cs :
  btree_okb (mkNode t lf es cs)
  = (1 <=? t)%nat && (lf || ((length cs =? S (length es))%nat && forallb btree_okb cs)).
Proof. reflexivity. Qed.

Lemma btree_ok_node t lf es cs :
  btree_okb (mkNode t lf es cs) = true ↔
  (1 ≤ t)%nat ∧ (lf = false → length cs = S (length es) ∧ Forall (λ c, btree_okb c = true) cs).
Proof.
  rewrite btree_okb_node. split.
  - intros H. apply andb_prop in H as [H1 H2]. apply Nat.leb_le in H1.
    split; [exact H1|]. intros ->. simpl in H2. apply andb_prop in H2 as [H2 H3].
    apply Nat.eqb_eq in H2. split; [exact H2|]. apply Forall_forall. intros c Hc.
    rewrite forallb_forall in H3. apply H3. apply list_elem_of_In. exact Hc.
  - intros (H1 & H2). apply andb_true_intro. split; [apply Nat.leb_le; exact H1|].
    destruct lf; [reflexivity|]. destruct (H2 eq_refl) as [H3 H4]. simpl.
    apply andb_true_intro. split; [apply Nat.eqb_eq; exact H3|].
    apply forallb_forall. intros c Hc. eapply Forall_forall in H4; [exact H4|].
    apply list_elem_of_In. exact Hc.
Qed.


(** * The two scans over the entries of a node *)

Lemma scan_down_spec k es n :
  (n ≤ length es)%nat →
  (scan_down k es n ≤ n)%nat
  ∧ (∀ j e, (scan_down k es n ≤ j < n)%nat → es !! j = Some e → key_lt k (key e) = true)
  ∧ (∀ e, (0 < scan_down k es n)%nat → es !! (scan_down k es n - 1)%nat = Some e →
          key_lt k (key e) = false).
Proof.
  induction n as [|n IH]; intros Hn; simpl.
  - split; [lia|]. split; [intros; lia | intros; lia].
  - destruct (es !! n) as [e|] eqn:He.
    2: { apply lookup_ge_None in He. lia. }
    destruct (key_lt k (key e)) eqn:Hk.
    + destruct IH as (H1 & H2 & H3); [lia|]. split; [lia|]. split; [|exact H3].
      intros j e' Hj He'. destruct (decide (j = n)) as [->|Hne].
      * congruence.
      * apply (H2 j); [lia | exact He'].
    + split; [lia|]. split; [intros; lia|]. intros e' _ He'.
      replace (S n - 1)%nat with n in He' by lia. congruence.
Qed.

Lemma scan_up_spec k es :
  (scan_up k es ≤ length es)%nat
  ∧ (∀ j e, (j < scan_up k es)%nat → es !! j = Some e → key_lt (key e) k = true)
  ∧ (∀ e, es !! scan_up k es = Some e → key_lt (key e) k = false).
Proof.
  induction es as [|e0 es IH]; simpl.
  - split; [lia|]. split; [intros; lia | intros; discriminate].
  - destruct (key_lt (key e0) k) eqn:Hk.
    + destruct IH as (H1 & H2 & H3). split; [lia|]. split.
      * intros [|j] e Hj He; simpl in He; [congruence | apply (H2 j); [lia | exact He]].
      * intros e He. simpl in He. apply H3. exact He.
    + split; [lia|]. split; [intros; lia|]. intros e He. simpl in He. congruence.
Qed.

(** * One step of the descent of [insert_non_full] *)

Lemma insert_non_full_step fuel t es cs k v :
  shape_ok (mkNode t false es cs) →
  let i := scan_down k es (length es) in
  ∃ es1 cs1 i1 c,
    insert_non_full (S fuel) (mkNode t false es cs) k v
    = mkNode t false es1 (alter (λ c, insert_non_full fuel c k v) i1 cs1)
    ∧ cs1 !! i1 = Some c
    ∧ ((es1 = es ∧ cs1 = cs ∧ i1 = i ∧ length (entries c) ≠ (2 * t - 1)%nat)
       ∨ (∃ yt yleaf yes ycs mid,
            cs !! i = Some (mkNode yt yleaf yes ycs)
            ∧ length yes = (2 * t - 1)%nat
            ∧ yes !! (t - 1)%nat = Some mid
            ∧ es1 = take i es ++ mid :: drop i es
            ∧ cs1 = take i cs
                    ++ mkNode yt yleaf (take (t - 1) yes) (if yleaf then ycs else take t ycs)
                    :: mkNode yt yleaf (drop t yes) (if yleaf then [] else drop t ycs)
                    :: drop (S i) cs
            ∧ i1 = if key_lt (key mid) k then S i else i)).
Proof.
  intros Hshape i. rewrite insert_non_full_internal. cbv zeta. fold i.
  apply shape_ok_node in Hshape as (Ht & H). destruct (H eq_refl) as [Hlen Hcs]. clear H.
  pose proof (scan_down_spec k es (length es) (le_n _)) as (Hi & _). fold i in Hi.
  destruct (lookup_lt_is_Some_2 cs i) as [y Hy]; [lia|].
  rewrite apply_nth_lookup, Hy.
  case_bool_decide as Hfull.
  - destruct y as [yt yleaf yes ycs]. simpl in Hfull.
    destruct (lookup_lt_is_Some_2 yes (t - 1)%nat) as [mid Hmid]; [lia|].
    unfold split_child. rewrite Hy, Hmid. simpl entries. simpl children.
    assert (Hmid' : (take i es ++ mid :: drop i es) !! i = Some mid).
    { rewrite lookup_app_r by (rewrite length_take; lia).
      rewrite length_take. replace (i - i `min` length es)%nat with 0%nat by lia. reflexivity. }
    rewrite Hmid'.
    set (y1 := mkNode yt yleaf (take (t - 1) yes) (if yleaf then ycs else take t ycs)).
    set (z := mkNode yt yleaf (drop t yes) (if yleaf then [] else drop t ycs)).
    eexists _, _, _, (if key_lt (key mid) k then z else y1).
    split; [reflexivity|]. split.
    + destruct (key_lt (key mid) k).
      * rewrite lookup_app_r by (rewrite length_take; lia).
        rewrite length_take. replace (S i - i `min` length cs)%nat with 1%nat by lia. reflexivity.
      * rewrite lookup_app_r by (rewrite length_take; lia).
        rewrite length_take. replace (i - i `min` length cs)%nat with 0%nat by lia. reflexivity.
    + right. exists yt, yleaf, yes, ycs, mid. auto 10.
  - exists es, cs, i, y. split; [reflexivity|]. split; [exact Hy|]. left. auto.
Qed.


(** * The records in front of and behind a child *)

Lemma interleave_at cs es i x :
  cs !! i = Some x → (i ≤ length es)%nat →
  interleave cs es = interleave_before cs es i ++ x ++ interleave_after cs es i.
Proof.
  intros Hx Hi. rewrite (interleave_split cs es i) by (apply lookup_lt_Some in Hx; lia).
  rewrite (drop_S cs x i Hx). reflexivity.
Qed.

Lemma interleave_before_insert cs es i y :
  interleave_before (<[i := y]> cs) es i = interleave_before cs es i.
Proof.
  revert cs es. induction i as [|i IH]; intros cs es; [reflexivity|].
  destruct cs as [|c cs]; [reflexivity|]. destruct es as [|e es]; [reflexivity|].
  simpl. rewrite IH. reflexivity.
Qed.

Lemma interleave_after_insert cs es i y :
  interleave_after (<[i := y]> cs) es i = interleave_after cs es i.
Proof.
  unfold interleave_after. rewrite drop_insert_lt by lia. reflexivity.
Qed.

Lemma interleave_before_last cs es i :
  (0 < i)%nat → (i ≤ length es)%nat → (i ≤ length cs)%nat →
  ∃ B e, interleave_before cs es i = B ++ [e] ∧ es !! (i - 1)%nat = Some e.
Proof.
  revert cs es. induction i as [|i IH]; intros cs es H0 Hes Hcs; [lia|].
  destruct cs as [|c cs]; [simpl in Hcs; lia|]. destruct es as [|e es]; [simpl in Hes; lia|].
  simpl in *. destruct i as [|i].
  - exists c, e. split; reflexivity.
  - destruct (IH cs es) as (B & e' & E & He'); [lia..|].
    exists (c ++ e :: B), e'. split.
    + rewrite E. rewrite <- app_assoc. reflexivity.
    + simpl in He'. replace (i - 0)%nat with i in He' by lia. exact He'.
Qed.

Lemma interleave_after_head cs es i :
  length cs = S (length es) →
  match es !! i with
  | Some e => ∃ A, interleave_after cs es i = e :: A
  | None => interleave_after cs es i = []
  end.
Proof.
  intros Hlen. unfold interleave_after. destruct (es !! i) as [e|] eqn:He.
  - rewrite (drop_S es e i He). eauto.
  - apply lookup_ge_None in He. rewrite drop_ge by lia. rewrite drop_ge by lia. reflexivity.
Qed.

Lemma alter_insert_lookup {A} (f : A → A) (l : list A) i x :
  l !! i = Some x → alter f i l = <[i := f x]> l.
Proof.
  intros Hx. apply list_eq. intros j. destruct (decide (i = j)) as [->|Hne].
  - rewrite list_lookup_alter_eq, Hx, list_lookup_insert_eq by (apply lookup_lt_Some in Hx; lia).
    reflexivity.
  - rewrite list_lookup_alter_ne, list_lookup_insert_ne by exact Hne. reflexivity.
Qed.

(** The bounds that the records around a child inherit from the two entries
    next to it. *)
Lemma sorted_before_bound (B : list BTreeEntry) e k :
  StronglySorted entry_lt (B ++ [e]) → key_lt k (key e) = false →
  Forall (λ x, key_lt k (key x) = false) (B ++ [e]).
Proof.
  intros Hs Hk. apply Forall_app. split; [|constructor; [exact Hk | constructor]].
  apply Forall_forall. intros x Hx.
  assert (Hlt : entry_lt x e).
  { eapply StronglySorted_app_1_elem_of; [exact Hs | exact Hx | apply list_elem_of_here]. }
  destruct (key_lt k (key x)) eqn:E; [|reflexivity].
  rewrite (key_lt_trans _ _ _ E Hlt) in Hk. discriminate.
Qed.

Lemma sorted_after_bound (A : list BTreeEntry) e k :
  StronglySorted entry_lt (e :: A) → key_lt (key e) k = false →
  Forall (λ x, key_lt (key x) k = false) (e :: A).
Proof.
  intros Hs Hk. constructor; [exact Hk|].
  apply StronglySorted_cons in Hs as [Hall _].
  eapply Forall_impl; [exact Hall|]. intros x Hlt. simpl in Hlt.
  destruct (key_lt (key x) k) eqn:E; [|reflexivity].
  rewrite (key_lt_trans _ _ _ Hlt E) in Hk. discriminate.
Qed.


Lemma btree_ok_shape_ok n : btree_okb n = true → shape_ok n.
Proof.
  induction n as [t lf es cs IH] using BTreeNode_children_ind. intros H.
  apply btree_ok_node in H as (Ht & H). apply shape_ok_node. split; [exact Ht|].
  intros E. destruct (H E) as [Hlen Hcs]. split; [lia|].
  apply Forall_forall. intros c Hc. rewrite Forall_forall in IH, Hcs. auto.
Qed.

Lemma btree_ok_split_child t es cs i :
  btree_okb (mkNode t false es cs) = true →
  btree_okb (split_child (mkNode t false es cs) i) = true.
Proof.
  intros H. destruct (split_child_cases t es cs i)
    as [->|(yt & yleaf & yes & ycs & mid & Hy & Hmid & ->)]; [exact H|].
  apply btree_ok_node in H as (Ht & H). destruct (H eq_refl) as [Hlen Hcs]. clear H.
  pose proof (Forall_lookup_1 _ _ _ _ Hcs Hy) as Hyok. simpl in Hyok.
  apply btree_ok_node in Hyok as (Hyt & Hyok).
  apply lookup_lt_Some in Hy as Hi. apply lookup_lt_Some in Hmid as Hm.
  apply btree_ok_node. split; [exact Ht|]. intros _. split.
  - rewrite !length_app. simpl. rewrite !length_take, !length_drop. lia.
  - apply Forall_app. split; [apply Forall_take; exact Hcs|].
    constructor; [|constructor; [|apply Forall_drop; exact Hcs]].
    + apply btree_ok_node. split; [exact Hyt|]. intros ->.
      destruct (Hyok eq_refl) as [Hl Hf]. split; [|apply Forall_take; exact Hf].
      rewrite !length_take. lia.
    + apply btree_ok_node. split; [exact Hyt|]. intros ->.
      destruct (Hyok eq_refl) as [Hl Hf]. split; [|apply Forall_drop; exact Hf].
      rewrite !length_drop. lia.
Qed.

(** What one step of the descent leaves in place. *)
Lemma insert_non_full_step_facts t es cs k es1 cs1 i1 (c : BTreeNode) :
  shape_ok (mkNode t false es cs) →
  cs1 !! i1 = Some c →
  let i := scan_down k es (length es) in
  ((es1 = es ∧ cs1 = cs ∧ i1 = i ∧ length (entries c) ≠ (2 * t - 1)%nat)
   ∨ (∃ yt yleaf yes ycs mid,
        cs !! i = Some (mkNode yt yleaf yes ycs)
        ∧ length yes = (2 * t - 1)%nat
        ∧ yes !! (t - 1)%nat = Some mid
        ∧ es1 = take i es ++ mid :: drop i es
        ∧ cs1 = take i cs
                ++ mkNode yt yleaf (take (t - 1) yes) (if yleaf then ycs else take t ycs)
                :: mkNode yt yleaf (drop t yes) (if yleaf then [] else drop t ycs)
                :: drop (S i) cs
        ∧ i1 = if key_lt (key mid) k then S i else i)) →
  shape_ok (mkNode t false es1 cs1)
  ∧ (btree_okb (mkNode t false es cs) = true → btree_okb (mkNode t false es1 cs1) = true)
  ∧ tree_entries (mkNode t false es1 cs1) = tree_entries (mkNode t false es cs)
  ∧ (height (mkNode t false es1 cs1) ≤ height (mkNode t false es cs))%nat
  ∧ (i1 ≤ length es1)%nat
  ∧ (∀ e, (0 < i1)%nat → es1 !! (i1 - 1)%nat = Some e → key_lt k (key e) = false)
  ∧ (∀ e, es1 !! i1 = Some e → key_lt (key e) k = false).
Proof.
  intros Hshape Hc i Hcase.
  pose proof (scan_down_spec k es (length es) (le_n _)) as (Hi & Hup & Hdown).
  fold i in Hi, Hup, Hdown.
  destruct Hcase as [(-> & -> & -> & _)|(yt & yleaf & yes & ycs & mid & Hy & Hfull & Hmid & -> & -> & ->)].
  - repeat split; auto.
    intros e He. apply key_lt_asym. apply (Hup i); [|exact He].
    apply lookup_lt_Some in He. lia.
  - assert (Hsplit : split_child (mkNode t false es cs) i
      = mkNode t false (take i es ++ mid :: drop i es)
          (take i cs
           ++ mkNode yt yleaf (take (t - 1) yes) (if yleaf then ycs else take t ycs)
           :: mkNode yt yleaf (drop t yes) (if yleaf then [] else drop t ycs)
           :: drop (S i) cs)).
    { unfold split_child. rewrite Hy, Hmid. reflexivity. }
    rewrite <- Hsplit.
    split; [apply shape_ok_split_child; exact Hshape|].
    split; [apply btree_ok_split_child|].
    split; [apply tree_entries_split_child; [exact Hshape | exact Hi]|].
    split; [apply height_split_child|].
    assert (Hlt : (length (take i es) = i)%nat) by (rewrite length_take; lia).
    split; [|split].
    + rewrite length_app. simpl. rewrite length_drop. destruct (key_lt (key mid) k); lia.
    + intros e H0 He. destruct (key_lt (key mid) k) eqn:Hk.
      * replace (S i - 1)%nat with i in He by lia.
        rewrite lookup_app_r in He by lia. rewrite Hlt in He.
        replace (i - i)%nat with 0%nat in He by lia. simpl in He. simplify_eq.
        apply key_lt_asym. exact Hk.
      * rewrite lookup_app_l in He by lia. rewrite lookup_take_lt in He by lia.
        apply Hdown; [exact H0 | exact He].
    + intros e He. destruct (key_lt (key mid) k) eqn:Hk.
      * rewrite lookup_app_r in He by lia. rewrite Hlt in He.
        replace (S i - i)%nat with 1%nat in He by lia. simpl in He.
        rewrite lookup_drop in He. replace (i + 0)%nat with i in He by lia.
        apply key_lt_asym. apply (Hup i); [|exact He]. apply lookup_lt_Some in He. lia.
      * rewrite lookup_app_r in He by lia. rewrite Hlt in He.
        replace (i - i)%nat with 0%nat in He by lia. simpl in He. simplify_eq. exact Hk.
Qed.


(** * [insert_non_full] and the sequence of records *)

Lemma insert_leaf_bounds k es :
  StronglySorted entry_lt es →
  Forall (le_key k) (take (scan_down k es (length es)) es)
  ∧ Forall (ge_key k) (drop (scan_down k es (length es)) es).
Proof.
  intros Hs. pose proof (scan_down_spec k es (length es) (le_n _)) as (Hi & Hup & Hdown).
  set (p := scan_down k es (length es)) in *. split.
  - destruct p as [|q] eqn:Ep; [constructor|].
    destruct (lookup_lt_is_Some_2 es q) as [e He]; [lia|].
    rewrite (take_S_r es q e He). apply sorted_before_bound.
    + rewrite <- (take_S_r es q e He). rewrite <- (take_drop (S q) es) in Hs.
      eapply StronglySorted_app_1_l. exact Hs.
    + apply Hdown; [lia|]. replace (S q - 1)%nat with q by lia. exact He.
  - apply Forall_lookup_2. intros j e He. rewrite lookup_drop in He.
    apply key_lt_asym. apply (Hup (p + j)%nat); [|exact He].
    apply lookup_lt_Some in He. lia.
Qed.

Lemma insert_non_full_entries fuel n k v :
  shape_ok n → (height n ≤ fuel)%nat →
  shape_ok (insert_non_full fuel n k v)
  ∧ (btree_okb n = true → btree_okb (insert_non_full fuel n k v) = true)
  ∧ ∃ l1 l2, tree_entries n = l1 ++ l2
      ∧ tree_entries (insert_non_full fuel n k v) = l1 ++ mkEntry k v :: l2
      ∧ (btree_okb n = true → StronglySorted entry_lt (tree_entries n) →
         Forall (le_key k) l1 ∧ Forall (ge_key k) l2).
Proof.
  revert n. induction fuel as [|fuel IH]; intros [t lf es cs] Hshape Hh.
  - (* no fuel: the node has no children *)
    destruct lf.
    + rewrite insert_non_full_leaf. split; [|split].
      * apply shape_ok_node in Hshape as [Ht _]. apply shape_ok_node. split; [exact Ht | discriminate].
      * intros H. apply btree_ok_node in H as [Ht _]. apply btree_ok_node.
        split; [exact Ht | discriminate].
      * exists (take (scan_down k es (length es)) es), (drop (scan_down k es (length es)) es).
        split; [simpl; rewrite take_drop; reflexivity|]. split; [reflexivity|].
        intros _ Hs. apply insert_leaf_bounds. exact Hs.
    + apply shape_ok_node in Hshape as [_ H]. destruct (H eq_refl) as [Hlen _].
      destruct cs as [|c cs]; [simpl in Hlen; lia|]. simpl in Hh. lia.
  - destruct lf.
    + rewrite insert_non_full_leaf. split; [|split].
      * apply shape_ok_node in Hshape as [Ht _]. apply shape_ok_node. split; [exact Ht | discriminate].
      * intros H. apply btree_ok_node in H as [Ht _]. apply btree_ok_node.
        split; [exact Ht | discriminate].
      * exists (take (scan_down k es (length es)) es), (drop (scan_down k es (length es)) es).
        split; [simpl; rewrite take_drop; reflexivity|]. split; [reflexivity|].
        intros _ Hs. apply insert_leaf_bounds. exact Hs.
    + destruct (insert_non_full_step fuel t es cs k v Hshape)
        as (es1 & cs1 & i1 & c & Heq & Hc & Hcase).
      destruct (insert_non_full_step_facts t es cs k es1 cs1 i1 c Hshape Hc Hcase)
        as (Hshape1 & Hbt1 & Hte1 & Hh1 & Hi1 & Hlo & Hhi).
      rewrite Heq. clear Heq Hcase.
      pose proof Hshape1 as Hs1. apply shape_ok_node in Hs1 as (Ht & H).
      destruct (H eq_refl) as [Hlen1 Hcs1]. clear H.
      assert (Hch : (height c ≤ fuel)%nat).
      { pose proof (height_child c t false es1 cs1 (list_elem_of_lookup_2 _ _ _ Hc)). lia. }
      destruct (IH c (Forall_lookup_1 _ _ _ _ Hcs1 Hc) Hch) as (IHs & IHb & a & b & Ea & Eb & IHbound).
      rewrite (alter_insert_lookup _ _ _ _ Hc).
      split; [|split].
      * apply shape_ok_node. split; [exact Ht|]. intros _. rewrite length_insert.
        split; [exact Hlen1|]. apply Forall_insert; assumption.
      * intros Hb. specialize (Hbt1 Hb). apply btree_ok_node in Hbt1 as (_ & H).
        destruct (H eq_refl) as [Hl Hf]. apply btree_ok_node. split; [exact Ht|]. intros _.
        rewrite length_insert. split; [exact Hl|]. apply Forall_insert; [exact Hf|].
        apply IHb. exact (Forall_lookup_1 _ _ _ _ Hf Hc).
      * rewrite <- Hte1. simpl tree_entries. rewrite list_fmap_insert.
        assert (Hc' : (tree_entries <$> cs1) !! i1 = Some (tree_entries c))
          by (rewrite list_lookup_fmap, Hc; reflexivity).
        rewrite (interleave_at _ es1 i1 _ Hc' Hi1).
        rewrite (interleave_at (<[i1 := _]> _) es1 i1 (tree_entries (insert_non_full fuel c k v))).
        2: { apply list_lookup_insert_eq. apply lookup_lt_Some in Hc'. exact Hc'. }
        2: exact Hi1.
        rewrite interleave_before_insert, interleave_after_insert.
        set (Bf := interleave_before (tree_entries <$> cs1) es1 i1).
        set (Af := interleave_after (tree_entries <$> cs1) es1 i1).
        exists (Bf ++ a), (b ++ Af). split; [rewrite Ea, <- !app_assoc; reflexivity|].
        split; [rewrite Eb, <- !app_assoc; reflexivity|].
        intros Hb Hsorted. specialize (Hbt1 Hb).
        apply btree_ok_node in Hbt1 as (_ & H). destruct (H eq_refl) as [Hl Hf]. clear H.
        destruct IHbound as [IHa IHb'].
        { exact (Forall_lookup_1 _ _ _ _ Hf Hc). }
        { apply StronglySorted_app_1_r in Hsorted. apply StronglySorted_app_1_l in Hsorted.
          exact Hsorted. }
        split; apply Forall_app; split; try assumption.
        -- destruct (decide (i1 = 0%nat)) as [->|Hne]; [constructor|].
           destruct (interleave_before_last (tree_entries <$> cs1) es1 i1)
             as (B & e & EB & He); [lia | lia | rewrite length_fmap; lia|].
           fold Bf in EB. rewrite EB. apply sorted_before_bound.
           ++ rewrite <- EB. eapply StronglySorted_app_1_l. exact Hsorted.
           ++ apply Hlo; [lia | exact He].
        -- pose proof (interleave_after_head (tree_entries <$> cs1) es1 i1) as Hhead.
           rewrite length_fmap in Hhead. specialize (Hhead Hl). fold Af in Hhead.
           destruct (es1 !! i1) as [e|] eqn:He.
           ++ destruct Hhead as [A EA]. rewrite EA. apply sorted_after_bound.
              ** rewrite <- EA. apply StronglySorted_app_1_r in Hsorted.
                 apply StronglySorted_app_1_r in Hsorted. exact Hsorted.
              ** apply Hhi. reflexivity.
           ++ rewrite Hhead. constructor.
Qed.


(** * [_insert] *)

Lemma _insert_unfold root k v :
  _insert root k v =
  if bool_decide (length (entries root) = (2 * node_t root - 1)%nat)
  then insert_non_full (S (height root)) (mkNode (node_t root) false [] [root]) k v
  else insert_non_full (height root) root k v.
Proof.
  unfold _insert. case_bool_decide as Hfull; [|reflexivity].
  rewrite insert_non_full_internal. cbv zeta. simpl scan_down. simpl apply_nth.
  rewrite bool_decide_true by exact Hfull.
  destruct (split_child_shape (node_t root) [] [root] 0) as (es1 & cs1 & ->).
  reflexivity.
Qed.

Lemma _insert_entries root k v :
  shape_ok root →
  shape_ok (_insert root k v)
  ∧ (btree_okb root = true → btree_okb (_insert root k v) = true)
  ∧ ∃ l1 l2, tree_entries root = l1 ++ l2
      ∧ tree_entries (_insert root k v) = l1 ++ mkEntry k v :: l2
      ∧ (btree_okb root = true → StronglySorted entry_lt (tree_entries root) →
         Forall (le_key k) l1 ∧ Forall (ge_key k) l2).
Proof.
  intros Hshape. rewrite _insert_unfold. case_bool_decide as Hfull.
  - set (n0 := mkNode (node_t root) false [] [root]).
    assert (Ht : (1 ≤ node_t root)%nat).
    { destruct root as [t lf es cs]. apply shape_ok_node in Hshape as [Ht _]. exact Ht. }
    assert (Hs0 : shape_ok n0).
    { apply shape_ok_node. split; [exact Ht|]. intros _. simpl. split; [lia|].
      constructor; [exact Hshape | constructor]. }
    assert (Hte0 : tree_entries n0 = tree_entries root).
    { simpl. rewrite app_nil_r. reflexivity. }
    assert (Hh0 : (height n0 ≤ S (height root))%nat) by (simpl; lia).
    destruct (insert_non_full_entries (S (height root)) n0 k v Hs0 Hh0)
      as (H1 & H2 & l1 & l2 & E1 & E2 & H3).
    split; [exact H1|]. split.
    + intros Hb. apply H2. apply btree_ok_node. split; [exact Ht|]. intros _.
      split; [reflexivity|]. constructor; [exact Hb | constructor].
    + exists l1, l2. rewrite <- Hte0. split; [exact E1|]. split; [exact E2|].
      intros Hb Hs. apply H3; [|exact Hs]. apply btree_ok_node. split; [exact Ht|]. intros _.
      split; [reflexivity|]. constructor; [exact Hb | constructor].
  - apply insert_non_full_entries; [exact Hshape | lia].
Qed.

(** * Where a key can be in a sorted node *)

Lemma sorted_before_lt (B : list BTreeEntry) e k :
  StronglySorted entry_lt (B ++ [e]) → key_lt (key e) k = true →
  Forall (lt_key k) (B ++ [e]).
Proof.
  intros Hs Hk. apply Forall_app. split; [|constructor; [exact Hk | constructor]].
  apply Forall_forall. intros x Hx.
  assert (Hlt : entry_lt x e).
  { eapply StronglySorted_app_1_elem_of; [exact Hs | exact Hx | apply list_elem_of_here]. }
  exact (key_lt_trans _ _ _ Hlt Hk).
Qed.

Lemma sorted_after_gt (A : list BTreeEntry) e k :
  StronglySorted entry_lt (e :: A) → key_lt (key e) k = false →
  Forall (gt_key k) A.
Proof.
  intros Hs Hk. apply StronglySorted_cons in Hs as [Hall _].
  eapply Forall_impl; [exact Hall|]. intros x Hlt. unfold gt_key.
  eapply key_le_lt_trans; [exact Hk | exact Hlt].
Qed.

(** In a sorted internal node the scan selects the only child that can hold
    the key: everything in front of it is smaller, the entry behind it is
    not smaller, and everything after that entry is greater. *)
Lemma node_key_position t es cs k :
  btree_okb (mkNode t false es cs) = true →
  StronglySorted entry_lt (tree_entries (mkNode t false es cs)) →
  ∃ c Bf Af,
    cs !! scan_up k es = Some c
    ∧ tree_entries (mkNode t false es cs) = Bf ++ tree_entries c ++ Af
    ∧ Bf = interleave_before (tree_entries <$> cs) es (scan_up k es)
    ∧ Af = interleave_after (tree_entries <$> cs) es (scan_up k es)
    ∧ Forall (lt_key k) Bf
    ∧ btree_okb c = true
    ∧ StronglySorted entry_lt (tree_entries c)
    ∧ match es !! scan_up k es with
      | Some e => key_lt (key e) k = false ∧ ∃ A, Af = e :: A ∧ Forall (gt_key k) A
      | None => Af = []
      end.
Proof.
  intros Hb Hs. pose proof (scan_up_spec k es) as (Hq & Hlo & Hhi).
  set (q := scan_up k es) in *.
  apply btree_ok_node in Hb as (Ht & H). destruct (H eq_refl) as [Hlen Hcs]. clear H.
  destruct (lookup_lt_is_Some_2 cs q) as [c Hc]; [lia|].
  assert (Hc' : (tree_entries <$> cs) !! q = Some (tree_entries c))
    by (rewrite list_lookup_fmap, Hc; reflexivity).
  simpl tree_entries in *. rewrite (interleave_at _ es q _ Hc' Hq) in Hs.
  exists c, (interleave_before (tree_entries <$> cs) es q),
    (interleave_after (tree_entries <$> cs) es q).
  split; [exact Hc|]. split; [apply interleave_at; assumption|].
  split; [reflexivity|]. split; [reflexivity|]. split; [|split; [|split]].
  - destruct (decide (q = 0%nat)) as [E|Hne]; [rewrite E; constructor|].
    destruct (interleave_before_last (tree_entries <$> cs) es q)
      as (B & e & EB & He); [lia | lia | rewrite length_fmap; lia|].
    rewrite EB. apply sorted_before_lt.
    + rewrite <- EB. eapply StronglySorted_app_1_l. exact Hs.
    + apply (Hlo (q - 1)%nat); [lia | exact He].
  - exact (Forall_lookup_1 _ _ _ _ Hcs Hc).
  - apply StronglySorted_app_1_r in Hs. apply StronglySorted_app_1_l in Hs. exact Hs.
  - pose proof (interleave_after_head (tree_entries <$> cs) es q) as Hhead.
    rewrite length_fmap in Hhead. specialize (Hhead Hlen).
    destruct (es !! q) as [e|] eqn:He; [|exact Hhead].
    destruct Hhead as [A EA]. split; [apply Hhi; reflexivity|].
    exists A. split; [exact EA|]. apply (sorted_after_gt A e).
    + rewrite <- EA. apply StronglySorted_app_1_r in Hs.
      apply StronglySorted_app_1_r in Hs. exact Hs.
    + apply Hhi. reflexivity.
Qed.


(** * [search] and [find_leaf] *)

Lemma lt_key_ne k e : lt_key k e → key e ≠ k.
Proof. unfold lt_key. intros H E. rewrite E, key_lt_irrefl in H. discriminate. Qed.

Lemma gt_key_ne k e : gt_key k e → key e ≠ k.
Proof. unfold gt_key. intros H E. rewrite E, key_lt_irrefl in H. discriminate. Qed.

Lemma leaf_key_position k es :
  StronglySorted entry_lt es →
  Forall (lt_key k) (take (scan_up k es) es)
  ∧ match es !! scan_up k es with
    | Some e => key_lt (key e) k = false ∧ Forall (gt_key k) (drop (S (scan_up k es)) es)
    | None => drop (scan_up k es) es = []
    end.
Proof.
  intros Hs. pose proof (scan_up_spec k es) as (Hq & Hlo & Hhi).
  set (q := scan_up k es) in *. split.
  - apply Forall_lookup_2. intros j e He. apply lookup_take_Some in He as [He Hj].
    apply (Hlo j); assumption.
  - destruct (es !! q) as [e|] eqn:He.
    + split; [apply Hhi; reflexivity|]. apply (sorted_after_gt _ e); [|apply Hhi; reflexivity].
      rewrite <- (drop_S es e q He). rewrite <- (take_drop q es) in Hs.
      eapply StronglySorted_app_1_r. exact Hs.
    + apply drop_ge. apply lookup_ge_None. exact He.
Qed.

(** Under well-formedness a failed [search] means that no record has the key. *)
Lemma search_None_fresh n k :
  btree_okb n = true → StronglySorted entry_lt (tree_entries n) →
  search n k = None → Forall (λ e, key e ≠ k) (tree_entries n).
Proof.
  induction n as [t lf es cs IH] using BTreeNode_children_ind. intros Hb Hs Hsearch.
  destruct lf.
  - simpl in *. destruct (leaf_key_position k es Hs) as [Hlt Hrest].
    rewrite <- (take_drop (scan_up k es) es). apply Forall_app. split.
    + eapply Forall_impl; [exact Hlt|]. intros e. apply lt_key_ne.
    + destruct (es !! scan_up k es) as [e|] eqn:He.
      * rewrite (drop_S es e _ He). destruct Hrest as [_ Hgt].
        destruct (key_eq k (key e)) eqn:Ek; [discriminate|].
        apply key_eq_false in Ek. constructor; [congruence|].
        eapply Forall_impl; [exact Hgt|]. intros e'. apply gt_key_ne.
      * rewrite Hrest. constructor.
  - destruct (node_key_position t es cs k Hb Hs)
      as (c & Bf & Af & Hc & Hte & _ & _ & HBf & Hcb & Hcs & HAf).
    rewrite Hte. simpl in Hsearch. rewrite apply_nth_lookup, Hc in Hsearch.
    apply Forall_app. split; [|apply Forall_app; split].
    + eapply Forall_impl; [exact HBf|]. intros e. apply lt_key_ne.
    + eapply Forall_lookup_1 in IH; [|exact Hc]. apply IH; [exact Hcb | exact Hcs|].
      destruct (es !! scan_up k es) as [e|]; [|exact Hsearch].
      destruct (key_eq k (key e)); [discriminate | exact Hsearch].
    + destruct (es !! scan_up k es) as [e|] eqn:He.
      * destruct HAf as (_ & A & -> & Hgt).
        destruct (key_eq k (key e)) eqn:Ek; [discriminate|].
        apply key_eq_false in Ek. constructor; [congruence|].
        eapply Forall_impl; [exact Hgt|]. intros e'. apply gt_key_ne.
      * rewrite HAf. constructor.
Qed.

Lemma collect_leaves_child_lookup cs q c li' :
  cs !! q = Some c → (li' < leaf_count c)%nat →
  concat (collect_leaves <$> cs) !! (length (concat (collect_leaves <$> take q cs)) + li')%nat
  = collect_leaves c !! li'.
Proof.
  intros Hc Hli. set (off := length (concat (collect_leaves <$> take q cs))).
  assert (Hoff : off = length (concat (collect_leaves <$> take q cs))) by reflexivity.
  clearbody off. rewrite <- (take_drop_middle cs q c Hc).
  rewrite fmap_app, concat_app, lookup_app_r by lia.
  replace (off + li' - length (concat (collect_leaves <$> take q cs)))%nat with li' by lia.
  rewrite fmap_cons. simpl. rewrite lookup_app_l by exact Hli. reflexivity.
Qed.

(** The record [find_leaf] locates. *)
Lemma find_leaf_entry n k li pos :
  find_leaf n k = Some (li, pos) →
  ∃ e, entry_at (collect_leaves n) li pos = Some e ∧ key e = k.
Proof.
  revert li. induction n as [t lf es cs IH] using BTreeNode_children_ind. intros li Hf.
  simpl in Hf. destruct lf.
  - destruct (es !! scan_up k es) as [e|] eqn:He; [|discriminate].
    destruct (key_eq k (key e)) eqn:Ek; [|discriminate]. simplify_eq.
    apply key_eq_true in Ek. exists e. split; [|congruence]. exact He.
  - rewrite apply_nth_lookup in Hf.
    destruct (cs !! scan_up k es) as [c|] eqn:Hc; [|discriminate].
    destruct (find_leaf c k) as [[li' pos']|] eqn:Hfc; [|discriminate]. simplify_eq.
    eapply Forall_lookup_1 in IH; [|exact Hc]. destruct (IH _ Hfc) as (e & He & Hk).
    exists e. split; [|exact Hk]. unfold entry_at in *. simpl.
    rewrite (collect_leaves_child_lookup cs _ c li' Hc); [exact He|].
    destruct (collect_leaves c !! li') eqn:E; [|discriminate].
    apply lookup_lt_Some in E. exact E.
Qed.


(** * Operations that only look at keys *)

Lemma scan_up_strip k es : scan_up k (strip_value <$> es) = scan_up k es.
Proof.
  induction es as [|e es IH]; [reflexivity|]. rewrite fmap_cons. simpl.
  rewrite IH. reflexivity.
Qed.

Lemma collect_leaves_key_shape n :
  collect_leaves (key_shape n) = strip_list <$> collect_leaves n.
Proof.
  induction n as [t lf es cs IH] using BTreeNode_children_ind. simpl. destruct lf.
  - reflexivity.
  - induction cs as [|c cs IHcs]; [reflexivity|]. inversion IH as [|? ? Hc Hcs]; subst.
    rewrite !fmap_cons. simpl. rewrite fmap_app, Hc, IHcs by exact Hcs. reflexivity.
Qed.

Lemma leaf_count_key_shape n : leaf_count (key_shape n) = leaf_count n.
Proof. unfold leaf_count. rewrite collect_leaves_key_shape, length_fmap. reflexivity. Qed.

Lemma find_leaf_key_shape n k : find_leaf (key_shape n) k = find_leaf n k.
Proof.
  induction n as [t lf es cs IH] using BTreeNode_children_ind. simpl.
  rewrite scan_up_strip. destruct lf.
  - rewrite list_lookup_fmap. destruct (es !! scan_up k es) as [e|]; reflexivity.
  - rewrite !apply_nth_lookup, list_lookup_fmap.
    destruct (cs !! scan_up k es) as [c|] eqn:Hc; [|reflexivity]. simpl.
    eapply Forall_lookup_1 in IH; [|exact Hc]. rewrite IH.
    destruct (find_leaf c k) as [[li pos]|]; [|reflexivity].
    rewrite <- fmap_take. f_equal. f_equal. f_equal.
    change (leaf_count (mkNode t false [] (key_shape <$> take (scan_up k es) cs))
            = leaf_count (mkNode t false [] (take (scan_up k es) cs))).
    change (mkNode t false [] (key_shape <$> take (scan_up k es) cs))
      with (key_shape (mkNode t false [] (take (scan_up k es) cs))).
    apply leaf_count_key_shape.
Qed.

Lemma tree_entries_key_shape n :
  tree_entries (key_shape n) = strip_value <$> tree_entries n.
Proof.
  induction n as [t lf es cs IH] using BTreeNode_children_ind. simpl. destruct lf.
  - reflexivity.
  - assert (Hcs : tree_entries <$> (key_shape <$> cs) = strip_list <$> (tree_entries <$> cs)).
    { induction cs as [|c cs IHcs]; [reflexivity|]. inversion IH as [|? ? Hc Hcs]; subst.
      rewrite !fmap_cons, Hc, IHcs by exact Hcs. reflexivity. }
    rewrite Hcs. clear. generalize (tree_entries <$> cs). intros ls. revert es.
    induction ls as [|l ls IHls]; intros es; simpl; [reflexivity|].
    rewrite fmap_app. f_equal. destruct es as [|e es]; simpl.
    + clear. induction ls as [|l' ls IH]; [reflexivity|]. simpl. rewrite fmap_app, IH. reflexivity.
    + rewrite IHls. reflexivity.
Qed.

Lemma keys_key_shape n : key <$> tree_entries (key_shape n) = key <$> tree_entries n.
Proof.
  rewrite tree_entries_key_shape, <- list_fmap_compose. reflexivity.
Qed.

Lemma btree_okb_key_shape n : btree_okb (key_shape n) = btree_okb n.
Proof.
  induction n as [t lf es cs IH] using BTreeNode_children_ind.
  change (key_shape (mkNode t lf es cs))
    with (mkNode t lf (strip_value <$> es) (key_shape <$> cs)).
  rewrite !btree_okb_node, !length_fmap. f_equal. f_equal. f_equal.
  induction cs as [|c cs IHcs]; [reflexivity|]. inversion IH as [|? ? Hc Hcs]; subst.
  rewrite fmap_cons. simpl. rewrite Hc, IHcs by exact Hcs. reflexivity.
Qed.

Lemma well_formedb_key_shape n : well_formedb (key_shape n) = well_formedb n.
Proof. unfold well_formedb. rewrite btree_okb_key_shape, keys_key_shape. reflexivity. Qed.

(** Updates of values keep the keys and the shape. *)
Lemma key_shape_alter_search f n k : key_shape (alter_search f n k) = key_shape n.
Proof.
  induction n as [t lf es cs IH] using BTreeNode_children_ind. simpl.
  assert (Hdesc : key_shape (if lf then mkNode t lf es cs
      else mkNode t lf es (alter (λ c, alter_search f c k) (scan_up k es) cs))
    = key_shape (mkNode t lf es cs)).
  { destruct lf; [reflexivity|]. simpl. f_equal.
    apply list_eq. intros j. rewrite !list_lookup_fmap.
    destruct (decide (scan_up k es = j)) as [<-|Hne].
    - rewrite list_lookup_alter_eq. destruct (cs !! scan_up k es) as [c|] eqn:Hc; [|reflexivity].
      simpl. f_equal. eapply Forall_lookup_1 in IH; [|exact Hc]. exact IH.
    - rewrite list_lookup_alter_ne by exact Hne. reflexivity. }
  destruct (es !! scan_up k es) as [e|] eqn:He; [|exact Hdesc].
  destruct (key_eq k (key e)); [|exact Hdesc].
  simpl. f_equal. rewrite list_fmap_insert. apply list_insert_id.
  rewrite list_lookup_fmap, He. reflexivity.
Qed.

Lemma key_shape_alter_leaf f li n :
  (∀ es, key <$> f es = key <$> es) →
  key_shape (alter_leaf f li n) = key_shape n.
Proof.
  intros Hf. revert li. induction n as [t lf es cs IH] using BTreeNode_children_ind.
  intros li. simpl. destruct lf.
  - destruct li; [|reflexivity]. simpl. f_equal.
    pose proof (Hf es) as H. apply list_eq. intros j.
    apply (f_equal (λ l, l !! j)) in H. rewrite !list_lookup_fmap in *.
    unfold strip_value. destruct (f es !! j), (es !! j); simpl in *; congruence.
  - simpl. f_equal. revert li. induction cs as [|c cs IHcs]; intros li; [reflexivity|].
    inversion IH as [|? ? Hc Hcs]; subst. simpl.
    destruct (li <? leaf_count c)%nat; rewrite !fmap_cons; f_equal; auto.
Qed.

Lemma key_shape_set_value_at li pos v n : key_shape (set_value_at li pos v n) = key_shape n.
Proof.
  apply key_shape_alter_leaf. intros es. apply list_eq. intros j.
  rewrite !list_lookup_fmap. destruct (decide (pos = j)) as [->|Hne].
  - rewrite list_lookup_alter_eq. destruct (es !! j); reflexivity.
  - rewrite list_lookup_alter_ne by exact Hne. reflexivity.
Qed.


(** * The path to a key in a well-formed tree *)

Lemma StronglySorted_sublist {A} (R : relation A) (l1 l2 : list A) :
  l1 `sublist_of` l2 → StronglySorted R l2 → StronglySorted R l1.
Proof.
  induction 1 as [|x l1 l2 Hsub IH|x l1 l2 Hsub IH]; intros Hs.
  - constructor.
  - apply StronglySorted_cons in Hs as [Hall Hs]. constructor; [apply IH; exact Hs|].
    apply Forall_forall. intros y Hy. rewrite Forall_forall in Hall. apply Hall.
    eapply elem_of_sublist; eauto.
  - apply StronglySorted_cons in Hs as [_ Hs]. apply IH. exact Hs.
Qed.

Lemma entries_sublist_interleave (cs : list (list BTreeEntry)) es :
  es `sublist_of` interleave cs es.
Proof.
  revert es. induction cs as [|c cs IH]; intros es; simpl; [reflexivity|].
  apply sublist_inserts_l. destruct es as [|e es]; [apply sublist_nil_l|].
  apply sublist_skip. apply IH.
Qed.

Lemma node_entries_sorted t es cs :
  StronglySorted entry_lt (tree_entries (mkNode t false es cs)) → StronglySorted entry_lt es.
Proof. apply StronglySorted_sublist. simpl. apply entries_sublist_interleave. Qed.

Lemma key_index_scan_up k es e :
  es !! scan_up k es = Some e → key e = k → key_index k es = Some (scan_up k es).
Proof.
  induction es as [|e0 es IH]; intros He Hk; [discriminate|]. simpl in *.
  destruct (key_lt (key e0) k) eqn:Hlt.
  - simpl in He. rewrite (IH He Hk). simpl.
    destruct (key_eq (key e0) k) eqn:E; [|reflexivity].
    apply key_eq_true in E. rewrite E, key_lt_irrefl in Hlt. discriminate.
  - simpl in He. simplify_eq. unfold key_eq. rewrite bool_decide_true by reflexivity.
    reflexivity.
Qed.

Lemma key_index_None k es : Forall (λ e, key e ≠ k) es → key_index k es = None.
Proof.
  induction 1 as [|e es He Hes IH]; [reflexivity|]. simpl.
  rewrite IH. destruct (key_eq (key e) k) eqn:E; [|reflexivity].
  apply key_eq_true in E. contradiction.
Qed.

Lemma alter_leaf_children_offset g cs q c li' :
  cs !! q = Some c → (li' < leaf_count c)%nat →
  alter_leaf_children g cs (length (concat (collect_leaves <$> take q cs)) + li')
  = <[q := g li' c]> cs.
Proof.
  revert q. induction cs as [|c0 cs IH]; intros q Hc Hli; [discriminate|].
  destruct q as [|q].
  - simpl in *. simplify_eq. apply Nat.ltb_lt in Hli. rewrite Hli. reflexivity.
  - simpl in Hc. change (take (S q) (c0 :: cs)) with (c0 :: take q cs).
    rewrite fmap_cons. simpl concat. rewrite length_app. fold (leaf_count c0).
    simpl alter_leaf_children.
    destruct (_ <? leaf_count c0)%nat eqn:E; [apply Nat.ltb_lt in E; lia|].
    simpl. f_equal. rewrite <- (IH q Hc Hli). f_equal. lia.
Qed.

Lemma entry_at_in_tree n li pos e :
  entry_at (collect_leaves n) li pos = Some e → e ∈ tree_entries n.
Proof.
  intros He. destruct (tree_entries_set_value_at n li pos e He) as (l1 & l2 & -> & _).
  apply elem_of_app. right. apply list_elem_of_here.
Qed.

(** For a key that [find_leaf] locates in a well-formed tree, [search]
    returns the value of that very record, a write through the pointer that
    [search] returns is a write to that position of the leaf, and
    [_remove_entry] erases that position. *)
Lemma wf_located n k li pos :
  btree_okb n = true → StronglySorted entry_lt (tree_entries n) →
  find_leaf n k = Some (li, pos) →
  ∃ e, entry_at (collect_leaves n) li pos = Some e ∧ key e = k
       ∧ search n k = Some (value e)
       ∧ (∀ f, alter_search f n k = set_value_at li pos (f (value e)) n)
       ∧ remove_from_node n k = alter_leaf (delete pos) li n.
Proof.
  revert li. induction n as [t lf es cs IH] using BTreeNode_children_ind.
  intros li Hb Hs Hf. destruct lf.
  - simpl in Hf. destruct (es !! scan_up k es) as [e|] eqn:He; [|discriminate].
    destruct (key_eq k (key e)) eqn:Ek; [|discriminate]. simplify_eq.
    pose proof Ek as Ek'. apply key_eq_true in Ek'. subst k.
    exists e. split; [exact He|]. split; [reflexivity|]. split; [|split].
    + simpl. rewrite He, Ek. reflexivity.
    + intros f. unfold set_value_at. simpl. rewrite He, Ek. f_equal.
      rewrite (alter_insert_lookup _ _ _ _ He). reflexivity.
    + simpl. rewrite (key_index_scan_up _ _ e He eq_refl). reflexivity.
  - destruct (node_key_position t es cs k Hb Hs)
      as (c & Bf & Af & Hc & Hte & _ & _ & HBf & Hcb & Hcs & HAf).
    simpl in Hf. rewrite apply_nth_lookup, Hc in Hf.
    destruct (find_leaf c k) as [[li' pos']|] eqn:Hfc; [|discriminate]. simplify_eq.
    eapply Forall_lookup_1 in IH; [|exact Hc].
    destruct (IH li' Hcb Hcs Hfc) as (e & He & Hk & Hsearch & Halter & Hremove).
    assert (Hli' : (li' < leaf_count c)%nat).
    { unfold entry_at in He. destruct (collect_leaves c !! li') eqn:E; [|discriminate].
      apply lookup_lt_Some in E. exact E. }
    pose proof (entry_at_in_tree c li' pos e He) as Hin.
    (* no entry of this node carries the key *)
    assert (Hq : ∀ eq, es !! scan_up k es = Some eq → key_eq k (key eq) = false).
    { intros eq Heq. rewrite Heq in HAf. destruct HAf as (_ & A & EA & _).
      rewrite Hte, EA in Hs. apply StronglySorted_app_1_r in Hs.
      assert (Hlt : entry_lt e eq).
      { eapply StronglySorted_app_1_elem_of; [exact Hs | exact Hin | apply list_elem_of_here]. }
      apply key_eq_false. intros E. unfold entry_lt in Hlt.
      rewrite Hk, E, key_lt_irrefl in Hlt. discriminate. }
    assert (Hnone : key_index k es = None).
    { apply key_index_None. pose proof (node_entries_sorted _ _ _ Hs) as Hes.
      destruct (leaf_key_position k es Hes) as [Hlt Hrest].
      rewrite <- (take_drop (scan_up k es) es). apply Forall_app. split.
      - eapply Forall_impl; [exact Hlt|]. intros x. apply lt_key_ne.
      - destruct (es !! scan_up k es) as [eq|] eqn:Heq.
        + rewrite (drop_S es eq _ Heq). destruct Hrest as [_ Hgt].
          constructor; [specialize (Hq eq eq_refl); apply key_eq_false in Hq; congruence|].
          eapply Forall_impl; [exact Hgt|]. intros x. apply gt_key_ne.
        + rewrite Hrest. constructor. }
    exists e. split; [|split; [exact Hk|split; [|split]]].
    + unfold entry_at in *. simpl.
      rewrite (collect_leaves_child_lookup cs _ c li' Hc Hli'). exact He.
    + simpl. rewrite apply_nth_lookup, Hc.
      destruct (es !! scan_up k es) as [eq|] eqn:Heq; [|exact Hsearch].
      rewrite (Hq eq eq_refl). exact Hsearch.
    + intros f. unfold set_value_at. simpl.
      rewrite (alter_leaf_children_offset _ cs _ c li' Hc Hli').
      rewrite (alter_insert_lookup _ _ _ _ Hc), Halter.
      destruct (es !! scan_up k es) as [eq|] eqn:Heq; [rewrite (Hq eq eq_refl)|]; reflexivity.
    + simpl. rewrite Hnone.
      rewrite (alter_leaf_children_offset _ cs _ c li' Hc Hli').
      rewrite (alter_insert_lookup _ _ _ _ Hc), Hremove. reflexivity.
Qed.


(** * Well-formedness is kept by the mutations *)

Lemma well_formedb_iff n :
  well_formedb n = true ↔ btree_okb n = true ∧ StronglySorted entry_lt (tree_entries n).
Proof.
  unfold well_formedb. rewrite andb_true_iff, keys_ascending_sorted. reflexivity.
Qed.

Lemma well_formedb_same_keys n n' :
  key_shape n = key_shape n' → well_formedb n = true → well_formedb n' = true.
Proof.
  intros E H. rewrite <- well_formedb_key_shape, <- E, well_formedb_key_shape. exact H.
Qed.

Lemma well_formedb_alter_search f n k :
  well_formedb n = true → well_formedb (alter_search f n k) = true.
Proof. apply well_formedb_same_keys. symmetry. apply key_shape_alter_search. Qed.

Lemma well_formedb_set_value_at li pos v n :
  well_formedb n = true → well_formedb (set_value_at li pos v n) = true.
Proof. apply well_formedb_same_keys. symmetry. apply key_shape_set_value_at. Qed.

Lemma sorted_insert_fresh (l1 l2 : list BTreeEntry) k v :
  StronglySorted entry_lt (l1 ++ l2) →
  Forall (le_key k) l1 → Forall (ge_key k) l2 →
  Forall (λ e, key e ≠ k) (l1 ++ l2) →
  StronglySorted entry_lt (l1 ++ mkEntry k v :: l2).
Proof.
  intros Hs Hle Hge Hne. apply Forall_app in Hne as [Hne1 Hne2].
  assert (H1 : Forall (λ e, entry_lt e (mkEntry k v)) l1).
  { apply Forall_forall. intros e He. rewrite Forall_forall in Hle, Hne1.
    unfold entry_lt. simpl. destruct (key_lt (key e) k) eqn:E; [reflexivity|].
    exfalso. apply (Hne1 e He). apply key_lt_trichotomy; [exact E | apply Hle; exact He]. }
  assert (H2 : Forall (entry_lt (mkEntry k v)) l2).
  { apply Forall_forall. intros e He. rewrite Forall_forall in Hge, Hne2.
    unfold entry_lt. simpl. destruct (key_lt k (key e)) eqn:E; [reflexivity|].
    exfalso. apply (Hne2 e He). apply key_lt_trichotomy; [apply Hge; exact He | exact E]. }
  apply StronglySorted_app in Hs as (H12 & Hs1 & Hs2).
  apply StronglySorted_app. split; [|split; [exact Hs1|]].
  - intros x1 x2 Hx1 Hx2. apply elem_of_cons in Hx2 as [->|Hx2].
    + rewrite Forall_forall in H1. apply H1. exact Hx1.
    + apply H12; assumption.
  - constructor; assumption.
Qed.

Lemma well_formedb__insert root k v :
  well_formedb root = true → search root k = None →
  well_formedb (_insert root k v) = true.
Proof.
  intros Hwf Hsearch. apply well_formedb_iff in Hwf as [Hb Hs]. apply well_formedb_iff.
  destruct (_insert_entries root k v (btree_ok_shape_ok _ Hb))
    as (_ & Hb' & l1 & l2 & E1 & E2 & Hbound).
  split; [apply Hb'; exact Hb|]. rewrite E2.
  destruct (Hbound Hb Hs) as [Hle Hge].
  pose proof (search_None_fresh root k Hb Hs Hsearch) as Hfresh.
  rewrite E1 in Hs, Hfresh. apply sorted_insert_fresh; assumption.
Qed.

Lemma btree_okb_alter_leaf f li n : btree_okb (alter_leaf f li n) = btree_okb n.
Proof.
  revert li. induction n as [t lf es cs IH] using BTreeNode_children_ind. intros li.
  destruct lf.
  - simpl. destruct li; reflexivity.
  - change (alter_leaf f li (mkNode t false es cs))
      with (mkNode t false es (alter_leaf_children (λ l c, alter_leaf f l c) cs li)).
    rewrite !btree_okb_node. f_equal. simpl.
    assert (Hlen : ∀ li, length (alter_leaf_children (λ l c, alter_leaf f l c) cs li) = length cs).
    { clear. induction cs as [|c cs IHcs]; intros li; [reflexivity|]. simpl.
      destruct (li <? leaf_count c)%nat; simpl; [reflexivity|]. rewrite IHcs. reflexivity. }
    rewrite Hlen. f_equal. clear Hlen. revert li.
    induction cs as [|c cs IHcs]; intros li; [reflexivity|].
    inversion IH as [|? ? Hc Hcs]; subst. simpl.
    destruct (li <? leaf_count c)%nat; simpl; [rewrite Hc; reflexivity|].
    rewrite IHcs by exact Hcs. reflexivity.
Qed.

Lemma well_formedb_alter_leaf_delete pos li n :
  well_formedb n = true → well_formedb (alter_leaf (delete pos) li n) = true.
Proof.
  intros Hwf. apply well_formedb_iff in Hwf as [Hb Hs]. apply well_formedb_iff.
  rewrite btree_okb_alter_leaf. split; [exact Hb|].
  destruct (collect_leaves n !! li) as [es|] eqn:Hes.
  - destruct (tree_entries_alter_leaf n li es Hes) as (l1 & l2 & E1 & E2).
    rewrite E2. rewrite E1 in Hs. eapply StronglySorted_sublist; [|exact Hs].
    apply sublist_app; [reflexivity|]. apply sublist_app; [|reflexivity].
    apply sublist_delete.
  - rewrite alter_leaf_out_of_range; [exact Hs|].
    apply lookup_ge_None in Hes. exact Hes.
Qed.

Lemma well_formedb_remove_located n k :
  well_formedb n = true → is_Some (find_leaf n k) →
  well_formedb (remove_from_node n k) = true.
Proof.
  intros Hwf [[li pos] Hf]. pose proof Hwf as Hwf'.
  apply well_formedb_iff in Hwf' as [Hb Hs].
  destruct (wf_located n k li pos Hb Hs Hf) as (e & _ & _ & _ & _ & ->).
  apply well_formedb_alter_leaf_delete. exact Hwf.
Qed.

Lemma find_leaf_same_keys n n' k :
  key_shape n = key_shape n' → find_leaf n k = find_leaf n' k.
Proof. intros E. rewrite <- (find_leaf_key_shape n), E. apply find_leaf_key_shape. Qed.


Lemma well_formed_insert_entry idx l r d :
  well_formed idx → well_formed (insert_entry_for_validation idx l r d).2.
Proof.
  unfold well_formed, insert_entry_for_validation. intros H.
  set (root := match search (_root idx) l with Some _ => _ | None => _ end).
  assert (Hroot : well_formedb root = true).
  { unfold root. destruct (search (_root idx) l) eqn:Hs.
    - destruct (decide (d = OD)); [|exact H]. apply well_formedb_alter_search. exact H.
    - apply well_formedb__insert; assumption. }
  clearbody root. unfold _link_leaf_neighbors.
  destruct (find_leaf root l) as [[li pos]|]; [|exact Hroot].
  destruct (entry_at (collect_leaves root) li pos) as [e|] eqn:He; [|exact Hroot].
  destruct d.
  - destruct (decide _); simpl; apply well_formedb_set_value_at; exact Hroot.
  - destruct (predecessor_entry (collect_leaves root) li pos) as [[[pli ppos] pe]|]; simpl;
      repeat apply well_formedb_set_value_at; exact Hroot.
Qed.

Lemma well_formed_delete_entry idx l r d :
  well_formed idx → well_formed (delete_entry_for_validation idx l r d).2.
Proof.
  unfold well_formed, delete_entry_for_validation, _link_leaf_neighbors, _remove_entry.
  intros H.
  destruct (find_leaf (_root idx) l) as [[li pos]|] eqn:Hf; [|exact H].
  destruct (collect_leaves (_root idx) !! li) as [les|] eqn:Hles; [|exact H].
  destruct (entry_at (collect_leaves (_root idx)) li pos) as [e|] eqn:He; [|exact H].
  set (value1 := match r with [] => value e | rhs :: _ => _ end).
  assert (Hremove : ∀ root', key_shape root' = key_shape (_root idx) →
            well_formedb (remove_from_node root' l) = true).
  { intros root' E. apply well_formedb_remove_located.
    - eapply well_formedb_same_keys; [symmetry; exact E | exact H].
    - rewrite (find_leaf_same_keys root' (_root idx) l E), Hf. eauto. }
  destruct d.
  - destruct (decide (rhs_values value1 = ∅)); simpl.
    + apply Hremove. apply key_shape_set_value_at.
    + apply well_formedb_set_value_at. exact H.
  - destruct (decide (rhs_values value1 = ∅)); simpl.
    + set (p1 := if is_smallest_in_leaf les l && bool_decide (pos = 0%nat) then _ else _).
      assert (Hp1 : key_shape p1.2 = key_shape (_root idx)).
      { unfold p1. destruct (_ && _); [|simpl; apply key_shape_set_value_at].
        destruct (left_leaf_last (collect_leaves (_root idx)) li) as [[[lli lpos] le]|];
          simpl; rewrite ?key_shape_set_value_at; reflexivity. }
      destruct p1 as [fd1 root2]. simpl in Hp1.
      set (p2 := if is_largest_in_leaf les l && bool_decide (0 < pos)%nat then _ else _).
      assert (Hp2 : key_shape p2.2 = key_shape (_root idx)).
      { unfold p2. destruct (_ && _); [|simpl; exact Hp1].
        destruct (les !! (pos - 1)%nat) as [pe|]; simpl;
          rewrite ?key_shape_set_value_at; exact Hp1. }
      destruct p2 as [fd2 root3]. simpl in Hp2. simpl.
      apply Hremove. exact Hp2.
    + apply well_formedb_set_value_at. exact H.
Qed.

Lemma well_formed_apply_mutation idx m :
  well_formed idx → ¬ erases_internal_entry idx m → well_formed (apply_mutation idx m).
Proof.
  intros H Hm. destruct m as [l r d|l r d|l o n d|k f|k d|k|k]; simpl.
  - apply well_formed_insert_entry, H.
  - apply well_formed_delete_entry, H.
  - unfold update_entry_for_validation.
    pose proof (well_formed_delete_entry idx l o d H) as H1.
    destruct (delete_entry_for_validation idx l o d) as [dd idx1]. simpl in H1.
    pose proof (well_formed_insert_entry idx1 l n d H1) as H2.
    destruct (insert_entry_for_validation idx1 l n d) as [di idx2]. exact H2.
  - unfold set_right_neighbor_flag. destruct (search (_root idx) k); [|exact H].
    apply well_formedb_alter_search. exact H.
  - unfold recompute_local_violation_delta. destruct (search (_root idx) k); [|exact H].
    apply well_formedb_alter_search. exact H.
  - unfold insert_key. destruct (search (_root idx) k) eqn:Hs.
    + apply well_formedb_alter_search. exact H.
    + apply well_formedb__insert; assumption.
  - unfold remove_key. simpl in Hm. destruct (search (_root idx) k) as [v|] eqn:Hs; [|exact H].
    destruct (1 <? count v) eqn:Hc.
    + apply well_formedb_alter_search. exact H.
    + apply well_formedb_remove_located; [exact H|].
      destruct (find_leaf (_root idx) k) as [p|]; [eauto|].
      exfalso. apply Hm. split; [|reflexivity]. apply Z.ltb_ge in Hc. exact Hc.
Qed.

Lemma well_formed_run idx ms :
  well_formed idx → leaf_removals idx ms → well_formed (run idx ms).
Proof.
  revert idx. induction ms as [|m ms IH]; intros idx H Hms; [exact H|].
  destruct Hms as [Hm Hms]. apply IH; [|exact Hms].
  apply well_formed_apply_mutation; assumption.
Qed.

(** The walk over the leaves is a subsequence of the records in key order. *)
Lemma concat_sublist_interleave (cs : list (list BTreeEntry)) es :
  concat cs `sublist_of` interleave cs es.
Proof.
  revert es. induction cs as [|c cs IH]; intros es; simpl; [apply sublist_nil_l|].
  apply sublist_app; [reflexivity|]. destruct es as [|e es]; [reflexivity|].
  apply sublist_cons. apply IH.
Qed.

Lemma leaves_sublist_tree_entries n :
  concat (collect_leaves n) `sublist_of` tree_entries n.
Proof.
  induction n as [t lf es cs IH] using BTreeNode_children_ind. simpl. destruct lf.
  - simpl. rewrite app_nil_r. reflexivity.
  - etransitivity; [|apply concat_sublist_interleave].
    clear es. induction cs as [|c cs IHcs]; [reflexivity|].
    inversion IH as [|? ? Hc Hcs]; subst. rewrite !fmap_cons. simpl.
    rewrite concat_app. apply sublist_app; [exact Hc | apply IHcs; exact Hcs].
Qed.

Lemma sublist_fmap_key (l1 l2 : list BTreeEntry) :
  l1 `sublist_of` l2 → (key <$> l1) `sublist_of` (key <$> l2).
Proof.
  induction 1 as [|x l1 l2 Hsub IH|x l1 l2 Hsub IH]; rewrite ?fmap_cons.
  - constructor.
  - apply sublist_skip. exact IH.
  - apply sublist_cons. exact IH.
Qed.

(** C8 (amended). For an index that is a B-tree in key order, and after any
    run of public mutations from it in which no [remove_key] erases an entry
    of an internal node, the walk over the leaves visits keys in strictly
    ascending order, and the keys it visits are a subsequence of the keys of
    the index, which are in strictly ascending order too: the walk visits
    the keys stored in leaves and passes over those held by internal
    nodes. *)
Theorem leaf_walk_ascending idx ms :
  well_formed idx → leaf_removals idx ms →
  keys_ascending (leaf_walk_keys (run idx ms)) = true
  ∧ leaf_walk_keys (run idx ms) `sublist_of` all_keys (run idx ms)
  ∧ keys_ascending (all_keys (run idx ms)) = true.
Proof.
  intros H Hms. pose proof (well_formed_run idx ms H Hms) as Hwf.
  unfold well_formed in Hwf. apply well_formedb_iff in Hwf as [_ Hs].
  unfold leaf_walk_keys, all_keys, _link_leaf_neighbors.
  pose proof (leaves_sublist_tree_entries (_root (run idx ms))) as Hsub.
  split; [|split].
  - apply keys_ascending_sorted. eapply StronglySorted_sublist; [exact Hsub | exact Hs].
  - apply sublist_fmap_key. exact Hsub.
  - apply keys_ascending_sorted. exact Hs.
Qed.

Lemma leaf_walk_ascending_witness :
  well_formed empty_index
  ∧ leaf_removals empty_index (six_keys_ops ++ [RemoveKey [1]])
  ∧ keys_ascending (leaf_walk_keys (run empty_index (six_keys_ops ++ [RemoveKey [1]]))) = true
  ∧ leaf_walk_keys (run empty_index (six_keys_ops ++ [RemoveKey [1]]))
    `sublist_of` all_keys (run empty_index (six_keys_ops ++ [RemoveKey [1]]))
  ∧ keys_ascending (all_keys (run empty_index (six_keys_ops ++ [RemoveKey [1]]))) = true.
Proof.
  assert (H1 : well_formed empty_index) by reflexivity.
  assert (H2 : leaf_removals empty_index (six_keys_ops ++ [RemoveKey [1]])).
  { vm_compute. repeat split; intros Hx; try exact Hx. destruct Hx as [_ Hx]. discriminate Hx. }
  split; [exact H1|]. split; [exact H2|].
  exact (leaf_walk_ascending empty_index (six_keys_ops ++ [RemoveKey [1]]) H1 H2).
Defined.


(** * The records under the other tree operations *)

(** A write through the pointer of [search] changes the one record that
    [search] returns. *)
Lemma tree_entries_alter_search f n k :
  match search n k with
  | Some v =>
      ∃ l1 e l2, tree_entries n = l1 ++ e :: l2 ∧ key e = k ∧ value e = v
                 ∧ tree_entries (alter_search f n k) = l1 ++ mkEntry (key e) (f v) :: l2
  | None => alter_search f n k = n
  end.
Proof.
  induction n as [t lf es cs IH] using BTreeNode_children_ind.
  assert (Hdesc :
    match (if lf then None else apply_nth (λ c, search c k) None cs (scan_up k es)) with
    | Some v =>
        ∃ l1 e l2, tree_entries (mkNode t lf es cs) = l1 ++ e :: l2 ∧ key e = k ∧ value e = v
          ∧ tree_entries (if lf then mkNode t lf es cs
                          else mkNode t lf es (alter (λ c, alter_search f c k) (scan_up k es) cs))
            = l1 ++ mkEntry (key e) (f v) :: l2
    | None => (if lf then mkNode t lf es cs
               else mkNode t lf es (alter (λ c, alter_search f c k) (scan_up k es) cs))
              = mkNode t lf es cs
    end).
  { destruct lf; [reflexivity|]. rewrite apply_nth_lookup.
    destruct (cs !! scan_up k es) as [c|] eqn:Hc.
    - eapply Forall_lookup_1 in IH; [|exact Hc]. destruct (search c k) as [v|].
      + destruct IH as (l1 & e & l2 & E1 & Hk & Hv & E2).
        assert (Hc' : (tree_entries <$> cs) !! scan_up k es = Some (tree_entries c))
          by (rewrite list_lookup_fmap, Hc; reflexivity).
        destruct (interleave_child _ es _ _ Hc') as (k1 & k2 & F1 & F2).
        exists (k1 ++ l1), e, (l2 ++ k2). split; [|split; [exact Hk|split; [exact Hv|]]].
        * simpl. rewrite F1, E1, <- !app_assoc. reflexivity.
        * simpl. rewrite (alter_insert_lookup _ _ _ _ Hc), list_fmap_insert, F2, E2.
          rewrite <- !app_assoc. reflexivity.
      + f_equal. rewrite (alter_insert_lookup _ _ _ _ Hc), IH. apply list_insert_id. exact Hc.
    - f_equal. apply list_eq. intros j. destruct (decide (scan_up k es = j)) as [<-|Hne].
      + rewrite list_lookup_alter_eq, Hc. reflexivity.
      + rewrite list_lookup_alter_ne by exact Hne. reflexivity. }
  simpl. destruct (es !! scan_up k es) as [e|] eqn:He.
  - destruct (key_eq k (key e)) eqn:Ek.
    + apply key_eq_true in Ek. clear Hdesc.
      apply list_elem_of_split_length in He as (k1 & k2 & -> & Hlen).
      destruct lf.
      * exists k1, e, k2. split; [reflexivity|]. split; [congruence|]. split; [reflexivity|].
        simpl. rewrite Hlen, insert_app_r_alt by lia.
        replace (length k1 - length k1)%nat with 0%nat by lia. reflexivity.
      * pose proof (entries_sublist_interleave (tree_entries <$> cs) (k1 ++ e :: k2)) as Hsub.
        (* the entry sits somewhere in the interleaved sequence *)
        assert (∃ l1 l2, interleave (tree_entries <$> cs) (k1 ++ e :: k2) = l1 ++ e :: l2
                  ∧ ∀ e', interleave (tree_entries <$> cs) (k1 ++ e' :: k2) = l1 ++ e' :: l2)
          as (l1 & l2 & E1 & E2).
        { clear. generalize (tree_entries <$> cs). intros ls. revert ls.
          induction k1 as [|x k1 IHk]; intros ls.
          - destruct ls as [|c ls]; simpl.
            + exists [], k2. split; [reflexivity|]. intros e'. reflexivity.
            + exists c, (interleave ls k2). split; [reflexivity|]. intros e'. reflexivity.
          - destruct ls as [|c ls]; simpl.
            + exists (x :: k1), k2. split; [reflexivity|]. intros e'. reflexivity.
            + destruct (IHk ls) as (l1 & l2 & E1 & E2).
              exists (c ++ x :: l1), l2. split.
              * rewrite E1, <- app_assoc. reflexivity.
              * intros e'. rewrite E2, <- app_assoc. reflexivity. }
        exists l1, e, l2. split; [exact E1|]. split; [congruence|]. split; [reflexivity|].
        simpl. rewrite Hlen, insert_app_r_alt by lia.
        replace (length k1 - length k1)%nat with 0%nat by lia. simpl. apply E2.
    + exact Hdesc.
  - exact Hdesc.
Qed.

Lemma interleave_Permutation (cs : list (list BTreeEntry)) es :
  interleave cs es ≡ₚ es ++ concat cs.
Proof.
  revert es. induction cs as [|c cs IH]; intros es; simpl.
  - rewrite app_nil_r. reflexivity.
  - destruct es as [|e es]; simpl; [reflexivity|].
    rewrite IH. rewrite (Permutation_app_comm c (e :: es ++ concat cs)). simpl.
    constructor. rewrite <- !app_assoc. apply Permutation_app_head. apply Permutation_app_comm.
Qed.


(** The record at a position after a write to a position. *)
Lemma entry_at_set_value_at n li pos v li' pos' :
  entry_at (collect_leaves (set_value_at li pos v n)) li' pos'
  = if decide (li = li' ∧ pos = pos')
    then (λ e, mkEntry (key e) v) <$> entry_at (collect_leaves n) li pos
    else entry_at (collect_leaves n) li' pos'.
Proof.
  unfold entry_at, set_value_at. rewrite collect_leaves_alter_leaf.
  destruct (decide (li = li' ∧ pos = pos')) as [[<- <-]|Hne].
  - rewrite list_lookup_alter_eq. destruct (collect_leaves n !! li) as [es|]; [|reflexivity].
    simpl. rewrite list_lookup_alter_eq. reflexivity.
  - destruct (decide (li = li')) as [<-|Hli].
    + rewrite list_lookup_alter_eq. destruct (collect_leaves n !! li) as [es|]; [|reflexivity].
      simpl. rewrite list_lookup_alter_ne; [reflexivity|]. intros E. apply Hne. auto.
    + rewrite list_lookup_alter_ne by exact Hli. reflexivity.
Qed.

(** The shape is kept by every operation on the tree. *)
Lemma shape_okb_key_shape n : shape_okb (key_shape n) = shape_okb n.
Proof.
  induction n as [t lf es cs IH] using BTreeNode_children_ind.
  change (key_shape (mkNode t lf es cs))
    with (mkNode t lf (strip_value <$> es) (key_shape <$> cs)).
  rewrite !shape_okb_node, !length_fmap. f_equal. f_equal. f_equal.
  induction cs as [|c cs IHcs]; [reflexivity|]. inversion IH as [|? ? Hc Hcs]; subst.
  rewrite fmap_cons. simpl. rewrite Hc, IHcs by exact Hcs. reflexivity.
Qed.

Lemma shape_ok_same_keys n n' : key_shape n = key_shape n' → shape_ok n → shape_ok n'.
Proof.
  unfold shape_ok. intros E H. rewrite <- shape_okb_key_shape, <- E, shape_okb_key_shape.
  exact H.
Qed.

Lemma shape_ok_remove_from_node n k : shape_ok n → shape_ok (remove_from_node n k).
Proof.
  induction n as [t lf es cs IH] using BTreeNode_children_ind. intros H. simpl.
  apply shape_ok_node in H as (Ht & H).
  destruct (key_index k es) as [i|] eqn:Hi.
  - apply shape_ok_node. split; [exact Ht|]. intros E. destruct (H E) as [Hlen Hcs].
    split; [|exact Hcs]. pose proof (sublist_length _ _ (sublist_delete es i)). lia.
  - destruct lf; [apply shape_ok_node; split; [exact Ht | discriminate]|].
    destruct (H eq_refl) as [Hlen Hcs]. apply shape_ok_node. split; [exact Ht|]. intros _.
    rewrite length_alter. split; [exact Hlen|].
    apply Forall_lookup_2. intros j c Hc.
    destruct (decide (scan_up k es = j)) as [<-|Hne].
    + rewrite list_lookup_alter_eq in Hc.
      destruct (cs !! scan_up k es) as [c0|] eqn:Hc0; simplify_eq/=.
      eapply Forall_lookup_1 in IH; [|exact Hc0]. apply IH.
      exact (Forall_lookup_1 _ _ _ _ Hcs Hc0).
    + rewrite list_lookup_alter_ne in Hc by exact Hne. exact (Forall_lookup_1 _ _ _ _ Hcs Hc).
Qed.


(** * Writes to located records *)





Lemma find_leaf_set_value_at li pos v n k :
  find_leaf (set_value_at li pos v n) k = find_leaf n k.
Proof. apply find_leaf_same_keys, key_shape_set_value_at. Qed.





Lemma predecessor_entry_location leaves li pos pli ppos pe :
  predecessor_entry leaves li pos = Some (pli, ppos, pe) →
  (pli < li ∨ pli = li ∧ ppos < pos)%nat ∧ entry_at leaves pli ppos = Some pe.
Proof.
  unfold predecessor_entry. destruct pos as [|p].
  - unfold left_leaf_last. destruct li as [|lj]; [discriminate|].
    destruct (leaves !! lj) as [ll|] eqn:Hll; [|discriminate].
    destruct (last ll) as [x|] eqn:Hlast; [|discriminate]. intros [= <- <- <-].
    split; [lia|]. unfold entry_at. rewrite Hll. rewrite last_lookup in Hlast.
    replace (length ll - 1)%nat with (pred (length ll)) by lia. exact Hlast.
  - destruct (entry_at leaves li p) as [x|] eqn:Hx; [|discriminate]. intros [= <- <- <-].
    split; [lia | exact Hx].
Qed.



(** * The insert path on a record that [find_leaf] locates *)



Lemma search__insert root k v :
  well_formedb root = true → search root k = None → is_Some (search (_insert root k v) k).
Proof.
  intros Hwf Hs. pose proof (well_formedb__insert root k v Hwf Hs) as Hwf'.
  apply well_formedb_iff in Hwf' as [Hok' Hsorted'].
  apply well_formedb_iff in Hwf as [Hok Hsorted].
  destruct (_insert_entries root k v (btree_ok_shape_ok _ Hok)) as (_ & _ & l1 & l2 & _ & E & _).
  destruct (search (_insert root k v) k) eqn:Hs'; [eauto|].
  pose proof (search_None_fresh _ _ Hok' Hsorted' Hs') as Hfresh.
  rewrite E in Hfresh. apply Forall_app in Hfresh as [_ Hfresh].
  inversion Hfresh as [|? ? Hne _]; subst. exfalso. apply Hne. reflexivity.
Qed.

Lemma insert_entry_located_FD idx l r li pos e :
  well_formed idx →
  find_leaf (_root idx) l = Some (li, pos) →
  entry_at (collect_leaves (_root idx)) li pos = Some e →
  let value0 := value e in
  let value1 :=
    match r with
    | rhs :: _ => set_rhs_values ({[rhs]} ∪ rhs_values value0) value0
    | [] => value0
    end in
  let new_local := local_violation_count value1 FD in
  let local_delta := new_local - local_violation_count_contribution value0 in
  let flag_d := - right_neighbor_flag_contribution value0 in
  let value3 :=
    if decide (right_neighbor_flag_contribution value0 = 0)
    then set_local new_local value1 else set_flag 0 (set_local new_local value1) in
  insert_entry_for_validation idx l r FD
  = (mkDeltas flag_d local_delta,
     mkIndex (set_value_at li pos value3 (_root idx))
             (global_violation_count idx + flag_d + local_delta)
             (_chunk_offsets idx) (_null_positions idx)).
Proof.
  intros Hwf Hf He. apply well_formedb_iff in Hwf as [Hok Hsorted].
  destruct (wf_located _ _ _ _ Hok Hsorted Hf) as (e' & He' & _ & Hs & _).
  rewrite He in He'. injection He' as <-. simpl.
  unfold insert_entry_for_validation. rewrite Hs. simpl.
  unfold _link_leaf_neighbors. rewrite Hf, He.
  destruct r as [|rhs rest]; simpl;
    destruct (decide (right_neighbor_flag_contribution (value e) = 0)) as [E|E];
    simpl; rewrite ?E; reflexivity.
Qed.






(** * The shape of the tree along a run *)

Lemma shape_ok_alter_search f n k : shape_ok n → shape_ok (alter_search f n k).
Proof. apply shape_ok_same_keys. symmetry. apply key_shape_alter_search. Qed.

Lemma shape_ok_set_value_at li pos v n : shape_ok n → shape_ok (set_value_at li pos v n).
Proof. apply shape_ok_same_keys. symmetry. apply key_shape_set_value_at. Qed.

Lemma shape_ok__insert root k v : shape_ok root → shape_ok (_insert root k v).
Proof. intros H. apply (_insert_entries root k v H). Qed.

Lemma shape_ok_insert_entry idx l r d :
  shape_ok (_root idx) → shape_ok (_root (insert_entry_for_validation idx l r d).2).
Proof.
  unfold insert_entry_for_validation. intros H.
  set (root := match search (_root idx) l with Some _ => _ | None => _ end).
  assert (Hroot : shape_ok root).
  { unfold root. destruct (search (_root idx) l).
    - destruct (decide (d = OD)); [|exact H]. apply shape_ok_alter_search. exact H.
    - apply shape_ok__insert. exact H. }
  clearbody root. unfold _link_leaf_neighbors.
  destruct (find_leaf root l) as [[li pos]|]; [|exact Hroot].
  destruct (entry_at (collect_leaves root) li pos) as [e|]; [|exact Hroot].
  destruct d.
  - destruct (decide _); simpl; apply shape_ok_set_value_at; exact Hroot.
  - destruct (predecessor_entry (collect_leaves root) li pos) as [[[pli ppos] pe]|]; simpl;
      repeat apply shape_ok_set_value_at; exact Hroot.
Qed.

Lemma shape_ok_delete_entry idx l r d :
  shape_ok (_root idx) → shape_ok (_root (delete_entry_for_validation idx l r d).2).
Proof.
  unfold delete_entry_for_validation, _link_leaf_neighbors, _remove_entry. intros H.
  destruct (find_leaf (_root idx) l) as [[li pos]|]; [|exact H].
  destruct (collect_leaves (_root idx) !! li) as [les|]; [|exact H].
  destruct (entry_at (collect_leaves (_root idx)) li pos) as [e|]; [|exact H].
  set (value1 := match r with [] => value e | rhs :: _ => _ end).
  destruct d.
  - destruct (decide (rhs_values value1 = ∅)); simpl.
    + apply shape_ok_remove_from_node, shape_ok_set_value_at, H.
    + apply shape_ok_set_value_at, H.
  - destruct (decide (rhs_values value1 = ∅)); simpl.
    + set (p1 := if is_smallest_in_leaf les l && bool_decide (pos = 0%nat) then _ else _).
      assert (Hp1 : shape_ok p1.2).
      { unfold p1. destruct (_ && _); [|simpl; apply shape_ok_set_value_at, H].
        destruct (left_leaf_last (collect_leaves (_root idx)) li) as [[[lli lpos] le]|];
          simpl; repeat apply shape_ok_set_value_at; exact H. }
      destruct p1 as [fd1 root2]. simpl in Hp1.
      set (p2 := if is_largest_in_leaf les l && bool_decide (0 < pos)%nat then _ else _).
      assert (Hp2 : shape_ok p2.2).
      { unfold p2. destruct (_ && _); [|simpl; exact Hp1].
        destruct (les !! (pos - 1)%nat) as [pe|]; simpl;
          repeat apply shape_ok_set_value_at; exact Hp1. }
      destruct p2 as [fd2 root3]. simpl in Hp2. simpl.
      apply shape_ok_remove_from_node, Hp2.
    + apply shape_ok_set_value_at, H.
Qed.

Lemma shape_ok_apply_mutation idx m :
  shape_ok (_root idx) → shape_ok (_root (apply_mutation idx m)).
Proof.
  intros H. destruct m as [l r d|l r d|l o n d|k f|k d|k|k]; simpl.
  - apply shape_ok_insert_entry, H.
  - apply shape_ok_delete_entry, H.
  - unfold update_entry_for_validation.
    pose proof (shape_ok_delete_entry idx l o d H) as H1.
    destruct (delete_entry_for_validation idx l o d) as [dd idx1]. simpl in H1.
    pose proof (shape_ok_insert_entry idx1 l n d H1) as H2.
    destruct (insert_entry_for_validation idx1 l n d) as [di idx2]. exact H2.
  - unfold set_right_neighbor_flag. destruct (search (_root idx) k); [|exact H].
    apply shape_ok_alter_search, H.
  - unfold recompute_local_violation_delta. destruct (search (_root idx) k); [|exact H].
    apply shape_ok_alter_search, H.
  - unfold insert_key. destruct (search (_root idx) k); simpl.
    + apply shape_ok_alter_search, H.
    + apply shape_ok__insert, H.
  - unfold remove_key. destruct (search (_root idx) k) as [v|]; [|exact H].
    destruct (1 <? count v); simpl.
    + apply shape_ok_alter_search, H.
    + apply shape_ok_remove_from_node, H.
Qed.

Lemma shape_ok_BTreeIndex_new segments : shape_ok (_root (BTreeIndex_new segments)).
Proof.
  unfold BTreeIndex_new. simpl.
  set (offsets := merge_sort _ _). clearbody offsets.
  set (st0 := mkLoader (mkNode 3 true [] []) [] [] None).
  assert (Hst0 : shape_ok (ld_root st0)) by reflexivity.
  clearbody st0. revert st0 Hst0.
  induction offsets as [|o offsets IH]; intros st Hst; simpl.
  - destruct (ld_current st) as [[[cur start] cnt]|]; [|exact Hst].
    apply shape_ok__insert, Hst.
  - apply IH. unfold loader_step.
    destruct (row_key segments o) as [rk|]; [|exact Hst].
    destruct (ld_current st) as [[[cur start] cnt]|]; [|exact Hst].
    destruct (key_eq rk cur); [exact Hst|]. simpl.
    apply shape_ok__insert, Hst.
Qed.

Lemma shape_ok_run segments ms : shape_ok (_root (run (BTreeIndex_new segments) ms)).
Proof.
  unfold run. generalize (shape_ok_BTreeIndex_new segments).
  generalize (BTreeIndex_new segments). induction ms as [|m ms IH]; intros idx H; simpl.
  - exact H.
  - apply IH, shape_ok_apply_mutation, H.
Qed.

(** * One write, seen in the sequence of all records *)




(** * The count frame *)

Lemma left_leaf_last_location leaves li lli lpos le :
  left_leaf_last leaves li = Some (lli, lpos, le) →
  (lli < li)%nat ∧ entry_at leaves lli lpos = Some le.
Proof.
  intros H. destruct (predecessor_entry_location leaves li 0 lli lpos le H) as [Hloc He].
  split; [lia | exact He].
Qed.





(** * The delete path on a record that [find_leaf] locates *)

Lemma entry_at_leaf leaves li pos e :
  entry_at leaves li pos = Some e → ∃ es, leaves !! li = Some es ∧ es !! pos = Some e.
Proof.
  unfold entry_at. destruct (leaves !! li) as [es|]; [|discriminate]. eauto.
Qed.

Lemma value_eta v :
  mkValue (start_index v) (count v) (rhs_values v) (min_rhs v) (max_rhs v)
          (right_neighbor_flag v) (right_neighbor_flag_contribution v)
          (local_violation_count_contribution v) = v.
Proof. destruct v; reflexivity. Qed.

Lemma index_eta idx :
  mkIndex (_root idx) (global_violation_count idx) (_chunk_offsets idx) (_null_positions idx)
  = idx.
Proof. destruct idx; reflexivity. Qed.

Lemma difference_absent (X : gset Z) a : a ∉ X → X ∖ {[a]} = X.
Proof.
  intros Ha. apply leibniz_equiv. intros x. rewrite elem_of_difference, elem_of_singleton.
  split; [intros [Hx _]; exact Hx|]. intros Hx. split; [exact Hx|]. intros ->. contradiction.
Qed.

(** With a non-empty set left, the delete path rewrites the located record
    and nothing else. *)
Lemma delete_entry_located_nonempty idx l a rest d li pos e :
  find_leaf (_root idx) l = Some (li, pos) →
  entry_at (collect_leaves (_root idx)) li pos = Some e →
  rhs_values (value e) ∖ {[a]} ≠ ∅ →
  let leaves := collect_leaves (_root idx) in
  let value1 := set_rhs_values (rhs_values (value e) ∖ {[a]}) (value e) in
  let new_local := local_violation_count value1 d in
  let value4 :=
    match d with
    | FD => set_local new_local value1
    | OD =>
        let value2 :=
          set_min_max (recompute_min (rhs_values value1))
                      (recompute_max (rhs_values value1)) value1 in
        set_local new_local (set_flag (boundary_flag_at leaves li pos value2) value2)
    end in
  let flag_d :=
    match d with
    | FD => 0
    | OD => right_neighbor_flag_contribution value4
            - right_neighbor_flag_contribution (value e)
    end in
  let local_d := new_local - local_violation_count_contribution (value e) in
  delete_entry_for_validation idx l (a :: rest) d
  = (mkDeltas flag_d local_d,
     mkIndex (set_value_at li pos value4 (_root idx))
             (global_violation_count idx + flag_d + local_d)
             (_chunk_offsets idx) (_null_positions idx)).
Proof.
  intros Hf He Hne. unfold delete_entry_for_validation, _link_leaf_neighbors.
  rewrite Hf, He. destruct (entry_at_leaf _ _ _ _ He) as (es & -> & _).
  destruct d.
  - rewrite decide_False by exact Hne. reflexivity.
  - rewrite decide_False by exact Hne. reflexivity.
Qed.

(** With the set emptied, the delete path ends in [_remove_entry] on a tree
    with the keys of the one it started from. *)
Lemma delete_entry_located_empty idx l a rest d li pos e :
  find_leaf (_root idx) l = Some (li, pos) →
  entry_at (collect_leaves (_root idx)) li pos = Some e →
  rhs_values (value e) ∖ {[a]} = ∅ →
  ∃ root3 fd,
    key_shape root3 = key_shape (_root idx)
    ∧ delete_entry_for_validation idx l (a :: rest) d
      = (mkDeltas (fd - right_neighbor_flag_contribution (value e))
                  (- local_violation_count_contribution (value e)),
         mkIndex (remove_from_node root3 l)
                 (global_violation_count idx
                  + (fd - right_neighbor_flag_contribution (value e))
                  + - local_violation_count_contribution (value e))
                 (_chunk_offsets idx) (_null_positions idx))
    ∧ (d = FD →
       fd = 0
       ∧ root3 = set_value_at li pos
                   (set_rhs_values (rhs_values (value e) ∖ {[a]}) (value e)) (_root idx)).
Proof.
  intros Hf He Hempty. unfold delete_entry_for_validation, _link_leaf_neighbors, _remove_entry.
  rewrite Hf, He. destruct (entry_at_leaf _ _ _ _ He) as (les & -> & _).
  destruct d.
  - rewrite decide_True by exact Hempty. simpl.
    exists (set_value_at li pos (set_rhs_values (rhs_values (value e) ∖ {[a]}) (value e))
              (_root idx)), 0.
    split; [apply key_shape_set_value_at|]. split; [reflexivity | auto].
  - rewrite decide_True by exact Hempty.
    set (root1 := set_value_at li pos _ (_root idx)).
    set (p1 := if is_smallest_in_leaf les l && bool_decide (pos = 0%nat) then _ else _).
    assert (Hp1 : key_shape p1.2 = key_shape (_root idx)).
    { unfold p1. destruct (_ && _); [|simpl; apply key_shape_set_value_at].
      destruct (left_leaf_last (collect_leaves (_root idx)) li) as [[[lli lpos] le]|];
        simpl; unfold root1; rewrite ?key_shape_set_value_at; reflexivity. }
    destruct p1 as [fd1 root2]. simpl in Hp1.
    set (p2 := if is_largest_in_leaf les l && bool_decide (0 < pos)%nat then _ else _).
    assert (Hp2 : key_shape p2.2 = key_shape (_root idx)).
    { unfold p2. destruct (_ && _); [|simpl; exact Hp1].
      destruct (les !! (pos - 1)%nat) as [pe|]; simpl;
        rewrite ?key_shape_set_value_at; exact Hp1. }
    destruct p2 as [fd2 root3]. simpl in Hp2. simpl.
    exists root3, fd2. split; [exact Hp2|]. split; [reflexivity | discriminate].
Qed.

(** Erasing a located record of a well-formed tree takes exactly that
    record out of the sequence of all records. *)
Lemma remove_located_entries n k li pos :
  well_formedb n = true → find_leaf n k = Some (li, pos) →
  ∃ l1 e l2, entry_at (collect_leaves n) li pos = Some e ∧ key e = k
    ∧ tree_entries n = l1 ++ e :: l2
    ∧ tree_entries (remove_from_node n k) = l1 ++ l2.
Proof.
  intros Hwf Hf. apply well_formedb_iff in Hwf as [Hb Hs].
  destruct (wf_located n k li pos Hb Hs Hf) as (e & He & Hk & _ & _ & ->).
  destruct (entry_at_leaf _ _ _ _ He) as (es & Hes & Hpos).
  destruct (tree_entries_alter_leaf n li es Hes) as (l1 & l2 & E1 & E2).
  exists (l1 ++ take pos es), e, (drop (S pos) es ++ l2).
  split; [exact He|]. split; [exact Hk|]. split.
  - rewrite E1, <- (take_drop_middle es pos e Hpos) at 1.
    rewrite <- !app_assoc. reflexivity.
  - rewrite E2, delete_take_drop, <- !app_assoc. reflexivity.
Qed.







(** * Insert, then delete *)




Lemma local_law_count v d :
  local_law v → local_violation_count v d = local_violation_count_contribution v.
Proof. unfold local_law. intros ->. apply local_violation_count_max. Qed.





(** * A new record is stored in a leaf, where [find_leaf] locates it *)

Lemma elem_of_concat_lookup {A} (ls : list (list A)) i l x :
  ls !! i = Some l → x ∈ l → x ∈ concat ls.
Proof.
  revert i. induction ls as [|l0 ls IH]; intros i Hl Hx; [discriminate|].
  simpl. apply elem_of_app. destruct i as [|i]; simpl in Hl.
  - injection Hl as ->. left. exact Hx.
  - right. exact (IH i Hl Hx).
Qed.

Lemma elem_of_concat_inv {A} (ls : list (list A)) x :
  x ∈ concat ls → ∃ i l, ls !! i = Some l ∧ x ∈ l.
Proof.
  induction ls as [|l0 ls IH]; simpl; intros Hx.
  - apply elem_of_nil in Hx. contradiction.
  - apply elem_of_app in Hx as [Hx|Hx].
    + exists 0%nat, l0. split; [reflexivity | exact Hx].
    + destruct (IH Hx) as (i & l & Hl & Hxl). exists (S i), l. split; assumption.
Qed.

Lemma insert_non_full_in_leaf fuel n k v :
  shape_ok n → (height n ≤ fuel)%nat →
  mkEntry k v ∈ concat (collect_leaves (insert_non_full fuel n k v)).
Proof.
  revert n. induction fuel as [|fuel IH]; intros [t lf es cs] Hshape Hh.
  - destruct lf.
    + rewrite insert_non_full_leaf. simpl. rewrite app_nil_r.
      apply elem_of_app. right. apply list_elem_of_here.
    + apply shape_ok_node in Hshape as [_ H]. destruct (H eq_refl) as [Hlen _].
      destruct cs as [|c cs]; [simpl in Hlen; lia|]. simpl in Hh. lia.
  - destruct lf.
    + rewrite insert_non_full_leaf. simpl. rewrite app_nil_r.
      apply elem_of_app. right. apply list_elem_of_here.
    + destruct (insert_non_full_step fuel t es cs k v Hshape)
        as (es1 & cs1 & i1 & c & Heq & Hc & Hcase).
      destruct (insert_non_full_step_facts t es cs k es1 cs1 i1 c Hshape Hc Hcase)
        as (Hshape1 & _ & _ & Hh1 & _).
      rewrite Heq. clear Heq Hcase.
      apply shape_ok_node in Hshape1 as (Ht & H).
      destruct (H eq_refl) as [Hlen1 Hcs1]. clear H.
      assert (Hch : (height c ≤ fuel)%nat).
      { pose proof (height_child c t false es1 cs1 (list_elem_of_lookup_2 _ _ _ Hc)). lia. }
      specialize (IH c (Forall_lookup_1 _ _ _ _ Hcs1 Hc) Hch).
      change (mkEntry k v ∈ concat (concat (collect_leaves
                <$> alter (λ c, insert_non_full fuel c k v) i1 cs1))).
      destruct (elem_of_concat_inv _ _ IH) as (j & lf & Hlf & Hx).
      apply (elem_of_concat_lookup _ (length (concat (collect_leaves <$> take i1 cs1)) + j) lf);
        [|exact Hx].
      assert (Hc' : (collect_leaves <$> alter (λ c, insert_non_full fuel c k v) i1 cs1) !! i1
                    = Some (collect_leaves (insert_non_full fuel c k v)))
        by (rewrite list_lookup_fmap, list_lookup_alter_eq, Hc; reflexivity).
      rewrite <- (take_drop_middle _ _ _ Hc') at 1.
      rewrite concat_app, <- fmap_take, take_alter_ge by lia. simpl.
      rewrite lookup_app_r by lia. rewrite lookup_app_l by (apply lookup_lt_Some in Hlf; lia).
      replace (length (concat (collect_leaves <$> take i1 cs1)) + j
               - length (concat (collect_leaves <$> take i1 cs1)))%nat with j by lia.
      exact Hlf.
Qed.

Lemma _insert_in_leaf root k v :
  shape_ok root → mkEntry k v ∈ concat (collect_leaves (_insert root k v)).
Proof.
  intros Hshape. rewrite _insert_unfold. case_bool_decide as Hfull.
  - apply insert_non_full_in_leaf; [|simpl; lia].
    apply shape_ok_node. split.
    + destruct root as [t lf es cs]. apply shape_ok_node in Hshape as [Ht _]. exact Ht.
    + intros _. simpl. split; [lia|]. constructor; [exact Hshape | constructor].
  - apply insert_non_full_in_leaf; [exact Hshape | lia].
Qed.

Lemma StronglySorted_NoDup (l : list BTreeEntry) : StronglySorted entry_lt l → NoDup l.
Proof.
  induction 1 as [|x l Hs IH Hx]; constructor; [|exact IH].
  intros Hin. rewrite Forall_forall in Hx. specialize (Hx x Hin).
  unfold entry_lt in Hx. rewrite key_lt_irrefl in Hx. discriminate.
Qed.

Lemma sorted_key_unique (l : list BTreeEntry) x y :
  StronglySorted entry_lt l → x ∈ l → y ∈ l → key x = key y → x = y.
Proof.
  induction 1 as [|z l Hs IH Hz]; intros Hx Hy Hk.
  - apply elem_of_nil in Hx. contradiction.
  - rewrite Forall_forall in Hz.
    apply elem_of_cons in Hx as [->|Hx]; apply elem_of_cons in Hy as [->|Hy].
    + reflexivity.
    + specialize (Hz y Hy). unfold entry_lt in Hz. rewrite Hk, key_lt_irrefl in Hz.
      discriminate.
    + specialize (Hz x Hx). unfold entry_lt in Hz. rewrite <- Hk, key_lt_irrefl in Hz.
      discriminate.
    + apply IH; assumption.
Qed.

Lemma NoDup_concat_lookup {A} (ls : list (list A)) i j a b x :
  NoDup (concat ls) → ls !! i = Some a → ls !! j = Some b → x ∈ a → x ∈ b → i = j.
Proof.
  revert i j. induction ls as [|l ls IH]; intros i j Hnd Ha Hb Hxa Hxb; [discriminate|].
  simpl in Hnd. apply NoDup_app in Hnd as (_ & Hdisj & Hnd).
  destruct i as [|i], j as [|j]; simpl in *.
  - reflexivity.
  - injection Ha as <-. exfalso. apply (Hdisj x Hxa).
    exact (elem_of_concat_lookup _ _ _ _ Hb Hxb).
  - injection Hb as <-. exfalso. apply (Hdisj x Hxb).
    exact (elem_of_concat_lookup _ _ _ _ Ha Hxa).
  - f_equal. exact (IH i j Hnd Ha Hb Hxa Hxb).
Qed.

Lemma elem_of_leaves_tree_entries n e :
  e ∈ concat (collect_leaves n) → e ∈ tree_entries n.
Proof.
  intros H. eapply elem_of_sublist; [exact H | apply leaves_sublist_tree_entries].
Qed.

Lemma elem_of_children_leaves (cs : list BTreeNode) x :
  x ∈ concat (concat (collect_leaves <$> cs)) →
  ∃ j c, cs !! j = Some c ∧ x ∈ concat (collect_leaves c).
Proof.
  induction cs as [|c cs IH]; simpl; intros Hx.
  - apply elem_of_nil in Hx. contradiction.
  - rewrite concat_app in Hx. apply elem_of_app in Hx as [Hx|Hx].
    + exists 0%nat, c. split; [reflexivity | exact Hx].
    + destruct (IH Hx) as (j & c' & Hc' & Hx'). exists (S j), c'. split; assumption.
Qed.

Lemma find_leaf_complete n e :
  btree_okb n = true → StronglySorted entry_lt (tree_entries n) →
  e ∈ concat (collect_leaves n) →
  ∃ li pos, find_leaf n (key e) = Some (li, pos).
Proof.
  induction n as [t lf es cs IH] using BTreeNode_children_ind. intros Hok Hs He.
  destruct lf.
  - simpl in He, Hs. rewrite app_nil_r in He.
    destruct (leaf_key_position (key e) es Hs) as [Hlt Hrest].
    rewrite <- (take_drop (scan_up (key e) es) es) in He.
    apply elem_of_app in He as [He|He].
    { rewrite Forall_forall in Hlt. specialize (Hlt e He). unfold lt_key in Hlt.
      rewrite key_lt_irrefl in Hlt. discriminate. }
    simpl. destruct (es !! scan_up (key e) es) as [e'|] eqn:He'.
    + destruct Hrest as [_ Hgt].
      rewrite (drop_S _ _ _ He') in He. apply elem_of_cons in He as [<-|He].
      * replace (key_eq (key e) (key e)) with true
          by (symmetry; apply bool_decide_eq_true; reflexivity).
        eauto.
      * rewrite Forall_forall in Hgt. specialize (Hgt e He). unfold gt_key in Hgt.
        rewrite key_lt_irrefl in Hgt. discriminate.
    + rewrite Hrest in He. apply elem_of_nil in He. contradiction.
  - destruct (node_key_position t es cs (key e) Hok Hs)
      as (c & Bf & Af & Hc & Hte & _ & _ & HBf & Hokc & Hsc & HAf).
    change (e ∈ concat (concat (collect_leaves <$> cs))) in He.
    destruct (elem_of_children_leaves cs e He) as (j & cj & Hcj & Hej).
    pose proof (elem_of_leaves_tree_entries cj e Hej) as Hej'.
    pose proof (StronglySorted_NoDup _ Hs) as Hnd.
    change (tree_entries (mkNode t false es cs)) with (interleave (tree_entries <$> cs) es)
      in Hnd, Hte.
    rewrite interleave_Permutation in Hnd. apply NoDup_app in Hnd as (_ & Hdisj & Hndc).
    assert (Hcj' : (tree_entries <$> cs) !! j = Some (tree_entries cj))
      by (rewrite list_lookup_fmap, Hcj; reflexivity).
    assert (Hc' : (tree_entries <$> cs) !! scan_up (key e) es = Some (tree_entries c))
      by (rewrite list_lookup_fmap, Hc; reflexivity).
    assert (Hin : e ∈ interleave (tree_entries <$> cs) es).
    { rewrite interleave_Permutation. apply elem_of_app. right.
      exact (elem_of_concat_lookup _ _ _ _ Hcj' Hej'). }
    rewrite Hte in Hin. apply elem_of_app in Hin as [Hin|Hin].
    { rewrite Forall_forall in HBf. specialize (HBf e Hin). unfold lt_key in HBf.
      rewrite key_lt_irrefl in HBf. discriminate. }
    apply elem_of_app in Hin as [Hin|Hin].
    + assert (Hji : scan_up (key e) es = j)
        by exact (NoDup_concat_lookup _ _ _ _ _ e Hndc Hc' Hcj' Hin Hej').
      subst j. rewrite Hc in Hcj. injection Hcj as <-.
      eapply Forall_lookup_1 in IH; [|exact Hc].
      destruct (IH Hokc Hsc Hej) as (li & pos & Hf).
      simpl. rewrite apply_nth_lookup, Hc, Hf. eauto.
    + exfalso. destruct (es !! scan_up (key e) es) as [ei|] eqn:Hei.
      * destruct HAf as (_ & A & -> & HA). apply elem_of_cons in Hin as [->|Hin].
        -- apply (Hdisj ei (list_elem_of_lookup_2 _ _ _ Hei)).
           exact (elem_of_concat_lookup _ _ _ _ Hcj' Hej').
        -- rewrite Forall_forall in HA. specialize (HA e Hin). unfold gt_key in HA.
           rewrite key_lt_irrefl in HA. discriminate.
      * rewrite HAf in Hin. apply elem_of_nil in Hin. contradiction.
Qed.

(** [find_leaf] locates a record that [_insert] has just added under a key
    that was not in the tree. *)
Lemma find_leaf__insert root k v :
  well_formedb root = true → search root k = None →
  ∃ li pos, find_leaf (_insert root k v) k = Some (li, pos)
            ∧ entry_at (collect_leaves (_insert root k v)) li pos = Some (mkEntry k v).
Proof.
  intros Hwf Hs. pose proof (well_formedb__insert root k v Hwf Hs) as Hwf'.
  apply well_formedb_iff in Hwf' as [Hok' Hsorted'].
  apply well_formedb_iff in Hwf as [Hok Hsorted].
  pose proof (_insert_in_leaf root k v (btree_ok_shape_ok _ Hok)) as Hin.
  destruct (find_leaf_complete _ _ Hok' Hsorted' Hin) as (li & pos & Hf). simpl in Hf.
  exists li, pos. split; [exact Hf|].
  destruct (find_leaf_entry _ _ _ _ Hf) as (e & He & Hk). rewrite He. f_equal.
  apply (sorted_key_unique _ _ _ Hsorted').
  - exact (entry_at_in_tree _ _ _ _ He).
  - exact (elem_of_leaves_tree_entries _ _ Hin).
  - exact Hk.
Qed.


(** * The last value of a record: the key leaves the index *)



Lemma NoDup_split_unique {A} (l1 l2 m1 m2 : list A) x :
  NoDup (l1 ++ x :: l2) → l1 ++ x :: l2 = m1 ++ x :: m2 → l1 = m1 ∧ l2 = m2.
Proof.
  revert m1. induction l1 as [|y l1 IH]; intros m1 Hnd E.
  - destruct m1 as [|z m1]; simpl in E.
    + injection E as ->. auto.
    + injection E as <- ->. simpl in Hnd. apply NoDup_cons in Hnd as [Hx _].
      exfalso. apply Hx, elem_of_app. right. apply list_elem_of_here.
  - destruct m1 as [|z m1]; simpl in E.
    + injection E as -> <-. simpl in Hnd. apply NoDup_cons in Hnd as [Hx _].
      exfalso. apply Hx, elem_of_app. right. apply list_elem_of_here.
    + injection E as <- E. simpl in Hnd. apply NoDup_cons in Hnd as [_ Hnd].
      destruct (IH m1 Hnd E) as [-> ->]. auto.
Qed.




(** FD, the key is not in the tree: the insert creates the record. *)
Lemma insert_entry_new_key_FD idx l r :
  well_formed idx → search (_root idx) l = None →
  insert_entry_for_validation idx l r FD
  = insert_entry_for_validation (with_root (_insert (_root idx) l (new_value 0)) idx) l r FD.
Proof.
  intros Hwf Hs. unfold insert_entry_for_validation at 1 2. rewrite Hs.
  destruct (search__insert (_root idx) l (new_value 0) Hwf Hs) as [v Hv].
  cbn [_root with_root]. rewrite Hv. simpl. reflexivity.
Qed.



(** * The extrema the delete path recomputes *)









(** * Update with the old value as the new one *)



Lemma search_Some_entry n k v :
  search n k = Some v → ∃ e, e ∈ tree_entries n ∧ key e = k.
Proof.
  intros Hs. pose proof (tree_entries_alter_search id n k) as H. rewrite Hs in H.
  destruct H as (l1 & e & l2 & E & Hk & _). exists e. split; [|exact Hk].
  rewrite E. apply elem_of_app. right. apply list_elem_of_here.
Qed.

Lemma search_after_remove n k li pos :
  well_formedb n = true → find_leaf n k = Some (li, pos) →
  search (remove_from_node n k) k = None.
Proof.
  intros Hwf Hf. destruct (remove_located_entries n k li pos Hwf Hf)
    as (l1 & e & l2 & _ & Hk & E1 & E2).
  apply well_formedb_iff in Hwf as [_ Hs]. rewrite E1 in Hs.
  destruct (search (remove_from_node n k) k) as [v|] eqn:Hsearch; [|reflexivity].
  exfalso. destruct (search_Some_entry _ _ _ Hsearch) as (e' & Hin & Hk').
  rewrite E2 in Hin. pose proof (StronglySorted_NoDup _ Hs) as Hnd.
  assert (He' : e' = e).
  { apply (sorted_key_unique _ _ _ Hs); [| |congruence].
    - apply elem_of_app in Hin as [Hin|Hin]; apply elem_of_app; [left | right]; [exact Hin|].
      apply elem_of_cons. right. exact Hin.
    - apply elem_of_app. right. apply list_elem_of_here. }
  subst e'. apply NoDup_app in Hnd as (_ & Hdisj & Hnd2). apply NoDup_cons in Hnd2 as [Hn2 _].
  apply elem_of_app in Hin as [Hin|Hin]; [|contradiction].
  apply (Hdisj e Hin). apply list_elem_of_here.
Qed.






(** * Erasing a record and inserting its key again *)






Lemma entries_alter_leaf f li n :
  entries (alter_leaf f li n)
  = if leaf n then match li with O => f (entries n) | S _ => entries n end else entries n.
Proof. destruct n as [t lf es cs]. simpl. destruct lf; [destruct li|]; reflexivity. Qed.

Lemma leaf_alter_leaf f li n : leaf (alter_leaf f li n) = leaf n.
Proof. destruct n as [t lf es cs]. simpl. destruct lf; [destruct li|]; reflexivity. Qed.



(** * OD: the update of the only value of a record *)







(** * The counter and the contributions of the records *)

Lemma contribution_foldr_app (l1 l2 : list BTreeEntry) :
  foldr (λ e acc, contribution e + acc) 0 (l1 ++ l2)
  = foldr (λ e acc, contribution e + acc) 0 l1 + foldr (λ e acc, contribution e + acc) 0 l2.
Proof. induction l1 as [|x l1 IH]; simpl; [reflexivity|]. rewrite IH. lia. Qed.

Lemma contribution_sum_replace n n' l1 l2 e e' :
  tree_entries n = l1 ++ e :: l2 → tree_entries n' = l1 ++ e' :: l2 →
  contribution_sum n' = contribution_sum n - contribution e + contribution e'.
Proof.
  unfold contribution_sum. intros -> ->. rewrite !contribution_foldr_app. simpl. lia.
Qed.

Lemma contribution_sum_added n n' l1 l2 e :
  tree_entries n = l1 ++ l2 → tree_entries n' = l1 ++ e :: l2 →
  contribution_sum n' = contribution_sum n + contribution e.
Proof.
  unfold contribution_sum. intros -> ->. rewrite !contribution_foldr_app. simpl. lia.
Qed.

Lemma contribution_sum_set_value_at n li pos e v :
  entry_at (collect_leaves n) li pos = Some e →
  contribution_sum (set_value_at li pos v n)
  = contribution_sum n - contribution e
    + (right_neighbor_flag_contribution v + local_violation_count_contribution v).
Proof.
  intros He. destruct (tree_entries_set_value_at n li pos e He) as (l1 & l2 & E1 & E2).
  exact (contribution_sum_replace n _ l1 l2 e _ E1 (E2 v)).
Qed.

Lemma contribution_sum_alter_search f n k :
  contribution_sum (alter_search f n k)
  = contribution_sum n
    + match search n k with
      | Some v0 =>
          right_neighbor_flag_contribution (f v0) + local_violation_count_contribution (f v0)
          - (right_neighbor_flag_contribution v0 + local_violation_count_contribution v0)
      | None => 0
      end.
Proof.
  pose proof (tree_entries_alter_search f n k) as H.
  destruct (search n k) as [v0|].
  - destruct H as (l1 & e & l2 & E1 & _ & Hv & E2).
    rewrite (contribution_sum_replace n _ l1 l2 e _ E1 E2).
    unfold contribution. simpl. rewrite Hv. lia.
  - rewrite H. lia.
Qed.

Lemma contribution_sum__insert root k v :
  shape_ok root →
  contribution_sum (_insert root k v)
  = contribution_sum root
    + (right_neighbor_flag_contribution v + local_violation_count_contribution v).
Proof.
  intros Hshape. destruct (_insert_entries root k v Hshape) as (_ & _ & l1 & l2 & E1 & E2 & _).
  exact (contribution_sum_added root _ l1 l2 _ E1 E2).
Qed.

Lemma contribution_sum_remove_located n k li pos e :
  well_formedb n = true → find_leaf n k = Some (li, pos) →
  entry_at (collect_leaves n) li pos = Some e →
  contribution_sum (remove_from_node n k) = contribution_sum n - contribution e.
Proof.
  intros Hwf Hf He.
  destruct (remove_located_entries n k li pos Hwf Hf) as (l1 & e' & l2 & He' & _ & E1 & E2).
  rewrite He in He'. injection He' as <-.
  unfold contribution_sum. rewrite E1, E2, !contribution_foldr_app. simpl. lia.
Qed.

Lemma counter_consistent_insert_entry idx l r d :
  shape_ok (_root idx) → counter_consistent idx →
  counter_consistent (insert_entry_for_validation idx l r d).2.
Proof.
  unfold counter_consistent, insert_entry_for_validation. intros Hshape H.
  set (root := match search (_root idx) l with Some _ => _ | None => _ end).
  assert (Hroot : contribution_sum root = contribution_sum (_root idx)).
  { unfold root. destruct (search (_root idx) l) as [v0|] eqn:Hs.
    - destruct (decide (d = OD)); [|reflexivity].
      rewrite contribution_sum_alter_search, Hs. simpl. lia.
    - rewrite contribution_sum__insert by exact Hshape. simpl. lia. }
  clearbody root. unfold _link_leaf_neighbors.
  destruct (find_leaf root l) as [[li pos]|]; [|simpl; congruence].
  destruct (entry_at (collect_leaves root) li pos) as [e|] eqn:He; [|simpl; congruence].
  destruct d.
  - destruct (decide _) as [E|E]; simpl;
      rewrite (contribution_sum_set_value_at _ _ _ _ _ He), Hroot, <- H;
      unfold contribution; destruct r; simpl in *; lia.
  - destruct (predecessor_entry (collect_leaves root) li pos) as [[[pli ppos] pe]|] eqn:Hp;
      simpl.
    + apply predecessor_entry_location in Hp as [Hloc Hpe].
      rewrite (contribution_sum_set_value_at _ pli ppos pe).
      2:{ rewrite entry_at_set_value_at, decide_False by lia. exact Hpe. }
      rewrite (contribution_sum_set_value_at _ _ _ _ _ He), Hroot, <- H.
      unfold contribution. destruct r; simpl; lia.
    + rewrite (contribution_sum_set_value_at _ _ _ _ _ He), Hroot, <- H.
      unfold contribution. destruct r; simpl; lia.
Qed.

Lemma counter_consistent_delete_entry idx l r d :
  well_formed idx → counter_consistent idx →
  counter_consistent (delete_entry_for_validation idx l r d).2.
Proof.
  unfold counter_consistent, delete_entry_for_validation, _link_leaf_neighbors, _remove_entry.
  intros Hwf H.
  destruct (find_leaf (_root idx) l) as [[li pos]|] eqn:Hf; [|exact H].
  destruct (collect_leaves (_root idx) !! li) as [les|] eqn:Hles; [|exact H].
  destruct (entry_at (collect_leaves (_root idx)) li pos) as [e|] eqn:He; [|exact H].
  set (value1 := match r with [] => value e | rhs :: _ => _ end).
  assert (Hc1 : right_neighbor_flag_contribution value1
                = right_neighbor_flag_contribution (value e)
                ∧ local_violation_count_contribution value1
                  = local_violation_count_contribution (value e))
    by (unfold value1; destruct r; auto).
  destruct Hc1 as [Hfc1 Hlc1].
  set (root1 := set_value_at li pos value1 (_root idx)).
  assert (Hs1 : contribution_sum root1 = contribution_sum (_root idx)).
  { unfold root1. rewrite (contribution_sum_set_value_at _ _ _ _ _ He).
    unfold contribution. lia. }
  assert (He1 : ∀ q, entry_at (collect_leaves root1) li q
                     = if decide (q = pos) then Some (mkEntry (key e) value1)
                       else entry_at (collect_leaves (_root idx)) li q).
  { intros q. unfold root1. rewrite entry_at_set_value_at.
    destruct (decide (q = pos)) as [->|Hne].
    - rewrite decide_True, He by auto. reflexivity.
    - rewrite decide_False by (intros [_ E]; auto). reflexivity. }
  assert (Hremove : ∀ root3 fd,
            key_shape root3 = key_shape (_root idx) →
            contribution_sum root3 = contribution_sum root1 + fd →
            entry_at (collect_leaves root3) li pos = Some (mkEntry (key e) value1) →
            global_violation_count idx
            + (fd - right_neighbor_flag_contribution (value e))
            + - local_violation_count_contribution (value e)
            = contribution_sum (remove_from_node root3 l)).
  { intros root3 fd Hshape Hs3 He3.
    rewrite (contribution_sum_remove_located root3 l li pos (mkEntry (key e) value1));
      [| | |exact He3].
    - rewrite Hs3, Hs1, <- H. unfold contribution. simpl. lia.
    - eapply well_formedb_same_keys; [symmetry; exact Hshape | exact Hwf].
    - rewrite (find_leaf_same_keys root3 (_root idx) l Hshape). exact Hf. }
  destruct d.
  - destruct (decide (rhs_values value1 = ∅)); simpl.
    + replace (global_violation_count idx + - right_neighbor_flag_contribution (value e)
               + - local_violation_count_contribution (value e))
        with (global_violation_count idx + (0 - right_neighbor_flag_contribution (value e))
              + - local_violation_count_contribution (value e)) by lia.
      apply Hremove; [apply key_shape_set_value_at | lia|].
      rewrite He1, decide_True by reflexivity. reflexivity.
    + rewrite (contribution_sum_set_value_at _ _ _ _ _ He), <- H.
      unfold contribution. simpl. lia.
  - destruct (decide (rhs_values value1 = ∅)); simpl.
    + set (p1 := if is_smallest_in_leaf les l && bool_decide (pos = 0%nat) then _ else _).
      assert (Hp1 : key_shape p1.2 = key_shape (_root idx)
                    ∧ contribution_sum p1.2 = contribution_sum root1 + p1.1
                    ∧ ∀ q, entry_at (collect_leaves p1.2) li q
                           = entry_at (collect_leaves root1) li q).
      { unfold p1. destruct (_ && _).
        2:{ simpl. split; [apply key_shape_set_value_at|]. split; [lia | reflexivity]. }
        destruct (left_leaf_last (collect_leaves (_root idx)) li) as [[[lli lpos] le]|] eqn:Hl;
          simpl.
        2:{ split; [apply key_shape_set_value_at|]. split; [lia | reflexivity]. }
        apply left_leaf_last_location in Hl as [Hlt Hle].
        split; [unfold root1; rewrite !key_shape_set_value_at; reflexivity|]. split.
        - rewrite (contribution_sum_set_value_at _ lli lpos le).
          + unfold contribution. simpl. lia.
          + unfold root1. rewrite entry_at_set_value_at, decide_False by lia. exact Hle.
        - intros q. rewrite entry_at_set_value_at, decide_False by lia. reflexivity. }
      destruct p1 as [fd1 root2]. simpl in Hp1. destruct Hp1 as (Hk2 & Hs2 & He2).
      set (p2 := if is_largest_in_leaf les l && bool_decide (0 < pos)%nat then _ else _).
      assert (Hp2 : key_shape p2.2 = key_shape (_root idx)
                    ∧ contribution_sum p2.2 = contribution_sum root1 + p2.1
                    ∧ entry_at (collect_leaves p2.2) li pos
                      = entry_at (collect_leaves root1) li pos).
      { unfold p2. destruct (is_largest_in_leaf les l); simpl.
        2:{ split; [exact Hk2|]. split; [exact Hs2 | apply He2]. }
        destruct (bool_decide (0 < pos)%nat) eqn:Hpos.
        2:{ split; [exact Hk2|]. split; [exact Hs2 | apply He2]. }
        apply bool_decide_eq_true in Hpos.
        destruct (les !! (pos - 1)%nat) as [prev|] eqn:Hprev; simpl.
        2:{ split; [exact Hk2|]. split; [exact Hs2 | apply He2]. }
        split; [rewrite key_shape_set_value_at; exact Hk2|]. split.
        - rewrite (contribution_sum_set_value_at _ li (pos - 1) prev).
          + unfold contribution. simpl. lia.
          + rewrite He2, He1, decide_False by lia. unfold entry_at. rewrite Hles. exact Hprev.
        - rewrite entry_at_set_value_at, decide_False by lia. apply He2. }
      destruct p2 as [fd2 root3]. simpl in Hp2. destruct Hp2 as (Hk3 & Hs3 & He3). simpl.
      apply Hremove; [exact Hk3 | exact Hs3|].
      rewrite He3, He1, decide_True by reflexivity. reflexivity.
    + rewrite (contribution_sum_set_value_at _ _ _ _ _ He), <- H.
      unfold contribution. simpl. lia.
Qed.

Lemma counter_consistent_apply_mutation idx m :
  well_formed idx → counter_consistent idx → (∀ k, m ≠ RemoveKey k) →
  counter_consistent (apply_mutation idx m).
Proof.
  intros Hwf H Hm.
  assert (Hshape : shape_ok (_root idx)).
  { apply well_formedb_iff in Hwf as [Hok _]. apply btree_ok_shape_ok, Hok. }
  destruct m as [l r d|l r d|l o n d|k f|k d|k|k]; simpl.
  - apply counter_consistent_insert_entry; assumption.
  - apply counter_consistent_delete_entry; assumption.
  - unfold update_entry_for_validation.
    pose proof (counter_consistent_delete_entry idx l o d Hwf H) as H1.
    pose proof (shape_ok_delete_entry idx l o d Hshape) as Hs1.
    destruct (delete_entry_for_validation idx l o d) as [dd idx1]. simpl in H1, Hs1.
    pose proof (counter_consistent_insert_entry idx1 l n d Hs1 H1) as H2.
    destruct (insert_entry_for_validation idx1 l n d) as [di idx2]. exact H2.
  - unfold set_right_neighbor_flag, counter_consistent in *.
    destruct (search (_root idx) k) as [v|] eqn:Hs; [|exact H]. simpl.
    rewrite contribution_sum_alter_search, Hs, <- H. simpl. lia.
  - unfold recompute_local_violation_delta, counter_consistent in *.
    destruct (search (_root idx) k) as [v|] eqn:Hs; [|exact H]. simpl.
    rewrite contribution_sum_alter_search, Hs, <- H. simpl. lia.
  - unfold insert_key, counter_consistent in *.
    destruct (search (_root idx) k) as [v|] eqn:Hs; simpl.
    + rewrite contribution_sum_alter_search, Hs, <- H. simpl. lia.
    + rewrite contribution_sum__insert by exact Hshape. simpl. lia.
  - exfalso. exact (Hm k eq_refl).
Qed.


(** * Scenarios *)

(** [remove_key] erases a record without subtracting what the record
    contributed: after two FD inserts for LHS 1 the counter is 1 and agrees
    with the records; [remove_key] then empties the tree and leaves the
    counter at 1, where the sum over the records is 0. *)
Lemma remove_key_scenario :
  counter_consistent fd_violated_index
  ∧ global_violation_count fd_violated_index = 1
  ∧ tree_entries (_root (apply_mutation fd_violated_index (RemoveKey [1]))) = []
  ∧ global_violation_count (apply_mutation fd_violated_index (RemoveKey [1])) = 1
  ∧ ¬ counter_consistent (apply_mutation fd_violated_index (RemoveKey [1])).
Proof.
  vm_compute. repeat split; try reflexivity. discriminate.
Qed.

(** After OD inserts (1,30), (2,40), (3,10) and the OD delete of (2,40),
    the records of 1 and 3 are adjacent, 30 > 10, and the flag contribution
    of 1 and the counter are 0. *)
Lemma od_delete_middle_scenario :
  entry_extrema od_middle_deleted_index
  = [([1], Some 30, Some 30, 0); ([3], Some 10, Some 10, 0)]
  ∧ global_violation_count od_middle_deleted_index = 0.
Proof. vm_compute. split; reflexivity. Qed.




(** C8, as stated, fails: the sixth [insert_key] splits the full root leaf
    and moves the key 3 into the new root; the walk over the leaves does not
    visit it. *)
Lemma leaf_walk_counterexample :
  key_count six_keys_index = 6%nat
  ∧ contains_key six_keys_index [3] = true
  ∧ leaf_walk_keys six_keys_index = [[1]; [2]; [4]; [5]; [6]]
  ∧ all_keys six_keys_index = [[1]; [2]; [3]; [4]; [5]; [6]].
Proof. vm_compute. repeat split; reflexivity. Qed.


(** What [remove_key] leaves of the counter when it erases a located
    record: the counter exceeds the sum over the records by the contribution
    of the erased record. *)
Lemma remove_key_counter_gap idx k li pos e :
  well_formed idx → counter_consistent idx →
  find_leaf (_root idx) k = Some (li, pos) →
  entry_at (collect_leaves (_root idx)) li pos = Some e →
  count (value e) ≤ 1 →
  global_violation_count (apply_mutation idx (RemoveKey k))
  = contribution_sum (_root (apply_mutation idx (RemoveKey k))) + contribution e.
Proof.
  intros Hwf H Hf He Hc. pose proof Hwf as Hwf'. apply well_formedb_iff in Hwf' as [Hok Hs].
  destruct (wf_located _ _ _ _ Hok Hs Hf) as (e' & He' & _ & Hsearch & _).
  rewrite He in He'. injection He' as <-.
  simpl. unfold remove_key. rewrite Hsearch.
  replace (1 <? count (value e)) with false by (symmetry; apply Z.ltb_ge; exact Hc).
  simpl. unfold _remove_entry.
  rewrite (contribution_sum_remove_located _ k li pos e Hwf Hf He).
  unfold counter_consistent in H. lia.
Qed.

(** C1. On a well-formed index the counter stays the sum of the flag and
    local contributions of the records under every public mutation other
    than [remove_key]. [remove_key] does not keep it: when it erases a
    located record, the counter is left above the sum by the contribution of
    that record; after two FD inserts for LHS 1 the counter is 1, and
    [remove_key] empties the tree and leaves the counter at 1. *)
Theorem counter_consistent_but_for_remove_key :
  (∀ idx m,
     well_formed idx → counter_consistent idx → (∀ k, m ≠ RemoveKey k) →
     counter_consistent (apply_mutation idx m))
  ∧ (∀ idx k li pos e,
       well_formed idx → counter_consistent idx →
       find_leaf (_root idx) k = Some (li, pos) →
       entry_at (collect_leaves (_root idx)) li pos = Some e →
       count (value e) ≤ 1 →
       global_violation_count (apply_mutation idx (RemoveKey k))
       = contribution_sum (_root (apply_mutation idx (RemoveKey k))) + contribution e)
  ∧ counter_consistent fd_violated_index
  ∧ global_violation_count fd_violated_index = 1
  ∧ tree_entries (_root (apply_mutation fd_violated_index (RemoveKey [1]))) = []
  ∧ global_violation_count (apply_mutation fd_violated_index (RemoveKey [1])) = 1
  ∧ ¬ counter_consistent (apply_mutation fd_violated_index (RemoveKey [1])).
Proof.
  split; [exact counter_consistent_apply_mutation|].
  split; [exact remove_key_counter_gap|].
  exact remove_key_scenario.
Qed.

(** C2. The OD delete that empties the set of a record which is neither
    the first nor the last entry of its leaf erases the record and writes no
    other record: the flag of the predecessor is not recomputed against the
    successor of the erased record, and the flag delta returned is that of
    the erased record alone. After OD inserts (1,30), (2,40), (3,10) and the
    OD delete of (2,40), the records of 1 and 3 are adjacent, 30 > 10, and
    the flag contribution of 1 and the counter are 0, where the boundary-flag
    law asks for 1. *)
Theorem od_delete_inside_leaf_skips_predecessor :
  (∀ idx l a rest li p e les,
     find_leaf (_root idx) l = Some (li, S p) →
     collect_leaves (_root idx) !! li = Some les →
     les !! S p = Some e →
     rhs_values (value e) ∖ {[a]} = ∅ →
     is_largest_in_leaf les l = false →
     delete_entry_for_validation idx l (a :: rest) OD
     = (mkDeltas (0 - right_neighbor_flag_contribution (value e))
                 (- local_violation_count_contribution (value e)),
        mkIndex (_remove_entry
                   (set_value_at li (S p)
                      (set_rhs_values (rhs_values (value e) ∖ {[a]}) (value e)) (_root idx)) l)
                (global_violation_count idx
                 + (0 - right_neighbor_flag_contribution (value e))
                 + - local_violation_count_contribution (value e))
                (_chunk_offsets idx) (_null_positions idx)))
  ∧ entry_extrema od_middle_deleted_index
    = [([1], Some 30, Some 30, 0); ([3], Some 10, Some 10, 0)]
  ∧ global_violation_count od_middle_deleted_index = 0.
Proof.
  split; [|exact od_delete_middle_scenario].
  intros idx l a rest li p e les Hf Hles He Hempty Hlargest.
  unfold delete_entry_for_validation, _link_leaf_neighbors, entry_at.
  rewrite Hf, Hles, He. rewrite decide_True by exact Hempty.
  rewrite Hlargest, andb_false_r. reflexivity.
Qed.


(** * Lookups in a well-formed tree *)

Lemma search_Some_record n k v :
  search n k = Some v → mkEntry k v ∈ tree_entries n.
Proof.
  intros Hs. pose proof (tree_entries_alter_search id n k) as H. rewrite Hs in H.
  destruct H as (l1 & e & l2 & E & Hk & Hv & _). rewrite E.
  apply elem_of_app. right. destruct e as [ke ve]. simpl in *. subst.
  apply list_elem_of_here.
Qed.

Lemma search_stored_record n e :
  well_formedb n = true → e ∈ tree_entries n → search n (key e) = Some (value e).
Proof.
  intros Hwf Hin. apply well_formedb_iff in Hwf as [Hok Hs].
  destruct (search n (key e)) as [v|] eqn:Hsearch.
  - f_equal. pose proof (search_Some_record _ _ _ Hsearch) as Hin'.
    pose proof (sorted_key_unique _ _ _ Hs Hin' Hin eq_refl) as E. rewrite <- E. reflexivity.
  - pose proof (search_None_fresh _ _ Hok Hs Hsearch) as Hfresh.
    rewrite Forall_forall in Hfresh. exfalso. exact (Hfresh e Hin eq_refl).
Qed.

(** X1. On a well-formed index [get_value] returns exactly the record
    stored under the key, wherever in the tree it is, and [contains_key]
    answers whether the key is one of the keys of the index. *)
Theorem search_finds_the_stored_record idx k :
  well_formed idx →
  (∀ v, get_value idx k = Some v ↔ mkEntry k v ∈ tree_entries (_root idx))
  ∧ (contains_key idx k = true ↔ k ∈ all_keys idx).
Proof.
  intros Hwf. assert (Hv : ∀ v, get_value idx k = Some v
                                ↔ mkEntry k v ∈ tree_entries (_root idx)).
  { intros v. unfold get_value. split; [apply search_Some_record|].
    intros Hin. exact (search_stored_record _ _ Hwf Hin). }
  split; [exact Hv|]. unfold contains_key, all_keys. rewrite bool_decide_eq_true. split.
  - intros [v Hs]. apply Hv in Hs. apply list_elem_of_fmap. exists (mkEntry k v). auto.
  - intros Hin. apply list_elem_of_fmap in Hin as (e & -> & Hin).
    exists (value e). exact (search_stored_record _ _ Hwf Hin).
Qed.

Lemma search_finds_the_stored_record_witness :
  well_formed six_keys_index
  ∧ contains_key six_keys_index [3] = true
  ∧ contains_key six_keys_index [7] = false.
Proof.
  assert (Hwf : well_formed six_keys_index) by (vm_compute; reflexivity).
  split; [exact Hwf|]. split.
  - apply (search_finds_the_stored_record six_keys_index [3] Hwf).
    vm_compute. repeat constructor.
  - destruct (contains_key six_keys_index [7]) eqn:E; [|reflexivity].
    apply (search_finds_the_stored_record six_keys_index [7] Hwf) in E.
    vm_compute in E. repeat (apply elem_of_cons in E as [E|E]; [discriminate|]).
    apply elem_of_nil in E. contradiction.
Defined.


(** * [lower_bound] and [upper_bound] *)

Lemma filter_none {A} (P : A → Prop) `{∀ x, Decision (P x)} (l : list A) :
  Forall (λ x, ¬ P x) l → filter P l = [].
Proof.
  induction 1 as [|x l Hx Hl IH]; [reflexivity|].
  rewrite filter_cons_False by exact Hx. exact IH.
Qed.

Lemma not_below_none k l : Forall (lt_key k) l → not_below k l = [].
Proof.
  intros H. apply filter_none. eapply Forall_impl; [exact H|].
  intros x Hx. unfold lt_key in Hx. congruence.
Qed.

Lemma not_below_app k l1 l2 : not_below k (l1 ++ l2) = not_below k l1 ++ not_below k l2.
Proof. apply filter_app. Qed.

Lemma not_below_cons_true k e l :
  key_lt (key e) k = false → not_below k (e :: l) = e :: not_below k l.
Proof. intros H. unfold not_below. rewrite filter_cons_True by exact H. reflexivity. Qed.

Lemma lower_bound_spec n k :
  btree_okb n = true → StronglySorted entry_lt (tree_entries n) →
  lower_bound n k = value <$> head (not_below k (tree_entries n)).
Proof.
  induction n as [t lf es cs IH] using BTreeNode_children_ind. intros Hb Hs. destruct lf.
  - simpl in Hs. destruct (leaf_key_position k es Hs) as [Hlt Hrest].
    simpl tree_entries. rewrite <- (take_drop (scan_up k es) es) at 2.
    rewrite not_below_app, (not_below_none _ _ Hlt). simpl.
    destruct (es !! scan_up k es) as [e|] eqn:He.
    + destruct Hrest as [Hle _]. rewrite (drop_S _ _ _ He), (not_below_cons_true _ _ _ Hle).
      simpl. destruct (key_eq k (key e)); reflexivity.
    + rewrite Hrest. reflexivity.
  - destruct (node_key_position t es cs k Hb Hs)
      as (c & Bf & Af & Hc & Hte & _ & _ & HBf & Hcb & Hcs & HAf).
    rewrite Hte, !not_below_app, (not_below_none _ _ HBf). simpl app.
    eapply Forall_lookup_1 in IH; [|exact Hc]. specialize (IH Hcb Hcs).
    simpl lower_bound. rewrite apply_nth_lookup, Hc, IH.
    destruct (es !! scan_up k es) as [e|] eqn:He.
    + destruct HAf as (Hle & A & -> & _). rewrite (not_below_cons_true _ _ _ Hle).
      destruct (key_eq k (key e)) eqn:Ek.
      * (* the key itself: every record of the child is below it *)
        apply key_eq_true in Ek. rewrite not_below_none; [reflexivity|].
        apply Forall_forall. intros x Hx. unfold lt_key. rewrite Ek.
        rewrite Hte in Hs. apply StronglySorted_app_1_r in Hs.
        eapply (StronglySorted_app_1_elem_of _ _ _ _ _ Hs Hx). apply list_elem_of_here.
      * destruct (not_below k (tree_entries c)) as [|x r]; reflexivity.
    + rewrite HAf, app_nil_r. reflexivity.
Qed.

(** X2. On a well-formed index [lower_bound] returns the record of the
    least key that is not below the searched one, whether that record sits
    in a leaf or in an internal node, and nothing when every key is below
    it; [_lower_bound] is the [start_index] of that record, or [cend()]. *)
Theorem lower_bound_least_record idx k :
  well_formed idx →
  lower_bound (_root idx) k = value <$> head (not_below k (tree_entries (_root idx)))
  ∧ _lower_bound idx k
    = match head (not_below k (tree_entries (_root idx))) with
      | Some e => start_index (value e)
      | None => Z.of_nat (length (_chunk_offsets idx))
      end.
Proof.
  intros Hwf. apply well_formedb_iff in Hwf as [Hb Hs].
  pose proof (lower_bound_spec (_root idx) k Hb Hs) as H. split; [exact H|].
  unfold _lower_bound, _cend, _cbegin. rewrite H.
  destruct (head (not_below k (tree_entries (_root idx)))); reflexivity.
Qed.

Lemma lower_bound_least_record_witness :
  well_formed six_keys_index
  ∧ lower_bound (_root six_keys_index) [3]
    = value <$> head (not_below [3] (tree_entries (_root six_keys_index)))
  ∧ lower_bound (_root six_keys_index) [7] = None.
Proof.
  assert (Hwf : well_formed six_keys_index) by (vm_compute; reflexivity).
  split; [exact Hwf|]. split.
  - apply (lower_bound_least_record six_keys_index [3] Hwf).
  - rewrite (proj1 (lower_bound_least_record six_keys_index [7] Hwf)). vm_compute. reflexivity.
Defined.

(** The scan of [upper_bound]. *)
Lemma scan_past_spec k es :
  (scan_past k es ≤ length es)%nat
  ∧ (∀ j e, (j < scan_past k es)%nat → es !! j = Some e → key_lt k (key e) = false)
  ∧ (∀ e, es !! scan_past k es = Some e → key_lt k (key e) = true).
Proof.
  induction es as [|e0 es IH]; simpl.
  - split; [lia|]. split; [intros; lia | intros; discriminate].
  - destruct (key_lt k (key e0)) eqn:Hk.
    + split; [lia|]. split; [intros; lia|]. intros e He. simpl in He. congruence.
    + destruct IH as (H1 & H2 & H3). split; [lia|]. split.
      * intros [|j] e Hj He; simpl in He; [congruence | apply (H2 j); [lia | exact He]].
      * intros e He. simpl in He. apply H3. exact He.
Qed.

Lemma above_none k l : Forall (λ x, key_lt k (key x) = false) l → above k l = [].
Proof.
  intros H. apply filter_none. eapply Forall_impl; [exact H|]. intros x Hx. congruence.
Qed.

Lemma above_all k l : Forall (gt_key k) l → above k l = l.
Proof.
  induction 1 as [|x l Hx Hl IH]; [reflexivity|].
  unfold above. rewrite filter_cons_True by exact Hx. f_equal. exact IH.
Qed.

Lemma above_app k l1 l2 : above k (l1 ++ l2) = above k l1 ++ above k l2.
Proof. apply filter_app. Qed.

Lemma sorted_after_above (A : list BTreeEntry) e k :
  StronglySorted entry_lt (e :: A) → key_lt k (key e) = true → Forall (gt_key k) (e :: A).
Proof.
  intros Hs Hk. constructor; [exact Hk|]. apply StronglySorted_inv in Hs as [_ Hall].
  eapply Forall_impl; [exact Hall|]. intros x Hx. unfold gt_key.
  exact (key_lt_trans _ _ _ Hk Hx).
Qed.

Lemma upper_bound_spec n k :
  btree_okb n = true → StronglySorted entry_lt (tree_entries n) →
  upper_bound n k = value <$> head (above k (tree_entries n)).
Proof.
  induction n as [t lf es cs IH] using BTreeNode_children_ind. intros Hb Hs.
  pose proof (scan_past_spec k es) as (Hq & Hlo & Hhi).
  destruct lf.
  - simpl in Hs. simpl upper_bound. simpl tree_entries.
    replace (above k es) with (above k (take (scan_past k es) es ++ drop (scan_past k es) es))
      by (rewrite take_drop; reflexivity).
    rewrite above_app. rewrite above_none.
    2:{ apply Forall_lookup_2. intros j x Hx. apply lookup_take_Some in Hx as [Hx Hj].
        exact (Hlo j x Hj Hx). }
    simpl. destruct (es !! scan_past k es) as [e|] eqn:He.
    + rewrite (drop_S _ _ _ He). unfold above. rewrite filter_cons_True by (apply Hhi; reflexivity).
      reflexivity.
    + apply lookup_ge_None in He. rewrite drop_ge by lia. reflexivity.
  - set (q := scan_past k es) in *.
    pose proof Hb as Hb'. apply btree_ok_node in Hb' as (Ht & H).
    destruct (H eq_refl) as [Hlen Hcs]. clear H.
    destruct (lookup_lt_is_Some_2 cs q) as [c Hc]; [lia|].
    assert (Hc' : (tree_entries <$> cs) !! q = Some (tree_entries c))
      by (rewrite list_lookup_fmap, Hc; reflexivity).
    simpl tree_entries in *. rewrite (interleave_at _ es q _ Hc' Hq) in Hs |- *.
    assert (HBf : Forall (λ x, key_lt k (key x) = false)
                    (interleave_before (tree_entries <$> cs) es q)).
    { destruct (decide (q = 0%nat)) as [E|Hne]; [rewrite E; constructor|].
      destruct (interleave_before_last (tree_entries <$> cs) es q)
        as (B & e & EB & He); [lia | lia | rewrite length_fmap; lia|].
      rewrite EB. apply sorted_before_bound.
      - rewrite <- EB. eapply StronglySorted_app_1_l. exact Hs.
      - apply (Hlo (q - 1)%nat); [lia | exact He]. }
    rewrite !above_app, (above_none _ _ HBf). simpl app.
    eapply Forall_lookup_1 in IH; [|exact Hc].
    change (upper_bound (mkNode t false es cs) k)
      with (match apply_nth (λ c, upper_bound c k) None cs q with
            | Some r => Some r
            | None => value <$> es !! q
            end).
    rewrite apply_nth_lookup, Hc.
    rewrite (IH (Forall_lookup_1 _ _ _ _ Hcs Hc)).
    2:{ apply StronglySorted_app_1_r in Hs. apply StronglySorted_app_1_l in Hs. exact Hs. }
    pose proof (interleave_after_head (tree_entries <$> cs) es q) as Hhead.
    rewrite length_fmap in Hhead. specialize (Hhead Hlen).
    destruct (es !! q) as [e|] eqn:He.
    + destruct Hhead as [A EA]. rewrite EA.
      assert (HA : Forall (gt_key k) (e :: A)).
      { apply sorted_after_above; [|apply Hhi; reflexivity].
        rewrite <- EA. apply StronglySorted_app_1_r in Hs.
        apply StronglySorted_app_1_r in Hs. exact Hs. }
      rewrite (above_all _ _ HA).
      destruct (above k (tree_entries c)) as [|x r]; reflexivity.
    + rewrite Hhead, app_nil_r.
      destruct (above k (tree_entries c)) as [|x r]; reflexivity.
Qed.

(** X3. On a well-formed index [upper_bound] returns the record of the
    least key above the searched one, and nothing when no key is above it;
    [_upper_bound] is the [start_index] of that record, or [cend()]. *)
Theorem upper_bound_least_record_above idx k :
  well_formed idx →
  upper_bound (_root idx) k = value <$> head (above k (tree_entries (_root idx)))
  ∧ _upper_bound idx k
    = match head (above k (tree_entries (_root idx))) with
      | Some e => start_index (value e)
      | None => Z.of_nat (length (_chunk_offsets idx))
      end.
Proof.
  intros Hwf. apply well_formedb_iff in Hwf as [Hb Hs].
  pose proof (upper_bound_spec (_root idx) k Hb Hs) as H. split; [exact H|].
  unfold _upper_bound, _cend, _cbegin. rewrite H.
  destruct (head (above k (tree_entries (_root idx)))); reflexivity.
Qed.

Lemma upper_bound_least_record_above_witness :
  well_formed six_keys_index
  ∧ upper_bound (_root six_keys_index) [2]
    = value <$> head (above [2] (tree_entries (_root six_keys_index)))
  ∧ upper_bound (_root six_keys_index) [6] = None.
Proof.
  assert (Hwf : well_formed six_keys_index) by (vm_compute; reflexivity).
  split; [exact Hwf|]. split.
  - apply (upper_bound_least_record_above six_keys_index [2] Hwf).
  - rewrite (proj1 (upper_bound_least_record_above six_keys_index [6] Hwf)).
    vm_compute. reflexivity.
Defined.


(** * [get_min_key] and [get_max_key] *)

Lemma collect_leaves_nonempty n : shape_ok n → collect_leaves n ≠ [].
Proof.
  induction n as [t lf es cs IH] using BTreeNode_children_ind. intros Hshape.
  destruct lf; [discriminate|]. apply shape_ok_node in Hshape as [_ H].
  destruct (H eq_refl) as [Hlen Hcs]. destruct cs as [|c cs]; [simpl in Hlen; lia|].
  inversion IH as [|? ? Hc _]; subst. inversion Hcs as [|? ? Hsc _]; subst.
  simpl. intros E. apply app_eq_nil in E as [E _]. exact (Hc Hsc E).
Qed.

Lemma get_min_key_first n e r :
  shape_ok n → head (collect_leaves n) = Some (e :: r) →
  get_min_key n = key e ∧ head (tree_entries n) = Some e.
Proof.
  induction n as [t lf es cs IH] using BTreeNode_children_ind. intros Hshape Hhead.
  destruct lf.
  - simpl in Hhead. injection Hhead as ->. auto.
  - apply shape_ok_node in Hshape as [_ H]. destruct (H eq_refl) as [Hlen Hcs].
    destruct cs as [|c cs]; [simpl in Hlen; lia|].
    inversion IH as [|? ? Hc _]; subst. inversion Hcs as [|? ? Hsc _]; subst.
    pose proof (collect_leaves_nonempty c Hsc) as Hne.
    assert (Hhc : head (collect_leaves c) = Some (e :: r)).
    { simpl in Hhead. destruct (collect_leaves c) as [|x l]; [contradiction | exact Hhead]. }
    destruct (Hc Hsc Hhc) as [Hmin Hte]. split; [exact Hmin|].
    simpl. destruct (tree_entries c) as [|x l]; [discriminate | exact Hte].
Qed.

Lemma last_concat_nonempty {A} (ls : list (list A)) l :
  last ls = Some l → l ≠ [] → last (concat ls) = last l.
Proof.
  intros Hl Hne. apply last_Some in Hl as [ls' ->].
  rewrite concat_app. simpl. rewrite app_nil_r.
  destruct (last l) as [x|] eqn:E.
  - apply last_Some in E as [l' ->]. rewrite app_assoc. apply last_snoc.
  - apply last_None in E. contradiction.
Qed.

Lemma get_max_key_last n les e :
  btree_okb n = true → last (collect_leaves n) = Some les → last les = Some e →
  get_max_key n = key e ∧ last (tree_entries n) = Some e.
Proof.
  revert les. induction n as [t lf es cs IH] using BTreeNode_children_ind.
  intros les Hb Hlast He. destruct lf.
  - simpl in Hlast. injection Hlast as ->. simpl. rewrite He. auto.
  - pose proof Hb as Hb'. apply btree_ok_node in Hb' as (Ht & H).
    destruct (H eq_refl) as [Hlen Hcs]. clear H.
    destruct (lookup_lt_is_Some_2 cs (length cs - 1)) as [c Hc]; [lia|].
    assert (Hclast : last cs = Some c).
    { rewrite last_lookup. replace (pred (length cs)) with (length cs - 1)%nat by lia.
      exact Hc. }
    pose proof (Forall_lookup_1 _ _ _ _ Hcs Hc) as Hcb.
    pose proof (collect_leaves_nonempty c (btree_ok_shape_ok _ Hcb)) as Hne.
    assert (Hlc : last (collect_leaves c) = Some les).
    { change (collect_leaves (mkNode t false es cs))
        with (concat (collect_leaves <$> cs)) in Hlast.
      rewrite (last_concat_nonempty (collect_leaves <$> cs) (collect_leaves c)) in Hlast;
        [exact Hlast | | exact Hne].
      rewrite fmap_last, Hclast. reflexivity. }
    eapply Forall_lookup_1 in IH; [|exact Hc].
    destruct (IH les Hcb Hlc He) as [Hmax Hte]. split.
    + simpl. rewrite apply_nth_lookup, Hc. exact Hmax.
    + assert (Hc' : (tree_entries <$> cs) !! (length cs - 1)%nat = Some (tree_entries c))
        by (rewrite list_lookup_fmap, Hc; reflexivity).
      simpl tree_entries.
      rewrite (interleave_at _ es (length cs - 1) _ Hc') by lia.
      assert (Hafter : interleave_after (tree_entries <$> cs) es (length cs - 1) = []).
      { unfold interleave_after. rewrite drop_ge by lia.
        rewrite drop_ge by (rewrite length_fmap; lia). reflexivity. }
      rewrite Hafter, app_nil_r.
      apply last_Some in Hte as [l' ->]. rewrite app_assoc. apply last_snoc.
Qed.

Lemma sorted_head_least (l : list BTreeEntry) e :
  StronglySorted entry_lt l → head l = Some e →
  Forall (λ x, key_lt (key x) (key e) = false) l.
Proof.
  intros Hs Hh. destruct l as [|x l]; [discriminate|]. injection Hh as ->.
  apply StronglySorted_inv in Hs as [_ Hall]. constructor; [apply key_lt_irrefl|].
  eapply Forall_impl; [exact Hall|]. intros y Hy. apply key_lt_asym. exact Hy.
Qed.

Lemma sorted_last_greatest (l : list BTreeEntry) e :
  StronglySorted entry_lt l → last l = Some e →
  Forall (λ x, key_lt (key e) (key x) = false) l.
Proof.
  intros Hs Hl. apply last_Some in Hl as [l' ->]. apply Forall_app. split.
  - apply Forall_forall. intros x Hx. apply key_lt_asym.
    eapply (StronglySorted_app_1_elem_of _ _ _ _ _ Hs Hx). apply list_elem_of_here.
  - constructor; [apply key_lt_irrefl | constructor].
Qed.

(** X4. On a well-formed index whose leftmost leaf holds an entry,
    [get_min_key] of the root is the key of the first record of the index,
    and no key of the index is below it; when the rightmost leaf holds an
    entry, [get_max_key] is the key of the last record and no key is above
    it. *)
Theorem extreme_keys idx :
  well_formed idx →
  (∀ e r, head (collect_leaves (_root idx)) = Some (e :: r) →
     get_min_key (_root idx) = key e
     ∧ head (all_keys idx) = Some (key e)
     ∧ Forall (λ k, key_lt k (get_min_key (_root idx)) = false) (all_keys idx))
  ∧ (∀ les e, last (collect_leaves (_root idx)) = Some les → last les = Some e →
       get_max_key (_root idx) = key e
       ∧ last (all_keys idx) = Some (key e)
       ∧ Forall (λ k, key_lt (get_max_key (_root idx)) k = false) (all_keys idx)).
Proof.
  intros Hwf. apply well_formedb_iff in Hwf as [Hb Hs]. unfold all_keys. split.
  - intros e r Hh.
    destruct (get_min_key_first _ e r (btree_ok_shape_ok _ Hb) Hh) as [Hmin Hte].
    split; [exact Hmin|].
    split; [destruct (tree_entries (_root idx)); [discriminate|]; injection Hte as ->;
            reflexivity|].
    rewrite Hmin. apply Forall_fmap. exact (sorted_head_least _ _ Hs Hte).
  - intros les e Hl He. destruct (get_max_key_last _ les e Hb Hl He) as [Hmax Hte].
    split; [exact Hmax|]. split; [rewrite fmap_last, Hte; reflexivity|].
    rewrite Hmax. apply Forall_fmap. exact (sorted_last_greatest _ _ Hs Hte).
Qed.

Lemma extreme_keys_witness :
  well_formed six_keys_index
  ∧ get_min_key (_root six_keys_index) = [1]
  ∧ get_max_key (_root six_keys_index) = [6]
  ∧ Forall (λ k, key_lt k [1] = false) (all_keys six_keys_index).
Proof.
  assert (Hwf : well_formed six_keys_index) by (vm_compute; reflexivity).
  split; [exact Hwf|].
  destruct (extreme_keys six_keys_index Hwf) as [Hmin Hmax].
  assert (Hh : ∃ e r, head (collect_leaves (_root six_keys_index)) = Some (e :: r)
                      ∧ key e = [1]).
  { eexists _, _. split; [vm_compute; reflexivity | reflexivity]. }
  destruct Hh as (e & r & Hh & Hk).
  destruct (Hmin e r Hh) as (H1 & _ & H3). rewrite Hk in H1.
  split; [exact H1|]. split; [vm_compute; reflexivity|]. rewrite <- H1. exact H3.
Defined.


(** * The key operations *)

Lemma count_keys_tree_entries n : count_keys n = length (tree_entries n).
Proof.
  induction n as [t lf es cs IH] using BTreeNode_children_ind. simpl.
  destruct lf; [lia|]. rewrite interleave_Permutation, length_app. f_equal.
  induction cs as [|c cs IHcs]; [reflexivity|].
  inversion IH as [|? ? Hc Hcs]; subst. simpl. rewrite length_app, Hc, (IHcs Hcs). reflexivity.
Qed.

Lemma scan_up_same_keys k (es es' : list BTreeEntry) :
  key <$> es = key <$> es' → scan_up k es = scan_up k es'.
Proof.
  revert es'. induction es as [|e es IH]; intros [|e' es'] E; try discriminate; [reflexivity|].
  simpl in *. injection E as Ek E. rewrite Ek, (IH es' E). reflexivity.
Qed.

(** A write through the pointer of [search] is seen by a later [search] of
    the same key and by no other. *)
Lemma search_alter_search f n k k' :
  search (alter_search f n k) k'
  = if decide (k' = k) then f <$> search n k else search n k'.
Proof.
  induction n as [t lf es cs IH] using BTreeNode_children_ind.
  assert (Hchild : ∀ j,
            apply_nth (λ c, search c k') None (alter (λ c, alter_search f c k) j cs)
              (scan_up k' es)
            = if decide (k' = k)
              then (if decide (j = scan_up k es)
                    then f <$> apply_nth (λ c, search c k) None cs (scan_up k es)
                    else apply_nth (λ c, search c k) None cs (scan_up k es))
              else apply_nth (λ c, search c k') None cs (scan_up k' es)).
  { intros j. rewrite !apply_nth_lookup.
    destruct (decide (j = scan_up k' es)) as [->|Hne].
    - rewrite list_lookup_alter_eq.
      destruct (cs !! scan_up k' es) as [c|] eqn:Hc; simpl.
      + rewrite (Forall_lookup_1 _ _ _ _ IH Hc).
        destruct (decide (k' = k)) as [->|]; [|reflexivity].
        rewrite decide_True by reflexivity. rewrite Hc. reflexivity.
      + destruct (decide (k' = k)) as [->|]; [|reflexivity].
        rewrite decide_True by reflexivity. rewrite Hc. reflexivity.
    - rewrite list_lookup_alter_ne by exact Hne.
      destruct (decide (k' = k)) as [->|]; [|reflexivity].
      rewrite decide_False by exact Hne. reflexivity. }
  simpl alter_search.
  destruct (es !! scan_up k es) as [e|] eqn:He.
  - destruct (key_eq k (key e)) eqn:Ek.
    + (* the record is an entry of this node *)
      apply key_eq_true in Ek.
      assert (Hkeys : key <$> <[scan_up k es := mkEntry (key e) (f (value e))]> es
                      = key <$> es).
      { rewrite list_fmap_insert. simpl. apply list_insert_id.
        rewrite list_lookup_fmap, He. reflexivity. }
      simpl search. rewrite (scan_up_same_keys k' _ es Hkeys).
      destruct (decide (k' = k)) as [->|Hne].
      * rewrite list_lookup_insert_eq by (apply lookup_lt_Some in He; exact He).
        simpl. rewrite He. rewrite <- Ek.
        replace (key_eq k k) with true by (symmetry; apply key_eq_true; reflexivity).
        reflexivity.
      * destruct (decide (scan_up k es = scan_up k' es)) as [E|E].
        -- rewrite <- E, list_lookup_insert_eq by (apply lookup_lt_Some in He; exact He).
           simpl. rewrite He.
           replace (key_eq k' (key e)) with false
             by (symmetry; apply key_eq_false; congruence).
           reflexivity.
        -- rewrite list_lookup_insert_ne by exact E. reflexivity.
    + destruct lf.
      * simpl. destruct (decide (k' = k)) as [->|]; [|reflexivity].
        rewrite He, Ek. reflexivity.
      * simpl search. rewrite (Hchild (scan_up k es)).
        destruct (decide (k' = k)) as [->|]; [|reflexivity].
        rewrite decide_True by reflexivity. rewrite He, Ek. reflexivity.
  - destruct lf.
    + simpl. destruct (decide (k' = k)) as [->|]; [|reflexivity].
      rewrite He. reflexivity.
    + simpl search. rewrite (Hchild (scan_up k es)).
      destruct (decide (k' = k)) as [->|]; [|reflexivity].
      rewrite decide_True by reflexivity. rewrite He. reflexivity.
Qed.

(** A write that changes nothing on the record found leaves the tree. *)
Lemma alter_search_fixed f n k :
  (∀ v, search n k = Some v → f v = v) → alter_search f n k = n.
Proof.
  induction n as [t lf es cs IH] using BTreeNode_children_ind. intros Hf. simpl in *.
  assert (Hdesc : (∀ v, (if lf then None else apply_nth (λ c, search c k) None cs (scan_up k es))
                        = Some v → f v = v) →
                  (if lf then mkNode t lf es cs
                   else mkNode t lf es (alter (λ c, alter_search f c k) (scan_up k es) cs))
                  = mkNode t lf es cs).
  { intros Hv. destruct lf; [reflexivity|]. f_equal. rewrite apply_nth_lookup in Hv.
    apply list_eq. intros j. destruct (decide (scan_up k es = j)) as [<-|Hne].
    - rewrite list_lookup_alter_eq. destruct (cs !! scan_up k es) as [c|] eqn:Hc; [|reflexivity].
      simpl. f_equal. exact (Forall_lookup_1 _ _ _ _ IH Hc Hv).
    - rewrite list_lookup_alter_ne by exact Hne. reflexivity. }
  destruct (es !! scan_up k es) as [e|] eqn:He; [|exact (Hdesc Hf)].
  destruct (key_eq k (key e)); [|exact (Hdesc Hf)].
  f_equal. rewrite (Hf (value e) eq_refl). destruct e. simpl. apply list_insert_id. exact He.
Qed.

Lemma alter_search_ext f g n k :
  (∀ v, f v = g v) → alter_search f n k = alter_search g n k.
Proof.
  intros Hfg. induction n as [t lf es cs IH] using BTreeNode_children_ind. simpl.
  assert (Hcs : alter (λ c, alter_search f c k) (scan_up k es) cs
                = alter (λ c, alter_search g c k) (scan_up k es) cs).
  { apply list_eq. intros j. destruct (decide (scan_up k es = j)) as [<-|Hne].
    - rewrite !list_lookup_alter_eq. destruct (cs !! scan_up k es) as [c|] eqn:Hc; [|reflexivity].
      simpl. f_equal. exact (Forall_lookup_1 _ _ _ _ IH Hc).
    - rewrite !list_lookup_alter_ne by exact Hne. reflexivity. }
  rewrite Hcs. destruct (es !! scan_up k es) as [e|]; [|reflexivity].
  rewrite Hfg. reflexivity.
Qed.

Lemma alter_search_compose f g n k :
  alter_search g (alter_search f n k) k = alter_search (g ∘ f) n k.
Proof.
  induction n as [t lf es cs IH] using BTreeNode_children_ind.
  assert (Hcs : alter (λ c, alter_search g c k) (scan_up k es)
                  (alter (λ c, alter_search f c k) (scan_up k es) cs)
                = alter (λ c, alter_search (g ∘ f) c k) (scan_up k es) cs).
  { apply list_eq. intros j. destruct (decide (scan_up k es = j)) as [<-|Hne].
    - rewrite !list_lookup_alter_eq. destruct (cs !! scan_up k es) as [c|] eqn:Hc; [|reflexivity].
      simpl. f_equal. exact (Forall_lookup_1 _ _ _ _ IH Hc).
    - rewrite !list_lookup_alter_ne by exact Hne. reflexivity. }
  simpl alter_search at 2 3.
  destruct (es !! scan_up k es) as [e|] eqn:He.
  - destruct (key_eq k (key e)) eqn:Ek.
    + assert (Hkeys : key <$> <[scan_up k es := mkEntry (key e) (f (value e))]> es
                      = key <$> es).
      { rewrite list_fmap_insert. simpl. apply list_insert_id.
        rewrite list_lookup_fmap, He. reflexivity. }
      simpl alter_search. rewrite (scan_up_same_keys k _ es Hkeys).
      rewrite list_lookup_insert_eq by (apply lookup_lt_Some in He; exact He).
      simpl. rewrite Ek, list_insert_insert_eq. reflexivity.
    + destruct lf; simpl alter_search; rewrite He, Ek; [reflexivity|].
      rewrite Hcs. reflexivity.
  - destruct lf; simpl alter_search; rewrite He; [reflexivity|].
    rewrite Hcs. reflexivity.
Qed.

(** Two well-formed trees that store the same record under a key answer a
    [search] of that key alike. *)
Lemma search_same_records n n' k :
  well_formedb n = true → well_formedb n' = true →
  (∀ v, mkEntry k v ∈ tree_entries n ↔ mkEntry k v ∈ tree_entries n') →
  search n k = search n' k.
Proof.
  intros Hwf Hwf' Hiff.
  destruct (search n k) as [v|] eqn:Hs.
  - apply search_Some_record, Hiff in Hs. symmetry.
    exact (search_stored_record n' (mkEntry k v) Hwf' Hs).
  - destruct (search n' k) as [v|] eqn:Hs'; [|reflexivity].
    apply search_Some_record, Hiff in Hs'.
    pose proof (search_stored_record n (mkEntry k v) Hwf Hs') as E. simpl in E. congruence.
Qed.

Lemma contains_key_search idx k :
  contains_key idx k = false ↔ search (_root idx) k = None.
Proof.
  unfold contains_key. rewrite bool_decide_eq_false. split.
  - intros H. destruct (search (_root idx) k); [|reflexivity]. exfalso. apply H. eauto.
  - intros -> [v Hv]. discriminate.
Qed.

(** X5. [insert_key] of a key that the index does not hold returns [true]
    and adds one record with count 1 under that key: the key is found
    afterwards, every other key keeps its record, the number of keys grows
    by one and the tree stays well formed. *)
Theorem insert_key_new_key idx k :
  well_formed idx → contains_key idx k = false →
  (insert_key idx k).1 = true
  ∧ well_formed (insert_key idx k).2
  ∧ get_value (insert_key idx k).2 k = Some (new_value 1)
  ∧ (∀ k', k' ≠ k → get_value (insert_key idx k).2 k' = get_value idx k')
  ∧ key_count (insert_key idx k).2 = S (key_count idx)
  ∧ global_violation_count (insert_key idx k).2 = global_violation_count idx.
Proof.
  intros Hwf Hc. apply contains_key_search in Hc. unfold insert_key. rewrite Hc. simpl.
  pose proof (well_formedb__insert _ k (new_value 1) Hwf Hc) as Hwf'.
  pose proof Hwf as Hwf0. apply well_formedb_iff in Hwf0 as [Hok Hsorted].
  destruct (_insert_entries (_root idx) k (new_value 1) (btree_ok_shape_ok _ Hok))
    as (_ & _ & l1 & l2 & E1 & E2 & _).
  assert (Hin : mkEntry k (new_value 1) ∈ tree_entries (_insert (_root idx) k (new_value 1))).
  { rewrite E2. apply elem_of_app. right. apply list_elem_of_here. }
  split; [reflexivity|]. split; [exact Hwf'|]. split.
  { unfold get_value. simpl.
    exact (search_stored_record _ (mkEntry k (new_value 1)) Hwf' Hin). }
  split.
  { intros k' Hne. unfold get_value. simpl. apply search_same_records; [exact Hwf'|exact Hwf|].
    intros v. rewrite E1, E2, !elem_of_app, elem_of_cons. split.
    - intros [H|[H|H]]; [left; exact H | congruence | right; exact H].
    - intros [H|H]; [left; exact H | right; right; exact H]. }
  split; [|reflexivity].
  unfold key_count. simpl. rewrite !count_keys_tree_entries, E1, E2, !length_app. simpl. lia.
Qed.

Lemma insert_key_new_key_witness :
  well_formed six_keys_index ∧ contains_key six_keys_index [7] = false
  ∧ get_value (insert_key six_keys_index [7]).2 [7] = Some (new_value 1)
  ∧ key_count (insert_key six_keys_index [7]).2 = 7%nat.
Proof.
  assert (Hwf : well_formed six_keys_index) by (vm_compute; reflexivity).
  assert (Hc : contains_key six_keys_index [7] = false) by (vm_compute; reflexivity).
  split; [exact Hwf|]. split; [exact Hc|].
  destruct (insert_key_new_key six_keys_index [7] Hwf Hc) as (_ & _ & Hg & _ & Hn & _).
  split; [exact Hg|]. rewrite Hn. vm_compute. reflexivity.
Defined.

Lemma key_count_alter_search f idx k :
  count_keys (alter_search f (_root idx) k) = count_keys (_root idx).
Proof.
  rewrite !count_keys_tree_entries.
  pose proof (tree_entries_alter_search f (_root idx) k) as H.
  destruct (search (_root idx) k).
  - destruct H as (l1 & e & l2 & -> & _ & _ & ->). rewrite !length_app. reflexivity.
  - rewrite H. reflexivity.
Qed.

(** X6. [insert_key] of a key that the index holds returns [false] and adds
    one to the count of its record, as a 32-bit unsigned number: from
    4294967295 the count goes to 0.  Nothing else of the record changes,
    every other key keeps its record, and the number of keys is the same. *)
Theorem insert_key_existing_key idx k v :
  get_value idx k = Some v →
  (insert_key idx k).1 = false
  ∧ get_value (insert_key idx k).2 k
    = Some (mkValue (start_index v) ((count v + 1) mod 4294967296) (rhs_values v)
              (min_rhs v) (max_rhs v) (right_neighbor_flag v)
              (right_neighbor_flag_contribution v) (local_violation_count_contribution v))
  ∧ (∀ k', k' ≠ k → get_value (insert_key idx k).2 k' = get_value idx k')
  ∧ key_count (insert_key idx k).2 = key_count idx
  ∧ all_keys (insert_key idx k).2 = all_keys idx
  ∧ (well_formed idx → well_formed (insert_key idx k).2).
Proof.
  unfold get_value, insert_key. intros Hs. rewrite Hs. simpl.
  split; [reflexivity|]. split.
  { rewrite search_alter_search, decide_True by reflexivity. rewrite Hs. reflexivity. }
  split.
  { intros k' Hne. rewrite search_alter_search, decide_False by exact Hne. reflexivity. }
  split; [apply key_count_alter_search|]. split.
  { unfold all_keys. simpl.
    pose proof (tree_entries_alter_search (λ v, set_count (ChunkOffset_incr (count v)) v) (_root idx) k) as H.
    rewrite Hs in H. destruct H as (l1 & e & l2 & -> & _ & _ & ->).
    rewrite !fmap_app. reflexivity. }
  apply well_formedb_alter_search.
Qed.

Lemma insert_key_existing_key_witness :
  get_value six_keys_index [3] = Some (new_value 1)
  ∧ count <$> get_value (insert_key (insert_key six_keys_index [3]).2 [3]).2 [3] = Some 3.
Proof.
  assert (H1 : get_value six_keys_index [3] = Some (new_value 1)) by (vm_compute; reflexivity).
  split; [exact H1|].
  destruct (insert_key_existing_key six_keys_index [3] _ H1) as (_ & H2 & _).
  destruct (insert_key_existing_key _ [3] _ H2) as (_ & H3 & _).
  rewrite H3. reflexivity.
Defined.


(** * [remove_key] *)

(** X7. [remove_key] returns [true] exactly when the key is held with a
    count of at most one.  On a key that is not held it changes nothing;
    on a key held with a larger count it takes one from the count of that
    record and leaves every other record and the set of keys as they are. *)
Theorem remove_key_keeps_counted_record idx k :
  ((remove_key idx k).1 = true ↔ ∃ v, get_value idx k = Some v ∧ count v <= 1)
  ∧ (contains_key idx k = false → remove_key idx k = (false, idx))
  ∧ (∀ v, get_value idx k = Some v → 1 < count v →
       get_value (remove_key idx k).2 k = Some (set_count (count v - 1) v)
       ∧ (∀ k', k' ≠ k → get_value (remove_key idx k).2 k' = get_value idx k')
       ∧ all_keys (remove_key idx k).2 = all_keys idx
       ∧ global_violation_count (remove_key idx k).2 = global_violation_count idx).
Proof.
  unfold get_value, remove_key. split; [|split].
  - destruct (search (_root idx) k) as [v|].
    + destruct (1 <? count v) eqn:E; simpl.
      * apply Z.ltb_lt in E. split; [discriminate|]. intros (w & Hw & Hle).
        injection Hw as <-. lia.
      * apply Z.ltb_ge in E. split; [|reflexivity]. intros _. eauto.
    + simpl. split; [discriminate|]. intros (w & Hw & _). discriminate.
  - intros Hc. apply contains_key_search in Hc. rewrite Hc. reflexivity.
  - intros v Hs Hlt. rewrite Hs. apply Z.ltb_lt in Hlt. rewrite Hlt. simpl.
    split.
    { rewrite search_alter_search, decide_True by reflexivity. rewrite Hs. reflexivity. }
    split.
    { intros k' Hne. rewrite search_alter_search, decide_False by exact Hne. reflexivity. }
    split; [|reflexivity].
    unfold all_keys. simpl.
    pose proof (tree_entries_alter_search (λ v, set_count (count v - 1) v) (_root idx) k) as H.
    rewrite Hs in H. destruct H as (l1 & e & l2 & -> & _ & _ & ->).
    rewrite !fmap_app. reflexivity.
Qed.

Lemma remove_key_keeps_counted_record_witness :
  remove_key six_keys_index [7] = (false, six_keys_index)
  ∧ get_value (remove_key (insert_key six_keys_index [3]).2 [3]).2 [3]
    = Some (set_count 1 (set_count 2 (new_value 1))).
Proof.
  split.
  - apply (remove_key_keeps_counted_record six_keys_index [7]). vm_compute. reflexivity.
  - assert (H : get_value (insert_key six_keys_index [3]).2 [3]
                = Some (set_count 2 (new_value 1))) by (vm_compute; reflexivity).
    destruct (remove_key_keeps_counted_record (insert_key six_keys_index [3]).2 [3])
      as (_ & _ & Hdec).
    destruct (Hdec _ H) as (Hg & _); [simpl; lia|]. exact Hg.
Defined.

(** X8. [remove_key] of a key whose record is in a leaf and has a count of
    at most one returns [true] and erases that record: the key is no longer
    found, every other key keeps its record, the number of keys falls by
    one and the tree stays well formed. *)
Theorem remove_key_erases_last_occurrence idx k v :
  well_formed idx → get_value idx k = Some v → count v <= 1 →
  is_Some (find_leaf (_root idx) k) →
  (remove_key idx k).1 = true
  ∧ well_formed (remove_key idx k).2
  ∧ contains_key (remove_key idx k).2 k = false
  ∧ (∀ k', k' ≠ k → get_value (remove_key idx k).2 k' = get_value idx k')
  ∧ S (key_count (remove_key idx k).2) = key_count idx
  ∧ global_violation_count (remove_key idx k).2 = global_violation_count idx.
Proof.
  unfold get_value, remove_key. intros Hwf Hs Hle Hf. rewrite Hs.
  replace (1 <? count v) with false by (symmetry; apply Z.ltb_ge; exact Hle). simpl.
  unfold _remove_entry.
  pose proof (well_formedb_remove_located _ k Hwf Hf) as Hwf'.
  destruct Hf as [[li pos] Hf].
  destruct (remove_located_entries _ k li pos Hwf Hf) as (l1 & e & l2 & _ & Hk & E1 & E2).
  split; [reflexivity|]. split; [exact Hwf'|]. split.
  { apply contains_key_search. simpl. exact (search_after_remove _ k li pos Hwf Hf). }
  split.
  { intros k' Hne. apply search_same_records; [exact Hwf'|exact Hwf|].
    intros w. rewrite E1, E2, !elem_of_app, elem_of_cons. split.
    - intros [H|H]; [left; exact H | right; right; exact H].
    - intros [H|[H|H]]; [left; exact H | | right; exact H].
      subst e. simpl in Hk. congruence. }
  split; [|reflexivity].
  unfold key_count. simpl. rewrite !count_keys_tree_entries, E1, E2, !length_app. simpl. lia.
Qed.

Lemma remove_key_erases_last_occurrence_witness :
  well_formed six_keys_index
  ∧ contains_key six_keys_index [1] = true
  ∧ contains_key (remove_key six_keys_index [1]).2 [1] = false
  ∧ key_count (remove_key six_keys_index [1]).2 = 5%nat.
Proof.
  assert (Hwf : well_formed six_keys_index) by (vm_compute; reflexivity).
  assert (Hs : get_value six_keys_index [1] = Some (new_value 1)) by (vm_compute; reflexivity).
  assert (Hf : is_Some (find_leaf (_root six_keys_index) [1])) by (vm_compute; eauto).
  split; [exact Hwf|]. split; [vm_compute; reflexivity|].
  destruct (remove_key_erases_last_occurrence six_keys_index [1] _ Hwf Hs) as (_ & _ & Hc & _ & Hn & _);
    [simpl; lia | exact Hf |].
  split; [exact Hc|]. apply (inj S). rewrite Hn. vm_compute. reflexivity.
Defined.

(** X9. [insert_key] followed by [remove_key] of the same key undoes the
    insertion.  For a key that was not held, the records of the index are
    those before, in the same order; for a key that was held with a
    positive count below the largest [ChunkOffset], the index is the one
    before.  At the largest [ChunkOffset] the count wraps to 0 in
    [insert_key], and [remove_key] then goes on to erase the record. *)
Theorem insert_key_remove_key_round_trip idx k :
  well_formed idx →
  (contains_key idx k = false →
     (remove_key (insert_key idx k).2 k).1 = true
     ∧ tree_entries (_root (remove_key (insert_key idx k).2 k).2) = tree_entries (_root idx)
     ∧ (∀ k', get_value (remove_key (insert_key idx k).2 k).2 k' = get_value idx k')
     ∧ well_formed (remove_key (insert_key idx k).2 k).2)
  ∧ (∀ v, get_value idx k = Some v → 0 < count v → count v < 4294967295 →
       remove_key (insert_key idx k).2 k = (false, idx))
  ∧ (∀ v, get_value idx k = Some v → count v = 4294967295 →
       count <$> get_value (insert_key idx k).2 k = Some 0
       ∧ (remove_key (insert_key idx k).2 k).1 = true).
Proof.
  intros Hwf. split; [|split].
  - intros Hc. apply contains_key_search in Hc.
    pose proof (well_formedb__insert _ k (new_value 1) Hwf Hc) as Hwf1.
    destruct (find_leaf__insert _ k (new_value 1) Hwf Hc) as (li & pos & Hf & He).
    pose proof Hwf as Hwf0. apply well_formedb_iff in Hwf0 as [Hok Hsorted].
    destruct (_insert_entries (_root idx) k (new_value 1) (btree_ok_shape_ok _ Hok))
      as (_ & _ & l1 & l2 & E1 & E2 & _).
    destruct (remove_located_entries _ k li pos Hwf1 Hf) as (m1 & e & m2 & He' & Hk & F1 & F2).
    rewrite He in He'. injection He' as <-.
    pose proof Hwf1 as Hwf1'. apply well_formedb_iff in Hwf1' as [_ Hsorted1].
    pose proof (StronglySorted_NoDup _ Hsorted1) as Hnd. rewrite E2 in Hnd.
    assert (Hsplit : l1 = m1 ∧ l2 = m2).
    { apply (NoDup_split_unique _ _ _ _ _ Hnd). rewrite <- E2. exact F1. }
    destruct Hsplit as [<- <-].
    assert (Hwf2 : well_formedb (remove_from_node (_insert (_root idx) k (new_value 1)) k) = true).
    { apply well_formedb_remove_located; [exact Hwf1 | eauto]. }
    assert (Hs1 : search (_insert (_root idx) k (new_value 1)) k = Some (new_value 1)).
    { apply (search_stored_record _ (mkEntry k (new_value 1)) Hwf1).
      rewrite E2. apply elem_of_app. right. apply list_elem_of_here. }
    unfold insert_key. rewrite Hc. cbn [snd fst]. unfold remove_key.
    cbn [_root with_root]. rewrite Hs1. change (1 <? count (new_value 1)) with false.
    cbn [snd fst _root with_root]. unfold _remove_entry.
    split; [reflexivity|]. split; [rewrite F2, E1; reflexivity|]. split; [|exact Hwf2].
    intros k'. unfold get_value. cbn [_root with_root]. apply search_same_records; [exact Hwf2|exact Hwf|].
    intros w. rewrite F2, E1. reflexivity.
  - unfold get_value. intros v Hs Hpos Hmax.
    assert (Hincr : ChunkOffset_incr (count v) = count v + 1).
    { unfold ChunkOffset_incr. apply Z.mod_small. lia. }
    unfold insert_key. rewrite Hs. cbn [snd].
    unfold remove_key. cbn [_root with_root].
    rewrite search_alter_search, decide_True by reflexivity. rewrite Hs. cbn [fmap option_fmap option_map].
    cbn [count set_count]. rewrite Hincr.
    assert (Hlt : (1 <? count v + 1) = true) by (apply Z.ltb_lt; lia).
    rewrite Hlt. f_equal. rewrite alter_search_compose.
    rewrite alter_search_fixed.
    + destruct idx; reflexivity.
    + intros w Hw. assert (w = v) as -> by congruence.
      unfold compose. cbn [count set_count]. rewrite Hincr.
      destruct v as [s c X mn mx fl fc lc]. unfold set_count. simpl. f_equal. lia.
  - unfold get_value. intros v Hs Hmax.
    assert (Hincr : ChunkOffset_incr (count v) = 0) by (rewrite Hmax; reflexivity).
    unfold insert_key. rewrite Hs. cbn [snd]. unfold remove_key. cbn [_root with_root].
    rewrite search_alter_search, decide_True by reflexivity. rewrite Hs.
    cbn [fmap option_fmap option_map]. rewrite Hincr. split; reflexivity.
Qed.

Lemma insert_key_remove_key_round_trip_witness :
  well_formed six_keys_index
  ∧ tree_entries (_root (remove_key (insert_key six_keys_index [7]).2 [7]).2)
    = tree_entries (_root six_keys_index)
  ∧ remove_key (insert_key six_keys_index [3]).2 [3] = (false, six_keys_index).
Proof.
  assert (Hwf : well_formed six_keys_index) by (vm_compute; reflexivity).
  destruct (insert_key_remove_key_round_trip six_keys_index [7] Hwf) as [Hnew _].
  destruct (insert_key_remove_key_round_trip six_keys_index [3] Hwf) as (_ & Hold & _).
  split; [exact Hwf|]. split.
  - apply Hnew. vm_compute. reflexivity.
  - apply (Hold (new_value 1)); [vm_compute; reflexivity | simpl; lia | simpl; lia].
Defined.


(** * The flag operations and [key_count] *)

(** X10. [get_right_neighbor_flag] reads back what [set_right_neighbor_flag]
    wrote under a key that is held and 0 under a key that is not; the flag
    of every other key and every other field of the record are untouched,
    and a second write under the same key overrides the first, counter
    included. *)
Theorem right_neighbor_flag_round_trip idx k flag :
  (∀ k', get_right_neighbor_flag (set_right_neighbor_flag idx k flag) k'
         = if decide (k' = k)
           then (if contains_key idx k then flag else 0)
           else get_right_neighbor_flag idx k')
  ∧ (∀ k', get_value (set_right_neighbor_flag idx k flag) k'
           = if decide (k' = k) then set_flag flag <$> get_value idx k
             else get_value idx k')
  ∧ (∀ flag', set_right_neighbor_flag (set_right_neighbor_flag idx k flag) k flag'
              = set_right_neighbor_flag idx k flag').
Proof.
  assert (Hget : ∀ k', get_value (set_right_neighbor_flag idx k flag) k'
                       = if decide (k' = k) then set_flag flag <$> get_value idx k
                         else get_value idx k').
  { intros k'. unfold get_value, set_right_neighbor_flag.
    destruct (search (_root idx) k) as [v|] eqn:Hs; simpl.
    - rewrite search_alter_search, Hs. reflexivity.
    - destruct (decide (k' = k)) as [->|]; [exact Hs | reflexivity]. }
  split; [|split; [exact Hget|]].
  - intros k'. unfold get_right_neighbor_flag.
    change (search (_root (set_right_neighbor_flag idx k flag)) k')
      with (get_value (set_right_neighbor_flag idx k flag) k').
    rewrite Hget. unfold get_value, contains_key.
    destruct (decide (k' = k)) as [->|]; [|reflexivity].
    destruct (search (_root idx) k) as [v|].
    + rewrite bool_decide_true by eauto. reflexivity.
    + rewrite bool_decide_false by (intros [? ?]; discriminate). reflexivity.
  - intros flag'. unfold set_right_neighbor_flag.
    destruct (search (_root idx) k) as [v|] eqn:Hs.
    + cbn [_root global_violation_count _chunk_offsets _null_positions].
      rewrite search_alter_search, decide_True by reflexivity. rewrite Hs. simpl.
      rewrite alter_search_compose.
      rewrite (alter_search_ext (set_flag flag' ∘ set_flag flag) (set_flag flag'))
        by reflexivity.
      f_equal. lia.
    + rewrite Hs. reflexivity.
Qed.

Lemma local_law_run idx ms : local_law_holds idx → local_law_holds (run idx ms).
Proof.
  unfold run. revert idx. induction ms as [|m ms IH]; intros idx H; simpl; [exact H|].
  apply IH, local_law_apply_mutation, H.
Qed.

Lemma set_local_same v : set_local (local_violation_count_contribution v) v = v.
Proof. destruct v; reflexivity. Qed.

(** X11. On every index that the public operations build from a bulk-loaded
    one, [recompute_local_violation_delta] changes nothing, whatever the
    key and the dependency type: the local contribution of every record is
    already the one it recomputes. *)
Theorem recompute_local_violation_delta_settled segments ms k dep_type :
  recompute_local_violation_delta (run (BTreeIndex_new segments) ms) k dep_type
  = run (BTreeIndex_new segments) ms.
Proof.
  pose proof (local_law_run _ ms (local_law_BTreeIndex_new segments)) as Hlaw.
  set (idx := run (BTreeIndex_new segments) ms) in *.
  unfold recompute_local_violation_delta.
  destruct (search (_root idx) k) as [v|] eqn:Hs; [|reflexivity].
  assert (Hrec : ∀ w, search (_root idx) k = Some w →
                      local_violation_count w dep_type = local_violation_count_contribution w).
  { intros w Hw. apply local_law_count. apply search_Some_record in Hw.
    unfold local_law_holds in Hlaw. rewrite Forall_forall in Hlaw. exact (Hlaw _ Hw). }
  rewrite alter_search_fixed.
  - rewrite (Hrec v Hs). replace (_ - _ + _) with (global_violation_count idx) by lia.
    apply index_eta.
  - intros w Hw. rewrite (Hrec w Hw). apply set_local_same.
Qed.

(** X12. [key_count] counts every record of the tree once, the records of
    internal nodes included; on a well-formed index it is the number of
    distinct keys. *)
Theorem key_count_distinct_keys idx :
  key_count idx = length (all_keys idx)
  ∧ (well_formed idx → key_count idx = size (list_to_set (all_keys idx) : gset Key)).
Proof.
  assert (Hlen : key_count idx = length (all_keys idx)).
  { unfold key_count, all_keys. rewrite length_fmap. apply count_keys_tree_entries. }
  split; [exact Hlen|]. intros Hwf. rewrite Hlen. symmetry. apply size_list_to_set.
  apply well_formedb_iff in Hwf as [_ Hs]. unfold all_keys.
  induction Hs as [|e l Hs IH He]; simpl; constructor; [|exact IH].
  intros Hin. apply list_elem_of_fmap in Hin as (e' & Hk & Hin).
  rewrite Forall_forall in He. specialize (He e' Hin). unfold entry_lt in He.
  rewrite Hk, key_lt_irrefl in He. discriminate.
Qed.

Lemma key_count_distinct_keys_witness :
  well_formed six_keys_index
  ∧ key_count six_keys_index = size (list_to_set (all_keys six_keys_index) : gset Key).
Proof.
  assert (Hwf : well_formed six_keys_index) by (vm_compute; reflexivity).
  split; [exact Hwf|]. apply (key_count_distinct_keys six_keys_index). exact Hwf.
Defined.


(** * The bulk loader *)

(** ** Which rows go where *)

Lemma loader_offsets segments l st :
  ld_chunk_offsets (foldl (loader_step segments) st l)
  = ld_chunk_offsets st ++ filter (λ o, is_Some (row_key segments o)) l
  ∧ ld_null_positions (foldl (loader_step segments) st l)
    = ld_null_positions st ++ filter (λ o, ¬ is_Some (row_key segments o)) l.
Proof.
  revert st. induction l as [|o l IH]; intros st; simpl.
  - rewrite !app_nil_r. auto.
  - destruct (IH (loader_step segments st o)) as [-> ->]. unfold loader_step.
    destruct (row_key segments o) as [k|] eqn:Hk.
    + rewrite filter_cons_True by eauto.
      rewrite filter_cons_False by (intros H; apply H; eauto).
      destruct (ld_current st) as [[[cur start] cnt]|]; [destruct (key_eq k cur)|];
        simpl; rewrite <- ?List.app_assoc; auto.
    + rewrite filter_cons_False by (rewrite Hk; intros [? ?]; discriminate).
      rewrite filter_cons_True by (rewrite Hk; intros [? ?]; discriminate).
      simpl. rewrite <- ?List.app_assoc. auto.
Qed.

Lemma filter_partition_Permutation {A} (P : A → Prop) `{∀ x, Decision (P x)} (l : list A) :
  filter P l ++ filter (λ x, ¬ P x) l ≡ₚ l.
Proof.
  induction l as [|x l IH]; [reflexivity|].
  destruct (decide (P x)).
  - rewrite filter_cons_True by assumption. rewrite filter_cons_False by tauto.
    simpl. rewrite IH. reflexivity.
  - rewrite filter_cons_False by assumption. rewrite filter_cons_True by assumption.
    rewrite <- Permutation_middle, IH. reflexivity.
Qed.

(** X13. The constructor puts every row of the chunk in exactly one of
    [_chunk_offsets] and [_null_positions]: the rows with a NULL in one of
    the indexed columns go to [_null_positions], all others to
    [_chunk_offsets], and no row is listed twice. *)
Theorem bulk_load_partitions_rows segments :
  _chunk_offsets (BTreeIndex_new segments) ++ _null_positions (BTreeIndex_new segments)
    ≡ₚ seq 0 (chunk_size segments)
  ∧ (∀ o, o ∈ _chunk_offsets (BTreeIndex_new segments)
          ↔ (o < chunk_size segments)%nat ∧ is_Some (row_key segments o))
  ∧ (∀ o, o ∈ _null_positions (BTreeIndex_new segments)
          ↔ (o < chunk_size segments)%nat ∧ row_key segments o = None)
  ∧ NoDup (_chunk_offsets (BTreeIndex_new segments) ++ _null_positions (BTreeIndex_new segments)).
Proof.
  unfold BTreeIndex_new. cbv zeta. cbn [_chunk_offsets _null_positions].
  change (match segments with seg :: _ => length seg | [] => 0%nat end)
    with (chunk_size segments).
  set (offsets := merge_sort (offset_le segments) (seq 0 (chunk_size segments))).
  assert (Hperm : offsets ≡ₚ seq 0 (chunk_size segments)) by apply merge_sort_Permutation.
  destruct (loader_offsets segments offsets (mkLoader (mkNode 3 true [] []) [] [] None))
    as [-> ->]. cbn [ld_chunk_offsets ld_null_positions app].
  assert (Hall : filter (λ o, is_Some (row_key segments o)) offsets
                 ++ filter (λ o, ¬ is_Some (row_key segments o)) offsets
                 ≡ₚ seq 0 (chunk_size segments)).
  { rewrite filter_partition_Permutation. exact Hperm. }
  assert (Hin : ∀ o, o ∈ offsets ↔ (o < chunk_size segments)%nat).
  { intros o. rewrite Hperm, elem_of_seq. lia. }
  split; [exact Hall|]. split; [|split].
  - intros o. rewrite list_elem_of_filter, Hin. tauto.
  - intros o. rewrite list_elem_of_filter, Hin. split.
    + intros [Hn Hlt]. split; [exact Hlt|].
      destruct (row_key segments o); [exfalso; apply Hn; eauto | reflexivity].
    + intros [Hlt Hn]. split; [|exact Hlt]. rewrite Hn. intros [? ?]. discriminate.
  - rewrite Hall. apply NoDup_seq.
Qed.


(** ** The order of the rows *)

Lemma offset_lt_asym segments a b :
  offset_lt segments a b = true → offset_lt segments b a = false.
Proof.
  induction segments as [|seg rest IH]; simpl; [discriminate|].
  destruct (segment_at seg a) as [va|], (segment_at seg b) as [vb|]; try done.
  destruct (va <? vb) eqn:E1, (vb <? va) eqn:E2; try done.
  apply Z.ltb_lt in E1, E2. lia.
Qed.

Lemma offset_lt_neg_trans segments a b c :
  offset_lt segments b a = false → offset_lt segments c b = false →
  offset_lt segments c a = false.
Proof.
  induction segments as [|seg rest IH]; simpl; [done|].
  destruct (segment_at seg a) as [va|], (segment_at seg b) as [vb|],
    (segment_at seg c) as [vc|]; try done.
  destruct (vb <? va) eqn:E1; [done|]. destruct (vc <? vb) eqn:E2; [done|].
  destruct (va <? vb) eqn:E3.
  - intros _. destruct (vb <? vc) eqn:E4.
    + intros _. apply Z.ltb_lt in E3, E4.
      replace (vc <? va) with false by (symmetry; apply Z.ltb_ge; lia).
      replace (va <? vc) with true by (symmetry; apply Z.ltb_lt; lia). reflexivity.
    + intros _. apply Z.ltb_lt in E3. apply Z.ltb_ge in E2, E4.
      replace (vc <? va) with false by (symmetry; apply Z.ltb_ge; lia).
      replace (va <? vc) with true by (symmetry; apply Z.ltb_lt; lia). reflexivity.
  - intros H1. destruct (vb <? vc) eqn:E4.
    + intros _. apply Z.ltb_ge in E1, E3. apply Z.ltb_lt in E4.
      replace (vc <? va) with false by (symmetry; apply Z.ltb_ge; lia).
      replace (va <? vc) with true by (symmetry; apply Z.ltb_lt; lia). reflexivity.
    + intros H2. apply Z.ltb_ge in E1, E2, E3, E4.
      replace (vc <? va) with false by (symmetry; apply Z.ltb_ge; lia).
      replace (va <? vc) with false by (symmetry; apply Z.ltb_ge; lia). auto.
Qed.

#[local] Instance offset_le_total segments : Total (offset_le segments).
Proof.
  intros a b. unfold offset_le. destruct (offset_lt segments b a) eqn:E; [|auto].
  right. exact (offset_lt_asym _ _ _ E).
Qed.

#[local] Instance offset_le_trans segments : Transitive (offset_le segments).
Proof. intros a b c. unfold offset_le. apply offset_lt_neg_trans. Qed.

(** On rows without a NULL the comparator of the sort is the order of the
    keys. *)
Lemma offset_lt_key_lt segments a b ka kb :
  row_key segments a = Some ka → row_key segments b = Some kb →
  offset_lt segments a b = key_lt ka kb.
Proof.
  revert ka kb. induction segments as [|seg rest IH]; simpl; intros ka kb Ha Hb.
  - injection Ha as <-. injection Hb as <-. reflexivity.
  - destruct (segment_at seg a) as [va|]; [|discriminate].
    destruct (segment_at seg b) as [vb|]; [|discriminate].
    destruct (row_key rest a) as [ka'|]; [|discriminate].
    destruct (row_key rest b) as [kb'|]; [|discriminate].
    injection Ha as <-. injection Hb as <-. simpl.
    rewrite (IH ka' kb' eq_refl eq_refl). reflexivity.
Qed.

Lemma row_keys_sorted segments l :
  StronglySorted (offset_le segments) l → StronglySorted key_le (row_keys segments l).
Proof.
  unfold row_keys. induction 1 as [|a l Hs IH Ha]; simpl; [constructor|].
  destruct (row_key segments a) as [ka|] eqn:Hka; [|exact IH].
  constructor; [exact IH|]. apply Forall_forall. intros kb Hin.
  apply list_elem_of_omap in Hin as (b & Hb & Hkb).
  rewrite Forall_forall in Ha. specialize (Ha b Hb). unfold offset_le in Ha.
  unfold key_le. rewrite <- (offset_lt_key_lt segments b a kb ka Hkb Hka). exact Ha.
Qed.

(** ** The records of the runs *)

Lemma run_records_length s es ks :
  run_records s es ks →
  Z.of_nat (length ks) = foldr (λ e acc, count (value e) + acc) 0 es.
Proof.
  revert s ks. induction es as [|e es IH]; simpl; intros s ks H.
  - subst ks. reflexivity.
  - destruct H as (_ & Hc & ks' & -> & Hr). rewrite length_app, length_replicate.
    rewrite <- (IH _ _ Hr). lia.
Qed.

Lemma run_records_snoc s es ks k :
  run_records s es ks →
  run_records s (es ++ [mkEntry k (run_value (s + Z.of_nat (length ks)) 1)]) (ks ++ [k]).
Proof.
  revert s ks. induction es as [|e es IH]; simpl; intros s ks H.
  - subst ks. simpl. rewrite Z.add_0_r. split; [reflexivity|]. split; [lia|].
    exists []. split; reflexivity.
  - destruct H as (Hv & Hc & ks' & -> & Hr). split; [exact Hv|]. split; [exact Hc|].
    exists (ks' ++ [k]). split; [rewrite <- List.app_assoc; reflexivity|].
    pose proof (IH _ _ Hr) as H.
    rewrite length_app, length_replicate.
    replace (s + Z.of_nat (Z.to_nat (count (value e)) + length ks'))
      with (s + count (value e) + Z.of_nat (length ks')) by lia.
    exact H.
Qed.

Lemma replicate_snoc {A} n (x : A) : replicate n x ++ [x] = replicate (S n) x.
Proof. induction n as [|n IH]; simpl; [reflexivity|]. rewrite IH. reflexivity. Qed.

Lemma run_records_extend s es ks cur start cnt :
  run_records s (es ++ [mkEntry cur (run_value start cnt)]) ks →
  run_records s (es ++ [mkEntry cur (run_value start (cnt + 1))]) (ks ++ [cur]).
Proof.
  revert s ks. induction es as [|e es IH]; simpl; intros s ks H.
  - destruct H as (Hv & Hc & ks' & -> & ->). injection Hv as ->.
    split; [reflexivity|]. split; [lia|]. exists []. split; [|reflexivity].
    rewrite !app_nil_r. replace (Z.to_nat (cnt + 1)) with (S (Z.to_nat cnt)) by lia.
    apply replicate_snoc.
  - destruct H as (Hv & Hc & ks' & -> & Hr). split; [exact Hv|]. split; [exact Hc|].
    exists (ks' ++ [cur]). split; [rewrite <- List.app_assoc; reflexivity|].
    exact (IH _ _ Hr).
Qed.

Lemma row_keys_cons segments o l :
  row_keys segments (o :: l)
  = match row_key segments o with
    | Some k => k :: row_keys segments l
    | None => row_keys segments l
    end.
Proof. reflexivity. Qed.

Lemma row_keys_filter segments l :
  row_keys segments (filter (λ o, is_Some (row_key segments o)) l) = row_keys segments l.
Proof.
  induction l as [|o l IH]; [reflexivity|].
  destruct (row_key segments o) as [k|] eqn:Hk.
  - rewrite filter_cons_True by (rewrite Hk; eauto). rewrite !row_keys_cons, Hk, IH. reflexivity.
  - rewrite filter_cons_False by (rewrite Hk; intros [? ?]; discriminate).
    rewrite row_keys_cons, Hk. exact IH.
Qed.

Lemma row_keys_length segments l :
  Forall (λ o, is_Some (row_key segments o)) l → length (row_keys segments l) = length l.
Proof.
  unfold row_keys. induction 1 as [|o l [k Hk] _ IH]; [reflexivity|].
  change (omap (row_key segments) (o :: l))
    with (match row_key segments o with
          | Some y => y :: omap (row_key segments) l
          | None => omap (row_key segments) l
          end).
  rewrite Hk. simpl. f_equal. exact IH.
Qed.

Lemma row_keys_snoc segments l o k :
  row_key segments o = Some k → row_keys segments (l ++ [o]) = row_keys segments l ++ [k].
Proof. intros Hk. unfold row_keys. rewrite omap_app. simpl. rewrite Hk. reflexivity. Qed.

Lemma _insert_at_end root k v :
  well_formedb root = true →
  StronglySorted entry_lt (tree_entries root ++ [mkEntry k v]) →
  well_formedb (_insert root k v) = true
  ∧ tree_entries (_insert root k v) = tree_entries root ++ [mkEntry k v].
Proof.
  intros Hwf Hs.
  assert (Hbelow : Forall (λ e, key_lt (key e) k = true) (tree_entries root)).
  { apply Forall_forall. intros e He.
    apply (StronglySorted_app_1_elem_of _ _ _ e (mkEntry k v) Hs He). apply list_elem_of_here. }
  assert (Hnone : search root k = None).
  { destruct (search root k) as [w|] eqn:Hw; [|reflexivity].
    destruct (search_Some_entry _ _ _ Hw) as (e & He & Hk).
    rewrite Forall_forall in Hbelow. specialize (Hbelow e He).
    rewrite Hk, key_lt_irrefl in Hbelow. discriminate. }
  split; [exact (well_formedb__insert root k v Hwf Hnone)|].
  apply well_formedb_iff in Hwf as [Hok Hsorted].
  destruct (_insert_entries root k v (btree_ok_shape_ok _ Hok))
    as (_ & _ & l1 & l2 & E1 & E2 & Hbound).
  destruct (Hbound Hok Hsorted) as [_ Hge].
  destruct l2 as [|e l2].
  - rewrite E2, E1, app_nil_r. reflexivity.
  - exfalso. apply Forall_cons in Hge as [Hge _]. unfold ge_key in Hge.
    rewrite Forall_forall in Hbelow. rewrite (Hbelow e) in Hge; [discriminate|].
    rewrite E1. apply elem_of_app. right. apply list_elem_of_here.
Qed.

Lemma sorted_snoc_above (l : list BTreeEntry) e e' :
  StronglySorted entry_lt (l ++ [e]) → entry_lt e e' →
  StronglySorted entry_lt ((l ++ [e]) ++ [e']).
Proof.
  intros Hs Hlt. apply StronglySorted_app_2; [|exact Hs|repeat constructor].
  intros x1 x2 H1 H2. apply list_elem_of_singleton in H2 as ->.
  apply elem_of_app in H1 as [H1|H1].
  - pose proof (StronglySorted_app_1_elem_of _ _ _ x1 e Hs H1 (list_elem_of_here _ _)) as H.
    unfold entry_lt in *. exact (key_lt_trans _ _ _ H Hlt).
  - apply list_elem_of_singleton in H1 as ->. exact Hlt.
Qed.

Lemma sorted_snoc_same_key (l : list BTreeEntry) k v v' :
  StronglySorted entry_lt (l ++ [mkEntry k v]) → StronglySorted entry_lt (l ++ [mkEntry k v']).
Proof.
  intros Hs. apply StronglySorted_app_2; [|eapply StronglySorted_app_1_l; exact Hs
                                          |repeat constructor].
  intros x1 x2 H1 H2. apply list_elem_of_singleton in H2 as ->.
  exact (StronglySorted_app_1_elem_of _ _ _ x1 (mkEntry k v) Hs H1 (list_elem_of_here _ _)).
Qed.

Lemma loader_step_ok segments st o :
  loader_ok segments st →
  (∀ k cur start cnt, row_key segments o = Some k →
     ld_current st = Some (cur, start, cnt) → key_le cur k) →
  loader_ok segments (loader_step segments st o).
Proof.
  intros (Hwf & Hnn & Hcur) Hle. unfold loader_step.
  destruct (row_key segments o) as [k|] eqn:Hk; [|exact (conj Hwf (conj Hnn Hcur))].
  assert (Hnn' : Forall (λ o, is_Some (row_key segments o)) (ld_chunk_offsets st ++ [o])).
  { apply Forall_app. split; [exact Hnn|]. constructor; [eauto | constructor]. }
  destruct (ld_current st) as [[[cur start] cnt]|] eqn:Hc.
  - specialize (Hle k cur start cnt eq_refl eq_refl). destruct Hcur as [Hrun Hs].
    destruct (key_eq k cur) eqn:Ek.
    + apply key_eq_true in Ek. subst k. split; [exact Hwf|]. split; [exact Hnn'|].
      cbn [ld_current ld_root ld_chunk_offsets]. split.
      * rewrite (row_keys_snoc _ _ _ _ Hk). exact (run_records_extend _ _ _ _ _ _ Hrun).
      * exact (sorted_snoc_same_key _ _ _ _ Hs).
    + apply key_eq_false in Ek.
      assert (Hlt : key_lt cur k = true).
      { destruct (key_lt cur k) eqn:E; [reflexivity|]. exfalso. apply Ek.
        apply key_lt_trichotomy; [exact Hle | exact E]. }
      change (set_count cnt (mkValue start 0 ∅ None None 0 0 0)) with (run_value start cnt).
      destruct (_insert_at_end (ld_root st) cur (run_value start cnt) Hwf Hs) as [Hwf' E].
      split; [exact Hwf'|]. split; [exact Hnn'|].
      cbn [ld_current ld_root ld_chunk_offsets]. rewrite E. split.
      * rewrite (row_keys_snoc _ _ _ _ Hk).
        pose proof (run_records_snoc 0 _ _ k Hrun) as H. rewrite Z.add_0_l in H.
        rewrite (row_keys_length _ _ Hnn) in H. exact H.
      * apply sorted_snoc_above; [exact Hs | exact Hlt].
  - destruct Hcur as [Hte Hco]. split; [exact Hwf|]. split; [exact Hnn'|].
    cbn [ld_current ld_root ld_chunk_offsets].
    rewrite Hte, Hco. simpl. unfold row_keys. simpl. rewrite Hk. simpl.
    split.
    + split; [reflexivity|]. split; [lia|]. exists []. split; reflexivity.
    + repeat constructor.
Qed.

Lemma loader_current_key segments st o cur start cnt :
  ld_current (loader_step segments st o) = Some (cur, start, cnt) →
  row_key segments o = Some cur
  ∨ (row_key segments o = None ∨ row_key segments o = Some cur)
    ∧ ∃ start' cnt', ld_current st = Some (cur, start', cnt').
Proof.
  unfold loader_step. destruct (row_key segments o) as [k|] eqn:Hk.
  - destruct (ld_current st) as [[[cur' start'] cnt']|].
    + destruct (key_eq k cur') eqn:Ek; simpl; intros [= <- <- <-]; [|auto].
      apply key_eq_true in Ek. subst. auto.
    + simpl. intros [= <- <- <-]. auto.
  - simpl. intros H. right. split; [auto|]. eauto.
Qed.

Lemma loader_fold_ok segments l st :
  loader_ok segments st →
  StronglySorted key_le (row_keys segments l) →
  (∀ cur start cnt, ld_current st = Some (cur, start, cnt) →
     Forall (key_le cur) (row_keys segments l)) →
  loader_ok segments (foldl (loader_step segments) st l).
Proof.
  revert st. induction l as [|o l IH]; intros st Hok Hs Hcur; simpl; [exact Hok|].
  assert (Hs' : StronglySorted key_le (row_keys segments l)
                ∧ ∀ k, row_key segments o = Some k → Forall (key_le k) (row_keys segments l)).
  { unfold row_keys in *. simpl in Hs. destruct (row_key segments o) as [k|].
    - apply StronglySorted_inv in Hs as [Hs Hk]. split; [exact Hs|].
      intros k' [= <-]. exact Hk.
    - split; [exact Hs|]. intros k' [=]. }
  destruct Hs' as [Hs' Hhead].
  apply IH; [|exact Hs'|].
  - apply loader_step_ok; [exact Hok|]. intros k cur start cnt Hk Hc.
    specialize (Hcur cur start cnt Hc). unfold row_keys in Hcur. simpl in Hcur.
    rewrite Hk in Hcur. apply Forall_cons in Hcur as [Hcur _]. exact Hcur.
  - intros cur start cnt Hc. apply loader_current_key in Hc as [Hk|[Hk (start' & cnt' & Hc)]].
    + exact (Hhead cur Hk).
    + specialize (Hcur cur start' cnt' Hc). unfold row_keys in Hcur. simpl in Hcur.
      destruct Hk as [Hk|Hk]; rewrite Hk in Hcur; [exact Hcur|].
      apply Forall_cons in Hcur as [_ Hcur]. exact Hcur.
Qed.

(** What the loop of the constructor establishes. *)
Lemma BTreeIndex_new_runs segments :
  well_formed (BTreeIndex_new segments)
  ∧ StronglySorted key_le (row_keys segments (_chunk_offsets (BTreeIndex_new segments)))
  ∧ run_records 0 (tree_entries (_root (BTreeIndex_new segments)))
      (row_keys segments (_chunk_offsets (BTreeIndex_new segments)))
  ∧ global_violation_count (BTreeIndex_new segments) = 0.
Proof.
  unfold well_formed, BTreeIndex_new. cbv zeta.
  cbn [_root _chunk_offsets global_violation_count].
  set (offsets := merge_sort (offset_le segments) _).
  assert (Hsorted : StronglySorted key_le (row_keys segments offsets)).
  { apply row_keys_sorted. apply StronglySorted_merge_sort; apply _. }
  set (st0 := mkLoader (mkNode 3 true [] []) [] [] None).
  assert (Hok0 : loader_ok segments st0).
  { split; [reflexivity|]. split; [constructor|]. simpl. auto. }
  pose proof (loader_fold_ok segments offsets st0 Hok0 Hsorted) as Hok.
  destruct (loader_offsets segments offsets st0) as [Hco _].
  assert (Hkeys : row_keys segments (ld_chunk_offsets (foldl (loader_step segments) st0 offsets))
                  = row_keys segments offsets).
  { rewrite Hco. simpl. apply row_keys_filter. }
  destruct Hok as (Hwf & Hnn & Hcur); [intros ? ? ? [=]|].
  rewrite Hkeys in *.
  destruct (ld_current (foldl (loader_step segments) st0 offsets)) as [[[cur start] cnt]|].
  - destruct Hcur as [Hrun Hs].
    change (set_count cnt (mkValue start 0 ∅ None None 0 0 0)) with (run_value start cnt).
    destruct (_insert_at_end _ cur (run_value start cnt) Hwf Hs) as [Hwf' E].
    rewrite E. auto.
  - destruct Hcur as [Hte Hnil]. rewrite Hte. split; [exact Hwf|]. split; [exact Hsorted|].
    split; [|reflexivity]. simpl. rewrite <- Hkeys, Hnil. reflexivity.
Qed.

(** X14. The index that the constructor builds is a well-formed B-tree
    whose records describe [_chunk_offsets] run by run: the keys of the
    rows of [_chunk_offsets] are in ascending order, each record stands for
    one run of rows with its key, with [start_index] the position where
    the run begins and [count] its length, the records carry no tracked
    value and no flag, and the violation counter is 0. *)
Theorem bulk_load_records_describe_runs segments :
  well_formed (BTreeIndex_new segments)
  ∧ StronglySorted key_le (row_keys segments (_chunk_offsets (BTreeIndex_new segments)))
  ∧ run_records 0 (tree_entries (_root (BTreeIndex_new segments)))
      (row_keys segments (_chunk_offsets (BTreeIndex_new segments)))
  ∧ global_violation_count (BTreeIndex_new segments) = 0.
Proof. exact (BTreeIndex_new_runs segments). Qed.


(** ** Range lookups on the bulk-loaded index *)

Lemma run_records_head s e es ks :
  run_records s (e :: es) ks → start_index (value e) = s.
Proof. simpl. intros (Hv & _). rewrite Hv. reflexivity. Qed.

Lemma run_records_keys s es ks k :
  run_records s es ks → k ∈ ks → ∃ e, e ∈ es ∧ key e = k.
Proof.
  revert s ks. induction es as [|e es IH]; simpl; intros s ks H Hin.
  - subst ks. apply elem_of_nil in Hin. contradiction.
  - destruct H as (_ & _ & ks' & -> & Hr). apply elem_of_app in Hin as [Hin|Hin].
    + apply elem_of_replicate in Hin as [-> _]. exists e. split; [apply list_elem_of_here | reflexivity].
    + destruct (IH _ _ Hr Hin) as (e' & He' & Hk). exists e'. split; [|exact Hk].
      apply elem_of_cons. right. exact He'.
Qed.

Lemma run_records_start_bounds s es ks e :
  run_records s es ks → e ∈ es → s <= start_index (value e).
Proof.
  revert s ks. induction es as [|e' es IH]; simpl; intros s ks H Hin.
  - apply elem_of_nil in Hin. contradiction.
  - destruct H as (Hv & Hc & ks' & -> & Hr). apply elem_of_cons in Hin as [->|Hin].
    + rewrite Hv. simpl. lia.
    + specialize (IH _ _ Hr Hin). lia.
Qed.

Lemma head_elem_of {A} (l : list A) x : head l = Some x → x ∈ l.
Proof. destruct l; [discriminate|]. intros [= ->]. apply list_elem_of_here. Qed.

Lemma first_start_above_base s es ks (P : BTreeEntry → Prop) `{∀ e, Decision (P e)} :
  run_records s es ks → s <= first_start (filter P es) (s + Z.of_nat (length ks)).
Proof.
  intros Hr. unfold first_start. destruct (head (filter P es)) as [e|] eqn:He; [|lia].
  apply head_elem_of, list_elem_of_filter in He as [_ He].
  exact (run_records_start_bounds _ _ _ _ Hr He).
Qed.

Lemma filter_all {A} (P : A → Prop) `{∀ x, Decision (P x)} (l : list A) :
  Forall P l → filter P l = l.
Proof.
  induction 1 as [|x l Hx _ IH]; [reflexivity|].
  rewrite filter_cons_True by exact Hx. rewrite IH. reflexivity.
Qed.

Lemma run_records_range k s es ks :
  run_records s es ks → StronglySorted entry_lt es →
  ∀ i : nat,
    ks !! i = Some k
    ↔ first_start (not_below k es) (s + Z.of_nat (length ks)) <= s + Z.of_nat i
      ∧ s + Z.of_nat i < first_start (above k es) (s + Z.of_nat (length ks)).
Proof.
  revert s ks. induction es as [|e es IH]; intros s ks Hr Hs i.
  - simpl in Hr. subst ks. unfold first_start. simpl. split; [discriminate | lia].
  - pose proof Hr as Hr0. simpl in Hr. destruct Hr as (Hv & Hc & ks' & -> & Hr).
    apply StronglySorted_inv in Hs as [Hs He].
    set (n := Z.to_nat (count (value e))) in *.
    assert (Hn : Z.of_nat n = count (value e)) by (unfold n; lia).
    assert (Hlen : s + Z.of_nat (length (replicate n (key e) ++ ks'))
                   = s + count (value e) + Z.of_nat (length ks')).
    { rewrite length_app, length_replicate. lia. }
    rewrite Hlen.
    assert (Hstart : start_index (value e) = s) by (rewrite Hv; reflexivity).
    assert (Hrest : ∀ k', k' ∈ ks' → key_lt (key e) k' = true).
    { intros k' Hin. destruct (run_records_keys _ _ _ _ Hr Hin) as (e' & He' & <-).
      rewrite Forall_forall in He. exact (He e' He'). }
    assert (Hlookup : ∀ j, (n <= j)%nat → (replicate n (key e) ++ ks') !! j = ks' !! (j - n)%nat).
    { intros j Hj. rewrite lookup_app_r by (rewrite length_replicate; exact Hj).
      rewrite length_replicate. reflexivity. }
    assert (Hfront : ∀ j, (j < n)%nat → (replicate n (key e) ++ ks') !! j = Some (key e)).
    { intros j Hj. rewrite lookup_app_l by (rewrite length_replicate; exact Hj).
      apply lookup_replicate. auto. }
    destruct (key_lt (key e) k) eqn:E1.
    + (* the record is below [k] *)
      assert (E2 : key_lt k (key e) = false) by (apply key_lt_asym; exact E1).
      unfold not_below, above. rewrite !filter_cons_False by congruence.
      specialize (IH _ _ Hr Hs). fold (not_below k es). fold (above k es).
      destruct (decide (i < n)%nat) as [Hi|Hi].
      * rewrite (Hfront i Hi).
        pose proof (first_start_above_base _ _ _ (λ e, key_lt (key e) k = false) Hr) as Hlo.
        fold (not_below k es) in Hlo. split; [|lia].
        intros [= <-]. rewrite key_lt_irrefl in E1. discriminate.
      * rewrite (Hlookup i) by lia. rewrite (IH (i - n)%nat).
        replace (s + count (value e) + Z.of_nat (i - n)) with (s + Z.of_nat i) by lia.
        reflexivity.
    + destruct (key_lt k (key e)) eqn:E2.
      * (* the record, and with it every record, is above [k] *)
        unfold not_below, above. rewrite !filter_cons_True by congruence.
        unfold first_start. simpl. rewrite Hstart. split; [|lia].
        intros Hi. exfalso. apply list_elem_of_lookup_2 in Hi.
        apply elem_of_app in Hi as [Hi|Hi].
        -- apply elem_of_replicate in Hi as [-> _]. rewrite key_lt_irrefl in E2. discriminate.
        -- specialize (Hrest _ Hi). rewrite (key_lt_asym _ _ E2) in Hrest. discriminate.
      * (* the record has the key [k] *)
        assert (Hk : key e = k) by (apply key_lt_trichotomy; assumption). subst k.
        unfold not_below, above. rewrite filter_cons_True by exact E1.
        rewrite filter_cons_False by congruence.
        rewrite (filter_all (λ e', key_lt (key e) (key e') = true) es) by exact He.
        assert (Hhi : first_start es (s + count (value e) + Z.of_nat (length ks'))
                      = s + count (value e)).
        { unfold first_start. destruct es as [|e' es]; simpl.
          - simpl in Hr. subst ks'. simpl. lia.
          - exact (run_records_head _ _ _ _ Hr). }
        rewrite Hhi. unfold first_start at 1. simpl. rewrite Hstart.
        destruct (decide (i < n)%nat) as [Hi|Hi].
        -- rewrite (Hfront i Hi). split; [lia | reflexivity].
        -- rewrite (Hlookup i) by lia. split; [|lia]. intros Hin.
           apply list_elem_of_lookup_2 in Hin. specialize (Hrest _ Hin).
           rewrite key_lt_irrefl in Hrest. discriminate.
Qed.

Lemma row_keys_lookup segments l i :
  Forall (λ o, is_Some (row_key segments o)) l →
  row_keys segments l !! i = l !! i ≫= row_key segments.
Proof.
  intros H. revert i. induction H as [|o l [k Hk] _ IH]; intros i; [reflexivity|].
  rewrite row_keys_cons, Hk. destruct i as [|i]; simpl; [rewrite Hk; reflexivity|]. apply IH.
Qed.

Lemma chunk_offsets_not_null segments :
  Forall (λ o, is_Some (row_key segments o)) (_chunk_offsets (BTreeIndex_new segments)).
Proof.
  apply Forall_forall. intros o Ho.
  unfold BTreeIndex_new in Ho. cbv zeta in Ho. cbn [_chunk_offsets] in Ho.
  destruct (loader_offsets segments
              (merge_sort (offset_le segments)
                 (seq 0 match segments with seg :: _ => length seg | [] => 0%nat end))
              (mkLoader (mkNode 3 true [] []) [] [] None)) as [E _].
  rewrite E in Ho. simpl in Ho. apply list_elem_of_filter in Ho as [Ho _]. exact Ho.
Qed.

(** X15. On the index that the constructor builds, the positions of
    [_chunk_offsets] between [_lower_bound] and [_upper_bound] of a key are
    exactly the positions of the rows with that key: an equal-range lookup
    returns all rows with the key and no other row. *)
Theorem bulk_load_equal_range segments k i o :
  _chunk_offsets (BTreeIndex_new segments) !! i = Some o →
  (row_key segments o = Some k
   ↔ _lower_bound (BTreeIndex_new segments) k <= Z.of_nat i
     ∧ Z.of_nat i < _upper_bound (BTreeIndex_new segments) k).
Proof.
  intros Hi.
  destruct (BTreeIndex_new_runs segments) as (Hwf & _ & Hrun & _).
  pose proof Hwf as Hwf'. apply well_formedb_iff in Hwf' as [Hok Hs].
  pose proof (run_records_range k 0 _ _ Hrun Hs i) as Hrange.
  rewrite (row_keys_length _ _ (chunk_offsets_not_null segments)) in Hrange.
  rewrite (row_keys_lookup _ _ _ (chunk_offsets_not_null segments)), Hi in Hrange.
  change (Some o ≫= row_key segments) with (row_key segments o) in Hrange.
  rewrite !Z.add_0_l in Hrange.
  unfold _lower_bound, _upper_bound, _cbegin, _cend.
  rewrite (lower_bound_spec _ k Hok Hs), (upper_bound_spec _ k Hok Hs).
  unfold first_start in Hrange.
  destruct (head (not_below k _)) as [e1|]; destruct (head (above k _)) as [e2|];
    simpl; rewrite ?Z.add_0_l; exact Hrange.
Qed.

Lemma bulk_load_equal_range_witness :
  _chunk_offsets (BTreeIndex_new [[Some 2; None; Some 1; Some 2]]) !! 1%nat = Some 0%nat
  ∧ _lower_bound (BTreeIndex_new [[Some 2; None; Some 1; Some 2]]) [2] = 1
  ∧ _upper_bound (BTreeIndex_new [[Some 2; None; Some 1; Some 2]]) [2] = 3
  ∧ (row_key [[Some 2; None; Some 1; Some 2]] 0 = Some [2]
     ↔ _lower_bound (BTreeIndex_new [[Some 2; None; Some 1; Some 2]]) [2] <= 1
       ∧ 1 < _upper_bound (BTreeIndex_new [[Some 2; None; Some 1; Some 2]]) [2]).
Proof.
  split; [vm_compute; reflexivity|]. split; [vm_compute; reflexivity|].
  split; [vm_compute; reflexivity|].
  apply (bulk_load_equal_range [[Some 2; None; Some 1; Some 2]] [2] 1 0).
  vm_compute. reflexivity.
Defined.


(** * What every operation keeps of the tree *)

Section tree_invariant.
Variable I : BTreeNode → Prop.
Hypothesis I_same_keys : ∀ n n', key_shape n = key_shape n' → I n → I n'.
Hypothesis I__insert : ∀ root k v, I root → I (_insert root k v).
Hypothesis I_remove : ∀ n k, I n → I (remove_from_node n k).

Lemma inv_alter_search f n k : I n → I (alter_search f n k).
Proof. apply I_same_keys. symmetry. apply key_shape_alter_search. Qed.

Lemma inv_set_value_at li pos v n : I n → I (set_value_at li pos v n).
Proof. apply I_same_keys. symmetry. apply key_shape_set_value_at. Qed.

Lemma inv_insert_entry idx l r d :
  I (_root idx) → I (_root (insert_entry_for_validation idx l r d).2).
Proof.
  unfold insert_entry_for_validation. intros H.
  set (root := match search (_root idx) l with Some _ => _ | None => _ end).
  assert (Hroot : I root).
  { unfold root. destruct (search (_root idx) l).
    - destruct (decide (d = OD)); [|exact H]. apply inv_alter_search. exact H.
    - apply I__insert. exact H. }
  clearbody root. unfold _link_leaf_neighbors.
  destruct (find_leaf root l) as [[li pos]|]; [|exact Hroot].
  destruct (entry_at (collect_leaves root) li pos) as [e|]; [|exact Hroot].
  destruct d.
  - destruct (decide _); simpl; apply inv_set_value_at; exact Hroot.
  - destruct (predecessor_entry (collect_leaves root) li pos) as [[[pli ppos] pe]|]; simpl;
      repeat apply inv_set_value_at; exact Hroot.
Qed.

Lemma inv_delete_entry idx l r d :
  I (_root idx) → I (_root (delete_entry_for_validation idx l r d).2).
Proof.
  unfold delete_entry_for_validation, _link_leaf_neighbors, _remove_entry. intros H.
  destruct (find_leaf (_root idx) l) as [[li pos]|]; [|exact H].
  destruct (collect_leaves (_root idx) !! li) as [les|]; [|exact H].
  destruct (entry_at (collect_leaves (_root idx)) li pos) as [e|]; [|exact H].
  set (value1 := match r with [] => value e | rhs :: _ => _ end).
  destruct d.
  - destruct (decide (rhs_values value1 = ∅)); simpl.
    + apply I_remove, inv_set_value_at, H.
    + apply inv_set_value_at, H.
  - destruct (decide (rhs_values value1 = ∅)); simpl.
    + set (p1 := if is_smallest_in_leaf les l && bool_decide (pos = 0%nat) then _ else _).
      assert (Hp1 : I p1.2).
      { unfold p1. destruct (_ && _); [|simpl; apply inv_set_value_at, H].
        destruct (left_leaf_last (collect_leaves (_root idx)) li) as [[[lli lpos] le]|];
          simpl; repeat apply inv_set_value_at; exact H. }
      destruct p1 as [fd1 root2]. simpl in Hp1.
      set (p2 := if is_largest_in_leaf les l && bool_decide (0 < pos)%nat then _ else _).
      assert (Hp2 : I p2.2).
      { unfold p2. destruct (_ && _); [|simpl; exact Hp1].
        destruct (les !! (pos - 1)%nat) as [pe|]; simpl;
          repeat apply inv_set_value_at; exact Hp1. }
      destruct p2 as [fd2 root3]. simpl in Hp2. simpl.
      apply I_remove, Hp2.
    + apply inv_set_value_at, H.
Qed.

Lemma inv_apply_mutation idx m : I (_root idx) → I (_root (apply_mutation idx m)).
Proof.
  intros H. destruct m as [l r d|l r d|l o n d|k f|k d|k|k]; simpl.
  - apply inv_insert_entry, H.
  - apply inv_delete_entry, H.
  - unfold update_entry_for_validation.
    pose proof (inv_delete_entry idx l o d H) as H1.
    destruct (delete_entry_for_validation idx l o d) as [dd idx1]. simpl in H1.
    pose proof (inv_insert_entry idx1 l n d H1) as H2.
    destruct (insert_entry_for_validation idx1 l n d) as [di idx2]. exact H2.
  - unfold set_right_neighbor_flag. destruct (search (_root idx) k); [|exact H].
    apply inv_alter_search, H.
  - unfold recompute_local_violation_delta. destruct (search (_root idx) k); [|exact H].
    apply inv_alter_search, H.
  - unfold insert_key. destruct (search (_root idx) k); simpl.
    + apply inv_alter_search, H.
    + apply I__insert, H.
  - unfold remove_key. destruct (search (_root idx) k) as [v|]; [|exact H].
    destruct (1 <? count v); simpl.
    + apply inv_alter_search, H.
    + apply I_remove, H.
Qed.

Lemma inv_BTreeIndex_new segments :
  I (mkNode 3 true [] []) → I (_root (BTreeIndex_new segments)).
Proof.
  intros H0. unfold BTreeIndex_new. simpl.
  set (offsets := merge_sort _ _). clearbody offsets.
  set (st0 := mkLoader (mkNode 3 true [] []) [] [] None).
  assert (Hst0 : I (ld_root st0)) by exact H0.
  clearbody st0. revert st0 Hst0.
  induction offsets as [|o offsets IH]; intros st Hst; simpl.
  - destruct (ld_current st) as [[[cur start] cnt]|]; [|exact Hst].
    apply I__insert, Hst.
  - apply IH. unfold loader_step.
    destruct (row_key segments o) as [rk|]; [|exact Hst].
    destruct (ld_current st) as [[[cur start] cnt]|]; [|exact Hst].
    destruct (key_eq rk cur); [exact Hst|]. simpl.
    apply I__insert, Hst.
Qed.

Lemma inv_run segments ms :
  I (mkNode 3 true [] []) → I (_root (run (BTreeIndex_new segments) ms)).
Proof.
  intros H0. unfold run. generalize (inv_BTreeIndex_new segments H0).
  generalize (BTreeIndex_new segments). induction ms as [|m ms IH]; intros idx H; simpl.
  - exact H.
  - apply IH, inv_apply_mutation, H.
Qed.

End tree_invariant.

(** ** Balance and node capacity *)

Lemma bounded_balanced_unfold t0 h t lf es cs :
  bounded_balanced t0 h (mkNode t lf es cs)
  = (t =? t0)%nat && (length es <=? 2 * t0 - 1)%nat
    && (if lf then (h =? 0)%nat
        else match h with
             | O => false
             | S h' => (length es <? length cs)%nat && forallb (bounded_balanced t0 h') cs
             end).
Proof. reflexivity. Qed.

Lemma bounded_balanced_node t0 h t lf es cs :
  bounded_balanced t0 h (mkNode t lf es cs) = true
  ↔ t = t0 ∧ (length es ≤ 2 * t0 - 1)%nat
    ∧ (if lf then h = 0%nat
       else ∃ h', h = S h' ∧ (length es < length cs)%nat
                  ∧ Forall (λ c, bounded_balanced t0 h' c = true) cs).
Proof.
  rewrite bounded_balanced_unfold, !andb_true_iff, Nat.eqb_eq, Nat.leb_le.
  assert (Hrest : (if lf then (h =? 0)%nat
                   else match h with
                        | O => false
                        | S h' => (length es <? length cs)%nat
                                  && forallb (bounded_balanced t0 h') cs
                        end) = true
                  ↔ (if lf then h = 0%nat
                     else ∃ h', h = S h' ∧ (length es < length cs)%nat
                                ∧ Forall (λ c, bounded_balanced t0 h' c = true) cs)).
  { destruct lf; [apply Nat.eqb_eq|]. destruct h as [|h'].
    - split; [discriminate|]. intros (h' & Hh & _). discriminate.
    - rewrite andb_true_iff, Nat.ltb_lt, forallb_forall. split.
      + intros [H1 H2]. exists h'. split; [reflexivity|]. split; [exact H1|].
        apply Forall_forall. intros c Hc. apply H2, list_elem_of_In, Hc.
      + intros (h'' & [= <-] & H1 & H2). split; [exact H1|].
        rewrite Forall_forall in H2. intros c Hc. apply H2, list_elem_of_In, Hc. }
  rewrite Hrest. tauto.
Qed.

Lemma bounded_balanced_key_shape t0 h n :
  bounded_balanced t0 h (key_shape n) = bounded_balanced t0 h n.
Proof.
  revert h. induction n as [t lf es cs IH] using BTreeNode_children_ind. intros h.
  change (key_shape (mkNode t lf es cs))
    with (mkNode t lf (strip_value <$> es) (key_shape <$> cs)).
  rewrite !bounded_balanced_unfold, !length_fmap. f_equal. destruct lf; [reflexivity|].
  destruct h as [|h']; [reflexivity|]. f_equal.
  induction cs as [|c cs IHcs]; [reflexivity|]. inversion IH as [|? ? Hc Hcs]; subst.
  rewrite fmap_cons. simpl. rewrite Hc, IHcs by exact Hcs. reflexivity.
Qed.

Lemma bounded_balanced_shape_ok t0 h n :
  (1 ≤ t0)%nat → bounded_balanced t0 h n = true → shape_ok n.
Proof.
  intros Ht0. revert h. induction n as [t lf es cs IH] using BTreeNode_children_ind.
  intros h H. apply bounded_balanced_node in H as (-> & _ & H).
  apply shape_ok_node. split; [exact Ht0|]. intros ->.
  destruct H as (h' & _ & Hlen & Hcs). split; [exact Hlen|].
  apply Forall_forall. intros c Hc. rewrite Forall_forall in IH, Hcs. eauto.
Qed.

Lemma bounded_balanced_remove t0 h n k :
  bounded_balanced t0 h n = true → bounded_balanced t0 h (remove_from_node n k) = true.
Proof.
  revert h. induction n as [t lf es cs IH] using BTreeNode_children_ind. intros h H.
  simpl remove_from_node. apply bounded_balanced_node in H as (Ht & Hcap & H).
  destruct (key_index k es) as [i|].
  - pose proof (sublist_length _ _ (sublist_delete es i)) as Hdel.
    apply bounded_balanced_node. split; [exact Ht|]. split; [lia|].
    destruct lf; [exact H|]. destruct H as (h' & Hh & Hlen & Hcs).
    exists h'. split; [exact Hh|]. split; [lia | exact Hcs].
  - destruct lf; [apply bounded_balanced_node; auto|].
    destruct H as (h' & Hh & Hlen & Hcs).
    apply bounded_balanced_node. split; [exact Ht|]. split; [exact Hcap|].
    exists h'. split; [exact Hh|]. rewrite length_alter. split; [exact Hlen|].
    apply Forall_lookup_2. intros j c Hc.
    destruct (decide (scan_up k es = j)) as [<-|Hne].
    + rewrite list_lookup_alter_eq in Hc.
      destruct (cs !! scan_up k es) as [c0|] eqn:Hc0; [|discriminate].
      injection Hc as <-.
      apply (Forall_lookup_1 _ _ _ _ IH Hc0). exact (Forall_lookup_1 _ _ _ _ Hcs Hc0).
    + rewrite list_lookup_alter_ne in Hc by exact Hne.
      exact (Forall_lookup_1 _ _ _ _ Hcs Hc).
Qed.

Lemma bounded_balanced_insert_non_full t0 fuel h n k v :
  (1 ≤ t0)%nat → bounded_balanced t0 h n = true →
  (length (entries n) < 2 * t0 - 1)%nat →
  bounded_balanced t0 h (insert_non_full fuel n k v) = true.
Proof.
  intros Ht0. revert h n. induction fuel as [|fuel IH]; intros h [t lf es cs] H Hroom;
    simpl in Hroom.
  - destruct lf; [|exact H]. rewrite insert_non_full_leaf.
    apply bounded_balanced_node in H as (Ht & Hcap & H).
    apply bounded_balanced_node. split; [exact Ht|]. split; [|exact H].
    rewrite length_app. simpl. rewrite length_take, length_drop. lia.
  - destruct lf.
    + rewrite insert_non_full_leaf.
      apply bounded_balanced_node in H as (Ht & Hcap & H).
      apply bounded_balanced_node. split; [exact Ht|]. split; [|exact H].
      rewrite length_app. simpl. rewrite length_take, length_drop. lia.
    + pose proof (bounded_balanced_shape_ok _ _ _ Ht0 H) as Hshape.
      destruct (insert_non_full_step fuel t es cs k v Hshape)
        as (es1 & cs1 & i1 & c & Heq & Hc & Hcase).
      rewrite Heq. clear Heq.
      apply bounded_balanced_node in H as (-> & Hcap & h' & -> & Hlen & Hcs).
      rewrite (alter_insert_lookup _ _ _ _ Hc).
      assert (Hstep : (length es1 ≤ 2 * t0 - 1)%nat ∧ (length es1 < length cs1)%nat
                      ∧ Forall (λ c, bounded_balanced t0 h' c = true) cs1
                      ∧ (length (entries c) < 2 * t0 - 1)%nat).
      { destruct Hcase as [(-> & -> & -> & Hnf)
                          |(yt & yleaf & yes & ycs & mid & Hy & Hfull & Hmid & -> & -> & Hi1)].
        - split; [exact Hcap|]. split; [exact Hlen|]. split; [exact Hcs|].
          pose proof (Forall_lookup_1 _ _ _ _ Hcs Hc) as Hcb. destruct c as [ct clf ces ccs].
          apply bounded_balanced_node in Hcb as (_ & Hccap & _). simpl in *. lia.
        - set (i := scan_down k es (length es)) in *.
          pose proof (lookup_lt_Some _ _ _ Hy) as Hi.
          pose proof (Forall_lookup_1 _ _ _ _ Hcs Hy) as Hyb.
          apply bounded_balanced_node in Hyb as (-> & Hycap & Hyrest).
          assert (Hy1 : bounded_balanced t0 h'
                          (mkNode t0 yleaf (take (t0 - 1) yes)
                             (if yleaf then ycs else take t0 ycs)) = true).
          { apply bounded_balanced_node. split; [reflexivity|].
            split; [rewrite length_take; lia|]. destruct yleaf; [exact Hyrest|].
            destruct Hyrest as (h'' & Hh & Hyl & Hycs). exists h''. split; [exact Hh|].
            split; [rewrite !length_take; lia | apply Forall_take; exact Hycs]. }
          assert (Hz1 : bounded_balanced t0 h'
                          (mkNode t0 yleaf (drop t0 yes)
                             (if yleaf then [] else drop t0 ycs)) = true).
          { apply bounded_balanced_node. split; [reflexivity|].
            split; [rewrite length_drop; lia|]. destruct yleaf; [exact Hyrest|].
            destruct Hyrest as (h'' & Hh & Hyl & Hycs). exists h''. split; [exact Hh|].
            split; [rewrite !length_drop; lia | apply Forall_drop; exact Hycs]. }
          split; [rewrite length_app; simpl; rewrite length_take, length_drop; lia|].
          split; [rewrite !length_app; simpl; rewrite !length_take, !length_drop; lia|].
          split.
          + apply Forall_app. split; [apply Forall_take; exact Hcs|].
            constructor; [exact Hy1|]. constructor; [exact Hz1|]. apply Forall_drop. exact Hcs.
          + assert (Htake : length (take i cs) = i) by (rewrite length_take; lia).
            destruct (key_lt (key mid) k); subst i1.
            * rewrite lookup_app_r in Hc by lia. rewrite Htake in Hc.
              replace (S i - i)%nat with 1%nat in Hc by lia. simpl in Hc.
              injection Hc as <-. simpl. rewrite length_drop. lia.
            * rewrite lookup_app_r in Hc by lia. rewrite Htake in Hc.
              replace (i - i)%nat with 0%nat in Hc by lia. simpl in Hc.
              injection Hc as <-. simpl. rewrite length_take. lia. }
      destruct Hstep as (Hcap1 & Hlen1 & Hcs1 & Hroomc).
      apply bounded_balanced_node. split; [reflexivity|]. split; [exact Hcap1|].
      exists h'. split; [reflexivity|]. rewrite length_insert. split; [exact Hlen1|].
      apply Forall_insert; [exact Hcs1|].
      apply IH; [|exact Hroomc]. exact (Forall_lookup_1 _ _ _ _ Hcs1 Hc).
Qed.

Lemma bounded_balanced__insert t0 h root k v :
  (1 ≤ t0)%nat → bounded_balanced t0 h root = true →
  ∃ h', (h ≤ h')%nat ∧ bounded_balanced t0 h' (_insert root k v) = true.
Proof.
  intros Ht0 H. rewrite _insert_unfold. case_bool_decide as Hfull.
  - exists (S h). split; [lia|]. apply bounded_balanced_insert_non_full; [exact Ht0| |simpl; lia].
    destruct root as [t lf es cs]. pose proof H as H'.
    apply bounded_balanced_node in H' as (-> & _). cbn [node_t].
    apply bounded_balanced_node. split; [reflexivity|]. split; [simpl; lia|].
    exists h. split; [reflexivity|]. split; [simpl; lia|]. constructor; [exact H | constructor].
  - exists h. split; [lia|]. apply bounded_balanced_insert_non_full; [exact Ht0 | exact H|].
    destruct root as [t lf es cs]. apply bounded_balanced_node in H as (-> & Hcap & _).
    simpl in *. lia.
Qed.

(** X16. Every index that the constructor and the public operations build
    is a balanced tree of minimum degree 3: all its leaves are at the same
    depth, every node is built with [t = 3] and holds at most 5 entries,
    and every internal node has more children than entries. *)
Theorem reachable_tree_balanced segments ms :
  ∃ h, bounded_balanced 3 h (_root (run (BTreeIndex_new segments) ms)) = true.
Proof.
  apply (inv_run (λ n, ∃ h, bounded_balanced 3 h n = true)).
  - intros n n' E [h H]. exists h.
    rewrite <- bounded_balanced_key_shape, <- E, bounded_balanced_key_shape. exact H.
  - intros root k v [h H].
    destruct (bounded_balanced__insert 3 h root k v) as (h' & _ & H'); [lia | exact H|].
    exists h'. exact H'.
  - intros n k [h H]. exists h. apply bounded_balanced_remove. exact H.
  - exists 0%nat. reflexivity.
Qed.


(** * The key to the left *)

Lemma find_leaf_reached_leaf n k li pos :
  find_leaf n k = Some (li, pos) → reached_leaf n k = li.
Proof.
  revert li. induction n as [t lf es cs IH] using BTreeNode_children_ind. intros li.
  simpl. destruct lf.
  - destruct (es !! scan_up k es) as [e|]; [|discriminate].
    destruct (key_eq k (key e)); [|discriminate]. congruence.
  - rewrite !apply_nth_lookup.
    destruct (cs !! scan_up k es) as [c|] eqn:Hc; [|discriminate]. simpl.
    destruct (find_leaf c k) as [[li' pos']|] eqn:Hfc; [|discriminate].
    intros Hf. assert (pos' = pos) as -> by congruence.
    assert (Hli : li = (length (concat (collect_leaves <$> take (scan_up k es) cs)) + li')%nat)
      by congruence.
    rewrite Hli. f_equal. exact (Forall_lookup_1 _ _ _ _ IH Hc li' Hfc).
Qed.

(** X17. For a key that [find_leaf] locates, [get_left_neighbor_max_key]
    returns the key of the record just before it in the chain of leaves,
    and the empty key when it is the first record of the chain, provided no
    leaf is empty. *)
Theorem left_neighbor_max_key_located idx k li pos :
  find_leaf (_root idx) k = Some (li, pos) →
  Forall (λ les, les ≠ []) (collect_leaves (_root idx)) →
  ∃ l1 e l2,
    concat (collect_leaves (_root idx)) = l1 ++ e :: l2 ∧ key e = k
    ∧ get_left_neighbor_max_key idx k = match last l1 with Some p => key p | None => [] end.
Proof.
  intros Hf Hne. destruct (find_leaf_entry _ _ _ _ Hf) as (e & He & Hk).
  destruct (entry_at_leaf _ _ _ _ He) as (les & Hles & Hpos).
  set (leaves := collect_leaves (_root idx)) in *.
  exists (concat (take li leaves) ++ take pos les), e,
         (drop (S pos) les ++ concat (drop (S li) leaves)).
  split; [|split; [exact Hk|]].
  - rewrite <- (take_drop_middle leaves li les Hles) at 1.
    rewrite concat_app. simpl. rewrite <- (take_drop_middle les pos e Hpos) at 1.
    rewrite <- !List.app_assoc. reflexivity.
  - unfold get_left_neighbor_max_key, _link_leaf_neighbors. fold leaves.
    rewrite (find_leaf_reached_leaf _ _ _ _ Hf), Hf.
    destruct pos as [|p].
    + rewrite take_0, app_nil_r. destruct li as [|lj]; [reflexivity|].
      destruct (leaves !! lj) as [left_entries|] eqn:Hl.
      * rewrite (take_S_r _ _ _ Hl), concat_app. simpl. rewrite app_nil_r.
        assert (Hleft : left_entries ≠ []).
        { rewrite Forall_forall in Hne. apply Hne. exact (list_elem_of_lookup_2 _ _ _ Hl). }
        destruct (last left_entries) as [x|] eqn:Hlast.
        -- apply last_Some in Hlast as [l' ->]. rewrite app_assoc, last_snoc. reflexivity.
        -- apply last_None in Hlast. contradiction.
      * apply lookup_ge_None in Hl. apply lookup_lt_Some in Hles. lia.
    + rewrite Hles. destruct (les !! p) as [x|] eqn:Hp.
      * rewrite (take_S_r _ _ _ Hp), app_assoc, last_snoc. reflexivity.
      * apply lookup_ge_None in Hp. apply lookup_lt_Some in Hpos. lia.
Qed.

Lemma left_neighbor_max_key_located_witness :
  find_leaf (_root six_keys_index) [4] = Some (1%nat, 0%nat)
  ∧ get_left_neighbor_max_key six_keys_index [4] = [2]
  ∧ ∃ l1 e l2,
      concat (collect_leaves (_root six_keys_index)) = l1 ++ e :: l2 ∧ key e = [4]
      ∧ get_left_neighbor_max_key six_keys_index [4]
        = match last l1 with Some p => key p | None => [] end.
Proof.
  split; [vm_compute; reflexivity|]. split; [vm_compute; reflexivity|].
  apply (left_neighbor_max_key_located six_keys_index [4] 1 0).
  - vm_compute. reflexivity.
  - vm_compute. repeat constructor; discriminate.
Defined.


(** * Keys in leaves and keys in internal nodes *)

(** X18. On a well-formed index [find_leaf] locates exactly the keys whose
    record is in a leaf, and for such a key it gives the position of the
    record that [get_value] returns.  A key whose record is in an internal
    node is held by the index but not located. *)
Theorem find_leaf_locates_leaf_keys idx k :
  well_formed idx →
  (∀ li pos, find_leaf (_root idx) k = Some (li, pos) →
     ∃ e, entry_at (collect_leaves (_root idx)) li pos = Some e ∧ key e = k
          ∧ get_value idx k = Some (value e))
  ∧ (is_Some (find_leaf (_root idx) k) ↔ k ∈ leaf_walk_keys idx)
  ∧ (k ∈ all_keys idx → k ∉ leaf_walk_keys idx →
     find_leaf (_root idx) k = None ∧ contains_key idx k = true).
Proof.
  intros Hwf. pose proof Hwf as Hwf'. apply well_formedb_iff in Hwf' as [Hok Hs].
  assert (Hloc : is_Some (find_leaf (_root idx) k) ↔ k ∈ leaf_walk_keys idx).
  { unfold leaf_walk_keys, _link_leaf_neighbors. split.
    - intros [[li pos] Hf]. destruct (find_leaf_entry _ _ _ _ Hf) as (e & He & Hk).
      apply list_elem_of_fmap. exists e. split; [auto|].
      destruct (entry_at_leaf _ _ _ _ He) as (les & Hles & Hpos).
      exact (elem_of_concat_lookup _ _ _ _ Hles (list_elem_of_lookup_2 _ _ _ Hpos)).
    - intros Hin. apply list_elem_of_fmap in Hin as (e & -> & He).
      destruct (find_leaf_complete _ e Hok Hs He) as (li & pos & Hf). eauto. }
  split; [|split; [exact Hloc|]].
  - intros li pos Hf. destruct (wf_located _ _ _ _ Hok Hs Hf) as (e & He & Hk & Hv & _).
    exists e. auto.
  - intros Hall Hleaf. split.
    + destruct (find_leaf (_root idx) k) as [p|] eqn:Hf; [|reflexivity].
      exfalso. apply Hleaf, Hloc. eauto.
    + unfold all_keys in Hall. apply list_elem_of_fmap in Hall as (e & -> & He).
      unfold contains_key. rewrite (search_stored_record _ _ Hwf He).
      apply bool_decide_eq_true. eauto.
Qed.

Lemma find_leaf_locates_leaf_keys_witness :
  well_formed six_keys_index
  ∧ find_leaf (_root six_keys_index) [3] = None
  ∧ contains_key six_keys_index [3] = true
  ∧ is_Some (find_leaf (_root six_keys_index) [5]).
Proof.
  assert (Hwf : well_formed six_keys_index) by (vm_compute; reflexivity).
  destruct (find_leaf_locates_leaf_keys six_keys_index [3] Hwf) as (_ & _ & Hint).
  destruct (find_leaf_locates_leaf_keys six_keys_index [5] Hwf) as (_ & Hloc & _).
  split; [exact Hwf|].
  assert (H3 : find_leaf (_root six_keys_index) [3] = None
               ∧ contains_key six_keys_index [3] = true).
  { apply Hint.
    - vm_compute. do 2 apply list_elem_of_further. apply list_elem_of_here.
    - vm_compute. intros H. repeat (apply elem_of_cons in H as [H|H]; [discriminate|]).
      apply elem_of_nil in H. exact H. }
  destruct H3 as [H3 H3']. split; [exact H3|]. split; [exact H3'|].
  apply Hloc. vm_compute. do 3 apply list_elem_of_further. apply list_elem_of_here.
Defined.

Lemma held_not_in_leaf idx l :
  well_formed idx → l ∈ all_keys idx → l ∉ leaf_walk_keys idx →
  is_Some (search (_root idx) l) ∧ find_leaf (_root idx) l = None.
Proof.
  intros Hwf Hall Hleaf. pose proof Hwf as Hwf'. apply well_formedb_iff in Hwf' as [Hok Hs].
  split.
  - unfold all_keys in Hall. apply list_elem_of_fmap in Hall as (e & -> & He).
    rewrite (search_stored_record _ _ Hwf He). eauto.
  - destruct (find_leaf (_root idx) l) as [[li pos]|] eqn:Hf; [|reflexivity].
    exfalso. apply Hleaf. unfold leaf_walk_keys, _link_leaf_neighbors.
    destruct (find_leaf_entry _ _ _ _ Hf) as (e & He & Hk).
    apply list_elem_of_fmap. exists e. split; [auto|].
    destruct (entry_at_leaf _ _ _ _ He) as (les & Hles & Hpos).
    exact (elem_of_concat_lookup _ _ _ _ Hles (list_elem_of_lookup_2 _ _ _ Hpos)).
Qed.

(** X19. A key whose record the splits have moved into an internal node is
    out of reach of the validation: on a well-formed index, however many
    pairs with different RHS values are inserted for it as FD, the index
    stays as it is, with no value tracked and no violation counted, and
    every call returns zero deltas; a delete for it changes nothing
    either, and an OD insert returns zero deltas, tracks nothing and leaves
    the counter alone. *)
Theorem validation_misses_internal_keys idx l (rs : list Key) :
  well_formed idx → l ∈ all_keys idx → l ∉ leaf_walk_keys idx →
  foldl (λ i r, (insert_entry_for_validation i l r FD).2) idx rs = idx
  ∧ (∀ r, (insert_entry_for_validation idx l r FD).1 = zero_deltas)
  ∧ (∀ r d, delete_entry_for_validation idx l r d = (zero_deltas, idx))
  ∧ (∀ r, (insert_entry_for_validation idx l r OD).1 = zero_deltas
          ∧ rhs_values <$> get_value (insert_entry_for_validation idx l r OD).2 l
            = rhs_values <$> get_value idx l
          ∧ global_violation_count (insert_entry_for_validation idx l r OD).2
            = global_violation_count idx).
Proof.
  intros Hwf Hall Hleaf.
  destruct (held_not_in_leaf idx l Hwf Hall Hleaf) as [[v Hs] Hf].
  assert (HFD : ∀ r, insert_entry_for_validation idx l r FD = (zero_deltas, idx)).
  { intros r. unfold insert_entry_for_validation. rewrite Hs. simpl. rewrite Hf.
    destruct idx; reflexivity. }
  split; [|split; [|split]].
  - induction rs as [|r rs IH]; [reflexivity|]. simpl. rewrite HFD. exact IH.
  - intros r. rewrite HFD. reflexivity.
  - intros r d. unfold delete_entry_for_validation. rewrite Hf. reflexivity.
  - intros r. unfold insert_entry_for_validation. rewrite Hs. simpl.
    rewrite (find_leaf_same_keys _ (_root idx) l (key_shape_alter_search _ _ _)), Hf.
    split; [reflexivity|]. split; [|reflexivity].
    unfold get_value. simpl.
    rewrite search_alter_search, decide_True by reflexivity. rewrite Hs. reflexivity.
Qed.

Lemma validation_misses_internal_keys_witness :
  well_formed six_keys_index
  ∧ foldl (λ i r, (insert_entry_for_validation i [3] r FD).2) six_keys_index [[10]; [11]]
    = six_keys_index.
Proof.
  assert (Hwf : well_formed six_keys_index) by (vm_compute; reflexivity).
  split; [exact Hwf|].
  apply (validation_misses_internal_keys six_keys_index [3] [[10]; [11]] Hwf).
  - vm_compute. do 2 apply list_elem_of_further. apply list_elem_of_here.
  - vm_compute. intros H. repeat (apply elem_of_cons in H as [H|H]; [discriminate|]).
    apply elem_of_nil in H. exact H.
Defined.


(** * What the FD paths do to the record of a key *)

Lemma search_set_value_at_located n l li pos v k :
  well_formedb n = true → find_leaf n l = Some (li, pos) →
  search (set_value_at li pos v n) k = if decide (k = l) then Some v else search n k.
Proof.
  intros Hwf Hf. apply well_formedb_iff in Hwf as [Hok Hs].
  destruct (wf_located _ _ _ _ Hok Hs Hf) as (e & _ & _ & Hsearch & Halter & _).
  rewrite <- (Halter (λ _, v)), search_alter_search, Hsearch. reflexivity.
Qed.

Lemma search__insert_other root k v k' :
  well_formedb root = true → search root k = None → k' ≠ k →
  search (_insert root k v) k' = search root k'.
Proof.
  intros Hwf Hs Hne. pose proof (well_formedb__insert root k v Hwf Hs) as Hwf'.
  pose proof Hwf as Hwf0. apply well_formedb_iff in Hwf0 as [Hok _].
  destruct (_insert_entries root k v (btree_ok_shape_ok _ Hok))
    as (_ & _ & l1 & l2 & E1 & E2 & _).
  apply search_same_records; [exact Hwf' | exact Hwf|].
  intros w. rewrite E1, E2, !elem_of_app, elem_of_cons. split.
  - intros [H|[H|H]]; [left; exact H | congruence | right; exact H].
  - intros [H|H]; [left; exact H | right; right; exact H].
Qed.

Lemma fd_insert_local_delta (old : gset Z) a :
  (if decide ({[a]} ∪ old = ∅) then 0 else Z.of_nat (size ({[a]} ∪ old)) - 1)
  - Z.max 0 (Z.of_nat (size old) - 1)
  = if decide (a ∈ old ∨ old = ∅) then 0 else 1.
Proof.
  rewrite decide_False by set_solver.
  destruct (decide (a ∈ old)) as [Hin|Hnin].
  - rewrite decide_True by auto.
    rewrite (subseteq_union_1_L {[a]} old) by (apply singleton_subseteq_l; exact Hin).
    assert (Hsz : size old ≠ 0%nat) by (apply size_non_empty_iff; set_solver). lia.
  - rewrite size_union by set_solver. rewrite size_singleton.
    destruct (decide (old = ∅)) as [->|Hne].
    + rewrite decide_True by auto. rewrite size_empty. lia.
    + rewrite decide_False by tauto.
      assert (Hsz : size old ≠ 0%nat) by (apply size_non_empty_iff; set_solver). lia.
Qed.

Lemma insert_entry_FD_located idx l a rest li pos e :
  well_formed idx → local_law (value e) →
  find_leaf (_root idx) l = Some (li, pos) →
  entry_at (collect_leaves (_root idx)) li pos = Some e →
  rhs_values <$> get_value (insert_entry_for_validation idx l (a :: rest) FD).2 l
    = Some ({[a]} ∪ rhs_values (value e))
  ∧ local_violation_count_delta (insert_entry_for_validation idx l (a :: rest) FD).1
    = (if decide (a ∈ rhs_values (value e) ∨ rhs_values (value e) = ∅) then 0 else 1)
  ∧ (∀ k, k ≠ l → get_value (insert_entry_for_validation idx l (a :: rest) FD).2 k
                  = get_value idx k)
  ∧ global_violation_count (insert_entry_for_validation idx l (a :: rest) FD).2
    = global_violation_count idx
      + total_delta (insert_entry_for_validation idx l (a :: rest) FD).1.
Proof.
  intros Hwf Hlaw Hf He.
  rewrite (insert_entry_located_FD idx l (a :: rest) li pos e Hwf Hf He).
  cbv zeta. cbn [fst snd]. unfold get_value. cbn [_root global_violation_count].
  split; [|split; [|split]].
  - rewrite (search_set_value_at_located _ l li pos _ l Hwf Hf), decide_True by reflexivity.
    destruct (decide (right_neighbor_flag_contribution (value e) = 0)); reflexivity.
  - cbn [local_violation_count_delta]. unfold local_law in Hlaw. rewrite Hlaw.
    unfold local_violation_count. cbn [rhs_values set_rhs_values].
    apply fd_insert_local_delta.
  - intros k Hne.
    rewrite (search_set_value_at_located _ l li pos _ k Hwf Hf), decide_False by exact Hne.
    reflexivity.
  - unfold total_delta. cbn [flag_delta local_violation_count_delta]. lia.
Qed.

(** X20. An FD [insert_entry_for_validation] of the pair [(l, a)] on a
    well-formed index, for a key that is new or has its record in a leaf,
    adds [a] to the tracked values of [l] and of no other key.  The local
    delta it returns is 1 when [l] already had a tracked value and [a] is
    not one of them, and 0 otherwise, and the violation counter moves by
    the total delta returned. *)
Theorem insert_entry_FD_tracks_pair idx l a rest :
  well_formed idx → local_law_holds idx →
  contains_key idx l = false ∨ is_Some (find_leaf (_root idx) l) →
  rhs_values <$> get_value (insert_entry_for_validation idx l (a :: rest) FD).2 l
    = Some ({[a]} ∪ default ∅ (rhs_values <$> get_value idx l))
  ∧ local_violation_count_delta (insert_entry_for_validation idx l (a :: rest) FD).1
    = (if decide (a ∈ default ∅ (rhs_values <$> get_value idx l)
                  ∨ default ∅ (rhs_values <$> get_value idx l) = ∅)
       then 0 else 1)
  ∧ (∀ k, k ≠ l → get_value (insert_entry_for_validation idx l (a :: rest) FD).2 k
                  = get_value idx k)
  ∧ global_violation_count (insert_entry_for_validation idx l (a :: rest) FD).2
    = global_violation_count idx
      + total_delta (insert_entry_for_validation idx l (a :: rest) FD).1.
Proof.
  intros Hwf Hlaw [Hnew|[[li pos] Hf]].
  - apply contains_key_search in Hnew.
    rewrite (insert_entry_new_key_FD idx l (a :: rest) Hwf Hnew).
    set (idx' := with_root (_insert (_root idx) l (new_value 0)) idx).
    assert (Hwf' : well_formed idx') by (apply well_formedb__insert; assumption).
    destruct (find_leaf__insert (_root idx) l (new_value 0) Hwf Hnew) as (li & pos & Hf & He).
    destruct (insert_entry_FD_located idx' l a rest li pos (mkEntry l (new_value 0)) Hwf'
                (local_law_new_value 0) Hf He)
      as (H1 & H2 & H3 & H4).
    assert (Hg : get_value idx l = None) by exact Hnew.
    rewrite Hg. cbn [fmap option_fmap option_map default].
    split; [exact H1|]. split; [exact H2|]. split; [|exact H4].
    intros k Hne. rewrite (H3 k Hne). unfold get_value, idx'. cbn [_root with_root].
    apply search__insert_other; assumption.
  - pose proof Hwf as Hwf'. apply well_formedb_iff in Hwf' as [Hok Hs].
    destruct (wf_located _ _ _ _ Hok Hs Hf) as (e & He & Hk & Hsearch & _).
    assert (Hlaw_e : local_law (value e)).
    { unfold local_law_holds in Hlaw. rewrite Forall_forall in Hlaw.
      apply (Hlaw e). exact (entry_at_in_tree _ _ _ _ He). }
    assert (Hg : get_value idx l = Some (value e)) by exact Hsearch.
    rewrite Hg. cbn [fmap option_fmap option_map default].
    exact (insert_entry_FD_located idx l a rest li pos e Hwf Hlaw_e Hf He).
Qed.

Lemma insert_entry_FD_tracks_pair_witness :
  well_formed fd_flagged_index ∧ local_law_holds fd_flagged_index
  ∧ is_Some (find_leaf (_root fd_flagged_index) [1])
  ∧ local_violation_count_delta
      (insert_entry_for_validation fd_flagged_index [1] [77] FD).1
    = (if decide (77 ∈ default ∅ (rhs_values <$> get_value fd_flagged_index [1])
                  ∨ default ∅ (rhs_values <$> get_value fd_flagged_index [1]) = ∅)
       then 0 else 1).
Proof.
  assert (Hwf : well_formed fd_flagged_index) by (vm_compute; reflexivity).
  assert (Hlaw : local_law_holds fd_flagged_index).
  { apply (local_law_run _ _ (local_law_BTreeIndex_new [[]])). }
  assert (Hf : is_Some (find_leaf (_root fd_flagged_index) [1])) by (vm_compute; eauto).
  split; [exact Hwf|]. split; [exact Hlaw|]. split; [exact Hf|].
  apply (insert_entry_FD_tracks_pair fd_flagged_index [1] 77 [] Hwf Hlaw). right. exact Hf.
Defined.


Lemma search_remove_located_other n l li pos k :
  well_formedb n = true → find_leaf n l = Some (li, pos) → k ≠ l →
  search (remove_from_node n l) k = search n k.
Proof.
  intros Hwf Hf Hne.
  pose proof (well_formedb_remove_located _ l Hwf (ex_intro _ _ Hf)) as Hwf'.
  destruct (remove_located_entries _ l li pos Hwf Hf) as (l1 & e & l2 & _ & Hk & E1 & E2).
  apply search_same_records; [exact Hwf' | exact Hwf|].
  intros w. rewrite E1, E2, !elem_of_app, elem_of_cons. split.
  - intros [H|H]; [left; exact H | right; right; exact H].
  - intros [H|[H|H]]; [left; exact H | | right; exact H].
    subst e. simpl in Hk. congruence.
Qed.

Lemma fd_delete_local_delta (old : gset Z) a :
  old ∖ {[a]} ≠ ∅ →
  (if decide (old ∖ {[a]} = ∅) then 0 else Z.of_nat (size (old ∖ {[a]})) - 1)
  - Z.max 0 (Z.of_nat (size old) - 1)
  = if decide (a ∈ old) then -1 else 0.
Proof.
  intros Hne. rewrite decide_False by exact Hne.
  assert (Hsz : size (old ∖ {[a]}) ≠ 0%nat).
  { apply size_non_empty_iff. intros E. apply Hne. apply leibniz_equiv. exact E. }
  destruct (decide (a ∈ old)) as [Hin|Hnin].
  - assert (Hsize : size old = S (size (old ∖ {[a]}))).
    { rewrite (union_difference_L {[a]} old) at 1 by (apply singleton_subseteq_l; exact Hin).
      rewrite size_union, size_singleton; [reflexivity|].
      intros x Hx1 Hx2. apply elem_of_difference in Hx2 as [_ Hx2]. exact (Hx2 Hx1). }
    lia.
  - rewrite (difference_absent old a Hnin) in *. lia.
Qed.

(** X21. An FD [delete_entry_for_validation] of the pair [(l, a)] on a
    well-formed index, for a key whose record is in a leaf, takes [a] from
    the tracked values of [l] and touches no other key.  When tracked
    values remain, the local delta is -1 if [a] was tracked and 0 if not;
    when none remains, also when none was tracked before, the record of
    [l] is erased and the local delta is 0.  The violation counter moves
    by the total delta returned. *)
Theorem delete_entry_FD_untracks_pair idx l a rest v :
  well_formed idx → local_law_holds idx →
  is_Some (find_leaf (_root idx) l) → get_value idx l = Some v →
  (rhs_values v ∖ {[a]} ≠ ∅ →
     rhs_values <$> get_value (delete_entry_for_validation idx l (a :: rest) FD).2 l
       = Some (rhs_values v ∖ {[a]})
     ∧ (delete_entry_for_validation idx l (a :: rest) FD).1
       = mkDeltas 0 (if decide (a ∈ rhs_values v) then -1 else 0))
  ∧ (rhs_values v ∖ {[a]} = ∅ →
     contains_key (delete_entry_for_validation idx l (a :: rest) FD).2 l = false
     ∧ (delete_entry_for_validation idx l (a :: rest) FD).1
       = mkDeltas (- right_neighbor_flag_contribution v) 0)
  ∧ (∀ k, k ≠ l → get_value (delete_entry_for_validation idx l (a :: rest) FD).2 k
                  = get_value idx k)
  ∧ global_violation_count (delete_entry_for_validation idx l (a :: rest) FD).2
    = global_violation_count idx
      + total_delta (delete_entry_for_validation idx l (a :: rest) FD).1.
Proof.
  intros Hwf Hlaw [[li pos] Hf] Hv.
  pose proof Hwf as Hwf'. apply well_formedb_iff in Hwf' as [Hok Hs].
  destruct (wf_located _ _ _ _ Hok Hs Hf) as (e & He & Hk & Hsearch & _).
  assert (v = value e) as -> by (unfold get_value in Hv; congruence).
  assert (Hlaw_e : local_law (value e)).
  { unfold local_law_holds in Hlaw. rewrite Forall_forall in Hlaw.
    apply (Hlaw e). exact (entry_at_in_tree _ _ _ _ He). }
  unfold local_law in Hlaw_e.
  destruct (decide (rhs_values (value e) ∖ {[a]} = ∅)) as [Hempty|Hne].
  - destruct (delete_entry_located_empty idx l a rest FD li pos e Hf He Hempty)
      as (root3 & fd & Hshape & Heq & HFD).
    destruct (HFD eq_refl) as [-> ->]. rewrite Heq. cbn [fst snd].
    set (root1 := set_value_at li pos _ (_root idx)).
    assert (Hwf1 : well_formedb root1 = true) by (apply well_formedb_set_value_at; exact Hwf).
    assert (Hf1 : find_leaf root1 l = Some (li, pos)).
    { unfold root1. rewrite find_leaf_set_value_at. exact Hf. }
    assert (Hlocal : local_violation_count_contribution (value e) = 0).
    { rewrite Hlaw_e.
      assert (Hsub : rhs_values (value e) ⊆ {[a]}).
      { intros x Hx. destruct (decide (x = a)) as [->|Hxa]; [apply elem_of_singleton; reflexivity|].
        exfalso. assert (Hin : x ∈ rhs_values (value e) ∖ {[a]}).
        { apply elem_of_difference. split; [exact Hx|]. rewrite elem_of_singleton. exact Hxa. }
        rewrite Hempty in Hin. exact (not_elem_of_empty x Hin). }
      pose proof (subseteq_size _ _ Hsub) as Hsz. rewrite size_singleton in Hsz. lia. }
    split; [intros Hne; contradiction|]. split; [|split].
    + intros _. split.
      * apply contains_key_search. cbn [_root].
        exact (search_after_remove _ l li pos Hwf1 Hf1).
      * rewrite Hlocal. reflexivity.
    + intros k Hne. unfold get_value. cbn [_root].
      rewrite (search_remove_located_other _ l li pos k Hwf1 Hf1 Hne).
      unfold root1.
      rewrite (search_set_value_at_located _ l li pos _ k Hwf Hf), decide_False by exact Hne.
      reflexivity.
    + cbn [global_violation_count]. unfold total_delta.
      cbn [flag_delta local_violation_count_delta]. lia.
  - rewrite (delete_entry_located_nonempty idx l a rest FD li pos e Hf He Hne).
    cbv zeta. cbn [fst snd]. unfold get_value. cbn [_root global_violation_count].
    split; [|split; [intros Hempty; contradiction|split]].
    + intros _. split.
      * rewrite (search_set_value_at_located _ l li pos _ l Hwf Hf), decide_True by reflexivity.
        reflexivity.
      * f_equal. rewrite Hlaw_e. unfold local_violation_count.
        cbn [rhs_values set_rhs_values]. apply fd_delete_local_delta. exact Hne.
    + intros k Hk'.
      rewrite (search_set_value_at_located _ l li pos _ k Hwf Hf), decide_False by exact Hk'.
      reflexivity.
    + unfold total_delta. cbn [flag_delta local_violation_count_delta]. lia.
Qed.

Lemma delete_entry_FD_untracks_pair_witness :
  well_formed fd_violated_index ∧ local_law_holds fd_violated_index
  ∧ is_Some (find_leaf (_root fd_violated_index) [1])
  ∧ ∃ v, get_value fd_violated_index [1] = Some v
         ∧ global_violation_count (delete_entry_for_validation fd_violated_index [1] [10] FD).2
           = global_violation_count fd_violated_index
             + total_delta (delete_entry_for_validation fd_violated_index [1] [10] FD).1.
Proof.
  assert (Hwf : well_formed fd_violated_index) by (vm_compute; reflexivity).
  assert (Hlaw : local_law_holds fd_violated_index).
  { apply (local_law_run _ _ (local_law_BTreeIndex_new [[]])). }
  assert (Hf : is_Some (find_leaf (_root fd_violated_index) [1])) by (vm_compute; eauto).
  assert (Hv : is_Some (get_value fd_violated_index [1])) by (vm_compute; eauto).
  split; [exact Hwf|]. split; [exact Hlaw|]. split; [exact Hf|].
  destruct Hv as [v Hv]. exists v. split; [exact Hv|].
  apply (delete_entry_FD_untracks_pair fd_violated_index [1] 10 [] v Hwf Hlaw Hf Hv).
Defined.


(** * The search with hints *)

Lemma binary_search_S turns es k lower upper :
  binary_search (S turns) es k lower upper
  = if (lower <? upper)%nat then
      match es !! (lower + (upper - lower) / 2)%nat with
      | Some e =>
          if key_lt k (key e) then binary_search turns es k lower (lower + (upper - lower) / 2)
          else if key_lt (key e) k
               then binary_search turns es k (lower + (upper - lower) / 2 + 1) upper
               else ((lower + (upper - lower) / 2)%nat, true)
      | None => (lower, false)
      end
    else (lower, false).
Proof. reflexivity. Qed.

Lemma binary_search_spec es k :
  StronglySorted entry_lt es →
  ∀ turns lower upper,
    (upper - lower ≤ turns)%nat → (lower ≤ scan_up k es)%nat → (scan_up k es ≤ upper)%nat →
    (upper ≤ length es)%nat →
    (∀ e, es !! scan_up k es = Some e → key e = k → (scan_up k es < upper)%nat) →
    binary_search turns es k lower upper
    = (scan_up k es,
       match es !! scan_up k es with Some e => key_eq k (key e) | None => false end).
Proof.
  intros Hs. pose proof (scan_up_spec k es) as (Hq & Hlo & Hhi).
  pose proof (leaf_key_position k es Hs) as [_ Hrest].
  set (i0 := scan_up k es) in *.
  assert (Habove : ∀ j e, (i0 < j)%nat → es !! j = Some e → key_lt k (key e) = true).
  { intros j e Hj He. destruct (es !! i0) as [e0|] eqn:He0.
    - destruct Hrest as [_ Hgt]. rewrite Forall_forall in Hgt. apply Hgt.
      apply (list_elem_of_lookup_2 _ (j - S i0)). rewrite lookup_drop.
      replace (S i0 + (j - S i0))%nat with j by lia. exact He.
    - apply lookup_ge_None in He0. apply lookup_lt_Some in He. lia. }
  assert (Hstop : ∀ lower upper,
            (upper ≤ lower)%nat → (lower ≤ i0)%nat → (i0 ≤ upper)%nat →
            (∀ e, es !! i0 = Some e → key e = k → (i0 < upper)%nat) →
            (lower, false)
            = (i0, match es !! i0 with Some e => key_eq k (key e) | None => false end)).
  { intros lower upper H1 H2 H3 Hfound. f_equal; [lia|].
    destruct (es !! i0) as [e|] eqn:He; [|reflexivity].
    symmetry. apply key_eq_false. intros Hk. specialize (Hfound e eq_refl (eq_sym Hk)). lia. }
  induction turns as [|turns IH]; intros lower upper Hturns Hl Hu Hlen Hfound.
  - simpl. apply (Hstop lower upper); [lia | exact Hl | exact Hu | exact Hfound].
  - rewrite binary_search_S. destruct (lower <? upper)%nat eqn:Hlt.
    2:{ apply Nat.ltb_ge in Hlt. exact (Hstop lower upper Hlt Hl Hu Hfound). }
    apply Nat.ltb_lt in Hlt.
    set (mid := (lower + (upper - lower) / 2)%nat) in *.
    assert (Hmid : (lower ≤ mid)%nat ∧ (mid < upper)%nat).
    { unfold mid. pose proof (Nat.Div0.div_lt_upper_bound (upper - lower) 2 (upper - lower)).
      lia. }
    destruct (lookup_lt_is_Some_2 es mid) as [e He]; [lia|]. rewrite He.
    destruct (key_lt k (key e)) eqn:E1.
    + assert (Hge : (i0 ≤ mid)%nat).
      { destruct (decide (mid < i0)%nat) as [Hc|]; [|lia].
        rewrite (key_lt_asym _ _ (Hlo mid e Hc He)) in E1. discriminate. }
      apply IH; [lia | exact Hl | exact Hge | lia|].
      intros e0 He0 Hk. destruct (decide (i0 = mid)) as [Heq|]; [|lia].
      rewrite Heq, He in He0. injection He0 as <-. rewrite Hk, key_lt_irrefl in E1. discriminate.
    + destruct (key_lt (key e) k) eqn:E2.
      * assert (Hlt' : (mid < i0)%nat).
        { destruct (decide (mid < i0)%nat) as [|Hc]; [assumption|].
          destruct (decide (mid = i0)) as [Heq|Hne].
          - rewrite Heq in He. rewrite (Hhi e He) in E2. discriminate.
          - assert (Hgt : (i0 < mid)%nat) by lia.
            rewrite (key_lt_asym _ _ (Habove mid e Hgt He)) in E2. discriminate. }
        apply IH; [lia | lia | exact Hu | exact Hlen | exact Hfound].
      * assert (Heq : mid = i0).
        { destruct (decide (mid < i0)%nat) as [Hc|Hc].
          - rewrite (Hlo mid e Hc He) in E2. discriminate.
          - destruct (decide (i0 < mid)%nat) as [Hc'|]; [|lia].
            rewrite (Habove mid e Hc' He) in E1. discriminate. }
        rewrite <- Heq, He. f_equal. symmetry. apply key_eq_true.
        symmetry. apply key_lt_trichotomy; assumption.
Qed.

Lemma lower_bound_optimized_small H compute_head hints es k :
  StronglySorted entry_lt es → (length es ≤ 2 * H)%nat →
  lower_bound_optimized H compute_head hints es k
  = (scan_up k es,
     match es !! scan_up k es with Some e => key_eq k (key e) | None => false end).
Proof.
  intros Hs Hsmall. unfold lower_bound_optimized.
  destruct es as [|e0 es']; [reflexivity|].
  set (es := e0 :: es') in *. unfold search_hint.
  replace ((H =? 0)%nat || (length es <=? H * 2)%nat) with true.
  2:{ symmetry. apply orb_true_iff. right. apply Nat.leb_le. lia. }
  pose proof (scan_up_spec k es) as (Hq & _).
  apply binary_search_spec; [exact Hs | lia | lia | exact Hq | lia|].
  intros e He _. apply lookup_lt_Some in He. exact He.
Qed.

Lemma sorted_children t es cs :
  StronglySorted entry_lt (tree_entries (mkNode t false es cs)) →
  Forall (λ c, StronglySorted entry_lt (tree_entries c)) cs.
Proof.
  intros Hs. apply Forall_forall. intros c Hc.
  apply list_elem_of_lookup in Hc as [i Hi].
  eapply StronglySorted_sublist; [|exact Hs].
  destruct (interleave_child (tree_entries <$> cs) es i (tree_entries c)) as (B & A & E & _).
  { rewrite list_lookup_fmap, Hi. reflexivity. }
  simpl. rewrite E. apply sublist_inserts_l, sublist_inserts_r. reflexivity.
Qed.

(** X22. On a well-formed tree whose nodes hold at most twice
    [BTREE_HINT_COUNT] entries, the search of the version with hints, a
    binary search in every node, returns what the linear search of
    b_tree_nodes.cpp returns, whatever the hint arrays hold and whatever
    [compute_head] computes: in nodes of that size the hints are not
    consulted. *)
Theorem search_optimized_agrees H compute_head hints_of t0 h n k :
  well_formedb n = true → bounded_balanced t0 h n = true → (2 * t0 - 1 ≤ 2 * H)%nat →
  search_optimized H compute_head hints_of n k = search n k.
Proof.
  intros Hwf Hb Hcap. apply well_formedb_iff in Hwf as [Hok Hs].
  revert h Hb Hok Hs. induction n as [t lf es cs IH] using BTreeNode_children_ind.
  intros h Hb Hok Hs.
  apply bounded_balanced_node in Hb as (-> & Hlen & Hrest).
  assert (Hes : StronglySorted entry_lt es).
  { destruct lf; [exact Hs|]. exact (node_entries_sorted _ _ _ Hs). }
  pose proof (scan_up_spec k es) as (Hq & _).
  change (search_optimized H compute_head hints_of (mkNode t0 lf es cs) k)
    with (let '(pos, found) :=
            lower_bound_optimized H compute_head (hints_of (mkNode t0 lf es cs)) es k in
          if found && (pos <? length es)%nat then value <$> es !! pos
          else if lf then None
          else if (pos <? length cs)%nat
               then apply_nth (λ c, search_optimized H compute_head hints_of c k) None cs pos
               else None).
  rewrite (lower_bound_optimized_small H compute_head _ es k Hes) by lia.
  simpl search. set (i := scan_up k es) in *.
  assert (Hchild : lf = false →
            (if (i <? length cs)%nat
             then apply_nth (λ c, search_optimized H compute_head hints_of c k) None cs i
             else None)
            = apply_nth (λ c, search c k) None cs i).
  { intros ->. destruct Hrest as (h' & -> & _ & Hcs).
    apply btree_ok_node in Hok as (_ & Hok). destruct (Hok eq_refl) as [_ Hcsok].
    pose proof (sorted_children _ _ _ Hs) as Hcss.
    rewrite !apply_nth_lookup. destruct (cs !! i) as [c|] eqn:Hc.
    - rewrite (proj2 (Nat.ltb_lt _ _) (lookup_lt_Some _ _ _ Hc)). simpl.
      apply (Forall_lookup_1 _ _ _ _ IH Hc h').
      + exact (Forall_lookup_1 _ _ _ _ Hcs Hc).
      + exact (Forall_lookup_1 _ _ _ _ Hcsok Hc).
      + exact (Forall_lookup_1 _ _ _ _ Hcss Hc).
    - destruct (i <? length cs)%nat; reflexivity. }
  destruct (es !! i) as [e|] eqn:He.
  - rewrite (proj2 (Nat.ltb_lt _ _) (lookup_lt_Some _ _ _ He)).
    destruct (key_eq k (key e)); simpl; [reflexivity|].
    destruct lf; [reflexivity|]. exact (Hchild eq_refl).
  - simpl. destruct lf; [reflexivity|]. exact (Hchild eq_refl).
Qed.

Lemma search_optimized_agrees_witness :
  search_optimized 16 (λ _, 0) (λ _, replicate 16 0) (_root six_keys_index) [5]
  = search (_root six_keys_index) [5]
  ∧ search_optimized 16 (λ _, 0) (λ _, replicate 16 0) (_root six_keys_index) [5]
    = Some (new_value 1).
Proof.
  split; [|vm_compute; reflexivity].
  apply (search_optimized_agrees 16 (λ _, 0) (λ _, replicate 16 0) 3 1).
  - vm_compute. reflexivity.
  - vm_compute. reflexivity.
  - lia.
Defined.

(** ** The binary search of one node, whatever the hints *)

Lemma binary_search_sound es k turns lower upper :
  (lower ≤ upper)%nat → (upper ≤ length es)%nat →
  (lower ≤ (binary_search turns es k lower upper).1)%nat
  ∧ ((binary_search turns es k lower upper).1 ≤ upper)%nat
  ∧ ((binary_search turns es k lower upper).2 = true →
     ∃ e, es !! (binary_search turns es k lower upper).1 = Some e ∧ key e = k).
Proof.
  revert lower upper. induction turns as [|turns IH]; intros lower upper Hlu Hlen.
  - simpl. split; [lia|]. split; [lia | discriminate].
  - rewrite binary_search_S. destruct (lower <? upper)%nat eqn:Hlt.
    2:{ simpl. split; [lia|]. split; [lia | discriminate]. }
    apply Nat.ltb_lt in Hlt.
    set (mid := (lower + (upper - lower) / 2)%nat) in *.
    assert (Hmid : (lower ≤ mid)%nat ∧ (mid < upper)%nat).
    { unfold mid. pose proof (Nat.Div0.div_lt_upper_bound (upper - lower) 2 (upper - lower)).
      lia. }
    destruct (es !! mid) as [e|] eqn:He.
    2:{ simpl. split; [lia|]. split; [lia | discriminate]. }
    destruct (key_lt k (key e)) eqn:E1.
    + destruct (IH lower mid) as (H1 & H2 & H3); [lia | lia|].
      split; [exact H1|]. split; [lia | exact H3].
    + destruct (key_lt (key e) k) eqn:E2.
      * destruct (IH (mid + 1)%nat upper) as (H1 & H2 & H3); [lia | lia|].
        split; [lia|]. split; [exact H2 | exact H3].
      * simpl. split; [lia|]. split; [lia|]. intros _. exists e. split; [exact He|].
        apply key_lt_trichotomy; assumption.
Qed.

Lemma first_hint_not_below_range hints key_head pos n :
  (pos ≤ first_hint_not_below hints key_head pos n)%nat
  ∧ (first_hint_not_below hints key_head pos n ≤ pos + n)%nat.
Proof.
  revert pos. induction n as [|n IH]; intros pos; simpl; [lia|].
  destruct (key_head <=? hint_at hints pos); [lia|]. specialize (IH (S pos)). lia.
Qed.

Lemma first_hint_differing_range hints key_head pos n :
  (pos ≤ first_hint_differing hints key_head pos n)%nat
  ∧ (first_hint_differing hints key_head pos n ≤ pos + n)%nat.
Proof.
  revert pos. induction n as [|n IH]; intros pos; simpl; [lia|].
  destruct (hint_at hints pos =? key_head); [|lia]. specialize (IH (S pos)). lia.
Qed.

Lemma search_hint_range H hints es key_head upper :
  ((search_hint H hints es key_head 0 upper).1 ≤ (search_hint H hints es key_head 0 upper).2)%nat
  ∧ ((search_hint H hints es key_head 0 upper).2 ≤ upper)%nat.
Proof.
  unfold search_hint.
  destruct ((H =? 0)%nat || (length es <=? H * 2)%nat); [simpl; lia|].
  set (dist := (upper / (H + 1))%nat).
  destruct (dist =? 0)%nat eqn:Hd; [simpl; lia|]. apply Nat.eqb_neq in Hd.
  assert (Hdist : (dist * (H + 1) ≤ upper)%nat).
  { unfold dist. rewrite Nat.mul_comm. apply Nat.Div0.mul_div_le. }
  pose proof (first_hint_not_below_range hints key_head 0 H) as [_ Hpos].
  set (pos := first_hint_not_below hints key_head 0 H) in *.
  pose proof (first_hint_differing_range hints key_head pos (H - pos)) as [Hp1 Hp2].
  set (pos2 := first_hint_differing hints key_head pos (H - pos)) in *.
  cbn [fst snd]. destruct (pos2 <? H)%nat eqn:E.
  - apply Nat.ltb_lt in E. split; [nia|]. nia.
  - split; [nia | lia].
Qed.

(** X23. [lower_bound_optimized] stays inside the node whatever the hint
    array holds: the position it returns is at most the number of entries,
    and when it reports the key found, the entry at that position has the
    key.  On a node with strictly ascending keys and at most twice
    [BTREE_HINT_COUNT] entries it returns the position of the first entry
    whose key is not below the key searched, as the linear scan does, and
    reports the key found exactly when that entry has it. *)
Theorem lower_bound_optimized_in_node H compute_head hints es k :
  ((lower_bound_optimized H compute_head hints es k).1 ≤ length es)%nat
  ∧ ((lower_bound_optimized H compute_head hints es k).2 = true →
     ∃ e, es !! (lower_bound_optimized H compute_head hints es k).1 = Some e ∧ key e = k)
  ∧ (StronglySorted entry_lt es → (length es ≤ 2 * H)%nat →
     lower_bound_optimized H compute_head hints es k
     = (scan_up k es,
        match es !! scan_up k es with Some e => key_eq k (key e) | None => false end)).
Proof.
  split; [|split; [|apply lower_bound_optimized_small]].
  - unfold lower_bound_optimized. destruct es as [|e0 es']; [simpl; lia|].
    set (es := e0 :: es').
    pose proof (search_hint_range H hints es (compute_head k) (length es)) as [H1 H2].
    destruct (search_hint H hints es (compute_head k) 0 (length es)) as [lower upper].
    simpl in H1, H2. cbv beta iota.
    destruct (binary_search_sound es k (upper - lower) lower upper H1 H2) as (_ & Hup & _).
    unfold es in *. cbn [length]. lia.
  - unfold lower_bound_optimized. destruct es as [|e0 es']; [discriminate|].
    set (es := e0 :: es').
    pose proof (search_hint_range H hints es (compute_head k) (length es)) as [H1 H2].
    destruct (search_hint H hints es (compute_head k) 0 (length es)) as [lower upper].
    simpl in H1, H2. cbv beta iota.
    destruct (binary_search_sound es k (upper - lower) lower upper H1 H2) as (_ & _ & Hs).
    exact Hs.
Qed.

Lemma lower_bound_optimized_in_node_witness :
  StronglySorted entry_lt (tree_entries (_root six_keys_index))
  ∧ lower_bound_optimized 16 (λ _, 0) [] (tree_entries (_root six_keys_index)) [4]
    = (3%nat, true).
Proof.
  assert (Hwf : well_formedb (_root six_keys_index) = true) by (vm_compute; reflexivity).
  apply well_formedb_iff in Hwf as [_ Hs]. split; [exact Hs|].
  destruct (lower_bound_optimized_in_node 16 (λ _, 0) [] (tree_entries (_root six_keys_index)) [4])
    as (_ & _ & Hsmall).
  rewrite Hsmall; [vm_compute; reflexivity | exact Hs | vm_compute; lia].
Defined.


(** ** The keys and counts of the bulk-loaded index *)

Lemma filter_replicate_eq {A} `{EqDecision A} (k x : A) n :
  filter (λ y, y = k) (replicate n x) = if decide (x = k) then replicate n x else [].
Proof.
  induction n as [|n IH]; simpl; [destruct (decide (x = k)); reflexivity|].
  destruct (decide (x = k)) as [E|E].
  - rewrite filter_cons_True by exact E. rewrite IH. reflexivity.
  - rewrite filter_cons_False by exact E. exact IH.
Qed.

Lemma filter_nil_not_elem {A} `{EqDecision A} (k : A) l :
  k ∉ l → filter (λ y, y = k) l = [].
Proof.
  induction l as [|x l IH]; intros Hk; [reflexivity|].
  rewrite filter_cons_False; [apply IH|].
  - intros Hin. apply Hk. apply elem_of_cons. right. exact Hin.
  - intros ->. apply Hk. apply list_elem_of_here.
Qed.

Lemma run_records_count s es ks e :
  run_records s es ks → StronglySorted entry_lt es → e ∈ es →
  count (value e) = Z.of_nat (length (filter (λ x, x = key e) ks)).
Proof.
  revert s ks. induction es as [|e0 es IH]; intros s ks Hr Hs He.
  - apply elem_of_nil in He. contradiction.
  - simpl in Hr. destruct Hr as (_ & Hc & ks' & -> & Hr).
    apply StronglySorted_inv in Hs as [Hs Hlt]. rewrite Forall_forall in Hlt.
    rewrite filter_app, length_app, filter_replicate_eq.
    apply elem_of_cons in He as [->|He].
    + rewrite decide_True by reflexivity. rewrite length_replicate.
      rewrite filter_nil_not_elem; [simpl; lia|].
      intros Hin. destruct (run_records_keys _ _ _ _ Hr Hin) as (e' & He' & Hk).
      specialize (Hlt e' He'). unfold entry_lt in Hlt. rewrite Hk, key_lt_irrefl in Hlt.
      discriminate.
    + rewrite decide_False.
      * simpl. exact (IH _ _ Hr Hs He).
      * intros Hk. specialize (Hlt e He). unfold entry_lt in Hlt.
        rewrite Hk, key_lt_irrefl in Hlt. discriminate.
Qed.

Lemma run_records_keys_inv s es ks e :
  run_records s es ks → e ∈ es → key e ∈ ks.
Proof.
  revert s ks. induction es as [|e0 es IH]; intros s ks Hr He.
  - apply elem_of_nil in He. contradiction.
  - simpl in Hr. destruct Hr as (_ & Hc & ks' & -> & Hr). apply elem_of_app.
    apply elem_of_cons in He as [->|He].
    + left. apply elem_of_replicate. split; [reflexivity | lia].
    + right. exact (IH _ _ Hr He).
Qed.

Lemma row_keys_filter_length segments k l :
  length (filter (λ x, x = k) (row_keys segments l))
  = length (filter (λ o, row_key segments o = Some k) l).
Proof.
  induction l as [|o l IH]; [reflexivity|]. rewrite row_keys_cons.
  destruct (row_key segments o) as [ko|] eqn:Hko.
  - destruct (decide (ko = k)) as [->|Hne].
    + rewrite !filter_cons_True by (rewrite ?Hko; reflexivity). simpl. rewrite IH. reflexivity.
    + rewrite !filter_cons_False by (rewrite ?Hko; congruence). exact IH.
  - rewrite filter_cons_False by (rewrite Hko; discriminate). exact IH.
Qed.

Lemma rows_with_key_in_chunk_offsets segments k :
  length (filter (λ o, row_key segments o = Some k) (_chunk_offsets (BTreeIndex_new segments)))
  = length (filter (λ o, row_key segments o = Some k) (seq 0 (chunk_size segments))).
Proof.
  unfold BTreeIndex_new. cbv zeta. cbn [_chunk_offsets].
  change (match segments with seg :: _ => length seg | [] => 0%nat end)
    with (chunk_size segments).
  set (offsets := merge_sort (offset_le segments) (seq 0 (chunk_size segments))).
  destruct (loader_offsets segments offsets (mkLoader (mkNode 3 true [] []) [] [] None))
    as [-> _]. cbn [ld_chunk_offsets app].
  assert (Hperm : offsets ≡ₚ seq 0 (chunk_size segments)) by apply merge_sort_Permutation.
  rewrite <- Hperm. clear Hperm. induction offsets as [|o l IH]; [reflexivity|].
  destruct (row_key segments o) as [ko|] eqn:Hko.
  - rewrite (filter_cons_True (λ o, is_Some (row_key segments o))) by (rewrite Hko; eauto).
    destruct (decide (ko = k)) as [->|Hne].
    + rewrite !filter_cons_True by (rewrite ?Hko; reflexivity). simpl. rewrite IH. reflexivity.
    + rewrite !filter_cons_False by (rewrite ?Hko; congruence). exact IH.
  - rewrite (filter_cons_False (λ o, is_Some (row_key segments o)))
      by (rewrite Hko; intros [? ?]; discriminate).
    rewrite filter_cons_False by (rewrite Hko; discriminate). exact IH.
Qed.

Lemma chunk_offsets_elem segments o :
  o ∈ _chunk_offsets (BTreeIndex_new segments)
  ↔ (o < chunk_size segments)%nat ∧ is_Some (row_key segments o).
Proof.
  unfold BTreeIndex_new. cbv zeta. cbn [_chunk_offsets].
  change (match segments with seg :: _ => length seg | [] => 0%nat end)
    with (chunk_size segments).
  destruct (loader_offsets segments
              (merge_sort (offset_le segments) (seq 0 (chunk_size segments)))
              (mkLoader (mkNode 3 true [] []) [] [] None)) as [-> _].
  cbn [ld_chunk_offsets app].
  rewrite list_elem_of_filter, merge_sort_Permutation, elem_of_seq. split.
  - intros [H1 H2]. split; [lia | exact H1].
  - intros [H1 H2]. split; [exact H2 | lia].
Qed.

(** X24. The index that the constructor builds holds exactly the keys of
    the rows without a NULL, and the count of the record of a key is the
    number of rows of the chunk with that key. *)
Theorem bulk_load_holds_row_keys segments k :
  (contains_key (BTreeIndex_new segments) k = true
   ↔ ∃ o, (o < chunk_size segments)%nat ∧ row_key segments o = Some k)
  ∧ (∀ v, get_value (BTreeIndex_new segments) k = Some v →
       count v
       = Z.of_nat (length (filter (λ o, row_key segments o = Some k)
                             (seq 0 (chunk_size segments))))).
Proof.
  destruct (BTreeIndex_new_runs segments) as (Hwf & _ & Hrun & _).
  pose proof Hwf as Hwf'. apply well_formedb_iff in Hwf' as [Hok Hs].
  assert (Hrows : k ∈ row_keys segments (_chunk_offsets (BTreeIndex_new segments))
                  ↔ ∃ o, (o < chunk_size segments)%nat ∧ row_key segments o = Some k).
  { unfold row_keys. rewrite list_elem_of_omap. split.
    - intros (o & Ho & Hk). exists o. split; [|exact Hk].
      apply chunk_offsets_elem in Ho as [Ho _]. exact Ho.
    - intros (o & Ho & Hk). exists o. split; [|exact Hk].
      apply chunk_offsets_elem. split; [exact Ho|]. rewrite Hk. eauto. }
  split.
  - rewrite <- Hrows. unfold contains_key. rewrite bool_decide_eq_true. split.
    + intros [v Hv]. apply search_Some_record in Hv.
      exact (run_records_keys_inv _ _ _ _ Hrun Hv).
    + intros Hin. destruct (run_records_keys _ _ _ _ Hrun Hin) as (e & He & <-).
      exists (value e). exact (search_stored_record _ _ Hwf He).
  - intros v Hv. unfold get_value in Hv. apply search_Some_record in Hv.
    pose proof (run_records_count _ _ _ _ Hrun Hs Hv) as Hc. cbn [key value] in Hc.
    rewrite Hc, row_keys_filter_length, rows_with_key_in_chunk_offsets. reflexivity.
Qed.

Lemma bulk_load_holds_row_keys_witness :
  get_value (BTreeIndex_new [[Some 2; None; Some 1; Some 2]]) [2] = Some (run_value 1 2)
  ∧ count (run_value 1 2)
    = Z.of_nat (length (filter (λ o, row_key [[Some 2; None; Some 1; Some 2]] o = Some [2])
                          (seq 0 (chunk_size [[Some 2; None; Some 1; Some 2]])))).
Proof.
  assert (Hv : get_value (BTreeIndex_new [[Some 2; None; Some 1; Some 2]]) [2]
               = Some (run_value 1 2)) by (vm_compute; reflexivity).
  split; [exact Hv|].
  exact (proj2 (bulk_load_holds_row_keys [[Some 2; None; Some 1; Some 2]] [2]) _ Hv).
Defined.


(** * The two ends of the chain of leaves *)

Lemma outer_leaves n :
  shape_ok n → get_leftmost_leaf n = 0%nat ∧ S (get_rightmost_leaf n) = leaf_count n.
Proof.
  induction n as [t lf es cs IH] using BTreeNode_children_ind. intros Hshape.
  destruct lf; [split; reflexivity|].
  apply shape_ok_node in Hshape as [_ H]. destruct (H eq_refl) as [Hlen Hcs]. clear H.
  split.
  - simpl. destruct cs as [|c cs]; [reflexivity|].
    inversion IH as [|? ? Hc _]; subst. inversion Hcs as [|? ? Hsc _]; subst.
    exact (proj1 (Hc Hsc)).
  - destruct (lookup_lt_is_Some_2 cs (length cs - 1)) as [c Hc]; [lia|].
    destruct (Forall_lookup_1 _ _ _ _ IH Hc (Forall_lookup_1 _ _ _ _ Hcs Hc)) as [_ Hr].
    simpl get_rightmost_leaf. rewrite apply_nth_lookup, Hc. simpl.
    unfold leaf_count in *. simpl collect_leaves.
    rewrite <- (take_drop_middle cs (length cs - 1) c Hc) at 3.
    rewrite drop_ge by lia. rewrite fmap_app, concat_app, length_app. simpl.
    rewrite app_nil_r. lia.
Qed.

(** X25. In every tree that the constructor and the public operations
    build, [get_leftmost_leaf] and [get_rightmost_leaf] return the first
    and the last leaf of the chain that [_link_leaf_neighbors] links. *)
Theorem outer_leaves_end_the_chain segments ms :
  get_leftmost_leaf (_root (run (BTreeIndex_new segments) ms)) = 0%nat
  ∧ S (get_rightmost_leaf (_root (run (BTreeIndex_new segments) ms)))
    = length (_link_leaf_neighbors (_root (run (BTreeIndex_new segments) ms))).
Proof. apply outer_leaves, shape_ok_run. Qed.


(** * What the validator does with the RHS key *)









(** * The count frame, record by record *)








(** * The OD scenario on an index with a record in an internal node *)

(** C4. OD broken boundary.  On the empty index, and on the index the test
    [ODValidationViolationDetection] bulk-loads with the LHS keys 1, 2, 3,
    inserting (1,30), (2,20), (3,10) as OD leaves the counter at 2: the
    records of 1 and 2 carry one boundary flag each and no record has a
    local violation.  On the index bulk-loaded with the keys 1 to 6, which
    tracks no pair either and counts no violation, the same three inserts
    leave the counter at 1: the record of 3 is in the root, [find_leaf] does
    not locate it, and the third insert returns zero deltas without
    tracking the pair, so that the violation between 2 and 3 is not
    counted.  That is what an OD insert does for every key of a well-formed
    index whose record is in an internal node: it returns zero deltas,
    tracks nothing and leaves the counter alone. *)
Theorem od_broken_boundary_scenario :
  (global_violation_count (run empty_index broken_boundary_ops) = 2
   ∧ entry_flags (run empty_index broken_boundary_ops)
     = [([1], 1, 0); ([2], 1, 0); ([3], 0, 0)]
   ∧ global_violation_count (run index_123 broken_boundary_ops) = 2
   ∧ entry_flags (run index_123 broken_boundary_ops)
     = [([1], 1, 0); ([2], 1, 0); ([3], 0, 0)])
  ∧ (well_formed one_to_six_index
     ∧ Forall (λ e, rhs_values (value e) = ∅) (tree_entries (_root one_to_six_index))
     ∧ global_violation_count one_to_six_index = 0
     ∧ global_violation_count (run one_to_six_index broken_boundary_ops) = 1
     ∧ entry_flags (run one_to_six_index broken_boundary_ops)
       = [([1], 1, 0); ([2], 0, 0); ([3], 0, 0); ([4], 0, 0); ([5], 0, 0); ([6], 0, 0)]
     ∧ find_leaf (_root (run one_to_six_index (take 2 broken_boundary_ops))) [3] = None
     ∧ (insert_entry_for_validation
          (run one_to_six_index (take 2 broken_boundary_ops)) [3] [10] OD).1 = zero_deltas
     ∧ rhs_values <$> get_value (run one_to_six_index broken_boundary_ops) [3] = Some ∅)
  ∧ (∀ idx l r,
       well_formed idx → l ∈ all_keys idx → l ∉ leaf_walk_keys idx →
       (insert_entry_for_validation idx l r OD).1 = zero_deltas
       ∧ rhs_values <$> get_value (insert_entry_for_validation idx l r OD).2 l
         = rhs_values <$> get_value idx l
       ∧ global_violation_count (insert_entry_for_validation idx l r OD).2
         = global_violation_count idx).
Proof.
  split; [vm_compute; repeat split; reflexivity|]. split.
  - split; [vm_compute; reflexivity|].
    split; [apply (bool_decide_unpack _); vm_compute; exact I|].
    vm_compute. repeat split; reflexivity.
  - intros idx l r Hwf Hall Hleaf.
    destruct (held_not_in_leaf idx l Hwf Hall Hleaf) as [[v Hs] Hf].
    unfold insert_entry_for_validation. rewrite Hs. simpl.
    rewrite (find_leaf_same_keys _ (_root idx) l (key_shape_alter_search _ _ _)), Hf.
    split; [reflexivity|]. split; [|reflexivity].
    unfold get_value. simpl.
    rewrite search_alter_search, decide_True by reflexivity. rewrite Hs. reflexivity.
Qed.

Lemma od_broken_boundary_scenario_witness :
  well_formed one_to_six_index
  ∧ [3] ∈ all_keys one_to_six_index
  ∧ ([3] ∉ leaf_walk_keys one_to_six_index)
  ∧ (insert_entry_for_validation one_to_six_index [3] [10] OD).1 = zero_deltas
  ∧ global_violation_count (insert_entry_for_validation one_to_six_index [3] [10] OD).2
    = global_violation_count one_to_six_index.
Proof.
  assert (Hwf : well_formed one_to_six_index) by (vm_compute; reflexivity).
  assert (Hall : [3] ∈ all_keys one_to_six_index).
  { vm_compute. do 2 apply list_elem_of_further. apply list_elem_of_here. }
  assert (Hleaf : [3] ∉ leaf_walk_keys one_to_six_index).
  { vm_compute. intros H. repeat (apply elem_of_cons in H as [H|H]; [discriminate|]).
    apply elem_of_nil in H. exact H. }
  split; [exact Hwf|]. split; [exact Hall|]. split; [exact Hleaf|].
  destruct od_broken_boundary_scenario as (_ & _ & H).
  destruct (H one_to_six_index [3] [10] Hwf Hall Hleaf) as (H1 & _ & H3).
  split; [exact H1 | exact H3].
Defined.


(** * Inserting an erased key again, with splits on the way down *)
















(** * OD: the update of the only value of a record *)





(** * OD: the round trip of the only value of a record *)













